(** * data_manager_corenlp_models: a shallow embedding and its properties

    The script downloads Stanford CoreNLP model JARs into a target
    directory and writes a Galaxy data-manager JSON manifest.  This file
    embeds [src/data_manager_corenlp_models.py] function by function:

    - Python [str] values are lists of Unicode code points ([list N]);
    - the outside world (working directory, files and directories, the
      network, the log of external actions) is a record [World] that every
      effectful function threads through the monad [M];
    - [argparse] is the function [parse_args] on the options given on the
      command line.

    Progress and status lines printed to stdout and stderr are left out. *)

From Stdlib Require Import String Ascii NArith List Bool Lia.
From stdpp Require Import base option list gmap sets.

Local Open Scope N_scope.

(** ** Text *)

(** A Python string: the sequence of its code points. *)
Abbreviation str := (list N).

(** The literal [s] as a Python string. *)
Definition py (s : string) : str :=
  (λ a : ascii, N_of_ascii a) <$> list_ascii_of_string s.

(** [str.isspace] on one character: the code points CPython's
    [_PyUnicode_IsWhitespace] accepts. *)
Definition isspace (c : N) : bool :=
  ((9 <=? c) && (c <=? 13)) || ((28 <=? c) && (c <=? 32))
  || (c =? 133) || (c =? 160) || (c =? 5760)
  || ((8192 <=? c) && (c <=? 8202))
  || (c =? 8232) || (c =? 8233) || (c =? 8239) || (c =? 8287) || (c =? 12288).

Fixpoint lstrip (s : str) : str :=
  match s with
  | c :: s' => if isspace c then lstrip s' else s
  | [] => []
  end.

Definition rstrip (s : str) : str := reverse (lstrip (reverse s)).

(** [s.strip()] *)
Definition strip (s : str) : str := rstrip (lstrip s).

(** [s.split(sep)] for a separator of one character; never empty. *)
Fixpoint split (sep : N) (s : str) : list str :=
  match s with
  | [] => [[]]
  | c :: s' =>
      if c =? sep then [] :: split sep s'
      else match split sep s' with
           | f :: fs => (c :: f) :: fs
           | [] => [[c]]
           end
  end.

(** [sep.join(l)] *)
Fixpoint join (sep : str) (l : list str) : str :=
  match l with
  | [] => []
  | [x] => x
  | x :: l' => x ++ sep ++ join sep l'
  end.

(** [s.startswith(c)] for one character. *)
Definition startswith (c : N) (s : str) : bool :=
  match s with
  | c' :: _ => c' =? c
  | [] => false
  end.

Definition TAB : N := 9.
Definition LF : N := 10.
Definition CR : N := 13.
Definition HASH : N := 35.
Definition SLASH : N := 47.

(** Text-mode reading ([open(path)], [newline=None]): "\r\n" and a lone
    "\r" arrive as "\n". *)
Fixpoint universal_newlines (s : str) : str :=
  match s with
  | [] => []
  | c :: rest =>
      if c =? CR then
        match rest with
        | c' :: _ => if c' =? LF then universal_newlines rest
                     else LF :: universal_newlines rest
        | [] => [LF]
        end
      else c :: universal_newlines rest
  end.

(** [for line in f]: the lines of the text, each with its terminating
    "\n" (the last one may lack it). *)
Fixpoint iter_lines (s : str) : list str :=
  match s with
  | [] => []
  | c :: s' =>
      if c =? LF then [c] :: iter_lines s'
      else match iter_lines s' with
           | l :: ls => (c :: l) :: ls
           | [] => [[c]]
           end
  end.

(** ** Paths ([pathlib.PurePosixPath]) *)

Record Path := { root : str; parts : list str }.

Definition part_kept (c : str) : bool :=
  negb (bool_decide (c = [])) && negb (bool_decide (c = py ".")).

(** [Path(s)]: the root is "/", "//" (exactly two leading slashes) or
    empty; empty and "." components are dropped. *)
Definition parse_path (s : str) : Path :=
  {| root :=
       match s with
       | 47 :: 47 :: 47 :: _ => [SLASH]
       | 47 :: 47 :: _ => [SLASH; SLASH]
       | 47 :: _ => [SLASH]
       | _ => []
       end;
     parts := filter (λ c, Is_true (part_kept c)) (split SLASH s) |}.

#[global] Instance Path_eq_dec : EqDecision Path.
Proof. solve_decision. Defined.

#[global] Instance Path_countable : Countable Path :=
  inj_countable' (λ p, (root p, parts p))
    (λ t, {| root := fst t; parts := snd t |}) (λ p, match p with Build_Path _ _ => eq_refl end).

Definition is_absolute (p : Path) : bool := negb (bool_decide (root p = [])).

(** [p / key] *)
Definition truediv (p : Path) (key : str) : Path :=
  let q := parse_path key in
  if is_absolute q then q else {| root := root p; parts := parts p ++ parts q |}.

(** [str(p)] *)
Definition path_str (p : Path) : str :=
  match root p, parts p with
  | [], [] => py "."
  | r, ps => r ++ join [SLASH] ps
  end.

(** [p.absolute()] with [os.getcwd() = cwd]. *)
Definition absolute (cwd : str) (p : Path) : Path :=
  if is_absolute p then p
  else let c := parse_path cwd in {| root := root c; parts := parts c ++ parts p |}.


(** ** The world outside the program *)

(** [File content]: a regular file that reads as the text [content];
    [Binary]: a regular file whose bytes are not text in the default
    encoding. *)
Inductive Node := File (content : str) | Dir | Binary.

#[global] Instance Node_eq_dec : EqDecision Node.
Proof. solve_decision. Defined.

(** What one call of [urllib.request.urlretrieve] does: the archive
    arrives, or the transfer raises, possibly after part of the
    destination file has been written. *)
Inductive FetchResult :=
  | Fetched (content : str)
  | FetchError (partial : option str).

(** External actions, in the order the program performs them. *)
Inductive Event :=
  | FsExists (p : Path)
  | FsOpenRead (p : Path)
  | FsMkdir (p : Path)
  | FsOpenWrite (p : Path)
  | NetFetch (url : str) (dest : Path).

(** [fs] is keyed by absolute paths in pathlib's normal form (".." and
    symbolic links are not resolved) and says what is at each path but
    the root; whatever is there may be read and written (permissions are
    not part of the world).  [net n url] is the outcome of a transfer of
    [url] started when [n] transfers have been made. *)
Record World := {
  cwd : str;
  fs : gmap Path Node;
  net : nat → str → FetchResult;
  fetches : nat;
  trace : list Event
}.

Definition set_fs (f : gmap Path Node) (w : World) : World :=
  {| cwd := cwd w; fs := f; net := net w; fetches := fetches w; trace := trace w |}.

Definition log (e : Event) (w : World) : World :=
  {| cwd := cwd w; fs := fs w; net := net w; fetches := fetches w;
     trace := trace w ++ [e] |}.

Definition tick (w : World) : World :=
  {| cwd := cwd w; fs := fs w; net := net w; fetches := S (fetches w);
     trace := trace w |}.

(** The key of [p] in [fs]. *)
Definition fs_key (w : World) (p : Path) : Path := absolute (cwd w) p.

(** ** Ways a run ends early *)

Inductive UsageError :=
  | InvalidChoice (value : str)
  | RejectedOption (option : str)
  | MissingRequired (options : list str)
  | UnrecognizedArguments (arguments : list str)
  | AtLeastOne.

Inductive Exn :=
  | IsADirectoryError (p : Path)
  | NotADirectoryError (p : Path)
  | FileNotFoundError (p : Path)
  | FileExistsError (p : Path)
  | UnicodeDecodeError (p : Path)
  | KeyError (k : str).

(** [Usage]: [parser.error], exit status 2.  [Uncaught]: a traceback, exit
    status 1. *)
Inductive Abort := Usage (e : UsageError) | Uncaught (e : Exn).

(** ** The monad of effectful code *)

Definition M (A : Type) : Type := World → (Abort + A) * World.

Definition ret {A} (a : A) : M A := λ w, (inr a, w).
Definition raise {A} (e : Exn) : M A := λ w, (inl (Uncaught e), w).
Definition bind {A B} (m : M A) (k : A → M B) : M B :=
  λ w, match m w with
       | (inl e, w') => (inl e, w')
       | (inr a, w') => k a w'
       end.

Notation "'do' x <- m 'in' k" := (bind m (λ x, k))
  (at level 10, x name, m at level 100, k at level 200, only parsing).
Notation "'do_' m 'in' k" := (bind m (λ _, k))
  (at level 10, m at level 100, k at level 200, only parsing).

(** What is at key [k]: the root directory is always there. *)
Definition node_at (f : gmap Path Node) (k : Path) : option Node :=
  match parts k with
  | [] => Some Dir
  | _ => f !! k
  end.

(** [p.exists()] *)
Definition path_exists (p : Path) : M bool :=
  λ w, let k := fs_key w p in
       (inr (bool_decide (is_Some (node_at (fs w) k))), log (FsExists k) w).

(** The directories [mkdir(parents=True)] goes through: [p]'s ancestors
    below the root, outermost first, then [p]. *)
Fixpoint ancestors (r : str) (done todo : list str) : list Path :=
  match todo with
  | [] => []
  | c :: todo' =>
      let here := done ++ [c] in
      {| root := r; parts := here |} :: ancestors r here todo'
  end.

(** The directories above [k], outermost first. *)
Definition parents (k : Path) : list Path :=
  ancestors (root k) [] (removelast (parts k)).

(** Walking down the directories [ks]: all are there, one is missing, or
    one is a regular file. *)
Inductive Reach := Reached | Absent | NotDir.

Fixpoint reach (f : gmap Path Node) (ks : list Path) : Reach :=
  match ks with
  | [] => Reached
  | k :: ks' =>
      match f !! k with
      | Some Dir => reach f ks'
      | Some _ => NotDir
      | None => Absent
      end
  end.

(** What follows the last component that [Path] keeps in a file name
    handed to [open] as text: nothing, slashes only, or a "."
    component.  [Path] drops all of it; the operating system then
    demands a directory. *)
Inductive Tail := Plain | Slash | Dot.

(** [comps]: the components of the name, last first. *)
Fixpoint tail_of (comps : list str) : Tail :=
  match comps with
  | [] => Plain
  | c :: rest =>
      if bool_decide (c = py ".") then Dot
      else if bool_decide (c = []) then
        match tail_of rest with
        | Plain => Slash
        | t => t
        end
      else Plain
  end.

Definition tail (file : str) : Tail := tail_of (reverse (split SLASH file)).

(** [open(file).read()] in text mode, [file] being the text of a path. *)
Definition read_text (file : str) : M str :=
  λ w, let k := fs_key w (parse_path file) in
       let w' := log (FsOpenRead k) w in
       let fail (e : Path → Exn) : (Abort + str) * World :=
         (inl (Uncaught (e k)), w') in
       if bool_decide (file = []) then fail FileNotFoundError
       else
         match node_at (fs w) k with
         | Some Dir => fail IsADirectoryError
         | Some node =>
             match tail file, node with
             | Plain, File c => (inr (universal_newlines c), w')
             | Plain, _ => fail UnicodeDecodeError
             | _, _ => fail NotADirectoryError
             end
         | None =>
             match reach (fs w) (parents k) with
             | NotDir => fail NotADirectoryError
             | _ => fail FileNotFoundError
             end
         end.

(** [open(file, "w").write(text)], [file] being the text of a path. *)
Definition write_text (file : str) (text : str) : M unit :=
  λ w, let k := fs_key w (parse_path file) in
       let w' := log (FsOpenWrite k) w in
       let fail (e : Path → Exn) : (Abort + unit) * World :=
         (inl (Uncaught (e k)), w') in
       let written := (inr (), set_fs (<[k := File text]> (fs w)) w') in
       if bool_decide (file = []) then fail FileNotFoundError
       else
         match node_at (fs w) k with
         | Some Dir => fail IsADirectoryError
         | Some _ =>
             match tail file with
             | Plain => written
             | Slash => fail IsADirectoryError
             | Dot => fail NotADirectoryError
             end
         | None =>
             match reach (fs w) (parents k) with
             | NotDir => fail NotADirectoryError
             | Absent => fail FileNotFoundError
             | Reached =>
                 match tail file with
                 | Plain => written
                 | Slash => fail IsADirectoryError
                 | Dot => fail FileNotFoundError
                 end
             end
         end.

(** [os.mkdir] on each of [ks] in turn, [target] being the last: what
    exists as a directory is left alone, what is missing is created; a
    regular file in the way of [target] raises [NotADirectoryError], one
    in its place [FileExistsError]. *)
Fixpoint mkdir_each (target : Path) (ks : list Path) (f : gmap Path Node)
    : Exn + gmap Path Node :=
  match ks with
  | [] => inr f
  | k :: ks' =>
      match f !! k with
      | Some Dir => mkdir_each target ks' f
      | Some _ =>
          inl (match ks' with
               | [] => FileExistsError target
               | _ => NotADirectoryError target
               end)
      | None => mkdir_each target ks' (<[k := Dir]> f)
      end
  end.

(** [p.mkdir(parents=True, exist_ok=True)] *)
Definition mkdir_parents (p : Path) : M unit :=
  λ w, let a := absolute (cwd w) p in
       let w' := log (FsMkdir a) w in
       match mkdir_each a (ancestors (root a) [] (parts a)) (fs w) with
       | inl e => (inl (Uncaught e), w')
       | inr f => (inr (), set_fs f w')
       end.

(** [urllib.request.urlretrieve(url, dest)] inside [try]: [true] when it
    returns, [false] when it raises. *)
Definition urlretrieve (url : str) (dest : Path) : M bool :=
  λ w, let k := fs_key w dest in
       let w' := tick (log (NetFetch url k) w) in
       match net w (fetches w) url with
       | Fetched c => (inr true, set_fs (<[k := File c]> (fs w)) w')
       | FetchError (Some c) => (inr false, set_fs (<[k := File c]> (fs w)) w')
       | FetchError None => (inr false, w')
       end.

(** [p.absolute()] *)
Definition path_absolute (p : Path) : M Path :=
  λ w, (inr (absolute (cwd w) p), w).

(** ** The catalog *)

Module Model.
Record t := { name : str; jar_name : str; url : str }.
End Model.

Definition CORENLP_VERSION : str := py "4.5.10".

Definition MAVEN : str :=
  py "https://repo1.maven.org/maven2/edu/stanford/nlp/stanford-corenlp/".

Definition COMMON_MODELS : Model.t :=
  {| Model.name := py "Common Models";
     Model.jar_name := py "stanford-corenlp-" ++ CORENLP_VERSION ++ py "-models.jar";
     Model.url := MAVEN ++ CORENLP_VERSION ++ py "/stanford-corenlp-"
                    ++ CORENLP_VERSION ++ py "-models.jar" |}.

Definition LANGUAGE_TABLE : list (str * Model.t) := [
    (py "ar",
     {| Model.name := py "Arabic";
        Model.jar_name := py "stanford-corenlp-" ++ CORENLP_VERSION ++ py "-models-arabic.jar";
        Model.url := MAVEN ++ CORENLP_VERSION ++ py "/stanford-corenlp-"
                       ++ CORENLP_VERSION ++ py "-models-arabic.jar" |});
    (py "zh",
     {| Model.name := py "Chinese";
        Model.jar_name := py "stanford-corenlp-" ++ CORENLP_VERSION ++ py "-models-chinese.jar";
        Model.url := MAVEN ++ CORENLP_VERSION ++ py "/stanford-corenlp-"
                       ++ CORENLP_VERSION ++ py "-models-chinese.jar" |});
    (py "en",
     {| Model.name := py "English";
        Model.jar_name := py "stanford-corenlp-" ++ CORENLP_VERSION ++ py "-models-english.jar";
        Model.url := MAVEN ++ CORENLP_VERSION ++ py "/stanford-corenlp-"
                       ++ CORENLP_VERSION ++ py "-models-english.jar" |});
    (py "fr",
     {| Model.name := py "French";
        Model.jar_name := py "stanford-corenlp-" ++ CORENLP_VERSION ++ py "-models-french.jar";
        Model.url := MAVEN ++ CORENLP_VERSION ++ py "/stanford-corenlp-"
                       ++ CORENLP_VERSION ++ py "-models-french.jar" |});
    (py "de",
     {| Model.name := py "German";
        Model.jar_name := py "stanford-corenlp-" ++ CORENLP_VERSION ++ py "-models-german.jar";
        Model.url := MAVEN ++ CORENLP_VERSION ++ py "/stanford-corenlp-"
                       ++ CORENLP_VERSION ++ py "-models-german.jar" |});
    (py "hu",
     {| Model.name := py "Hungarian";
        Model.jar_name := py "stanford-corenlp-" ++ CORENLP_VERSION ++ py "-models-hungarian.jar";
        Model.url := MAVEN ++ CORENLP_VERSION ++ py "/stanford-corenlp-"
                       ++ CORENLP_VERSION ++ py "-models-hungarian.jar" |});
    (py "it",
     {| Model.name := py "Italian";
        Model.jar_name := py "stanford-corenlp-" ++ CORENLP_VERSION ++ py "-models-italian.jar";
        Model.url := MAVEN ++ CORENLP_VERSION ++ py "/stanford-corenlp-"
                       ++ CORENLP_VERSION ++ py "-models-italian.jar" |});
    (py "es",
     {| Model.name := py "Spanish";
        Model.jar_name := py "stanford-corenlp-" ++ CORENLP_VERSION ++ py "-models-spanish.jar";
        Model.url := MAVEN ++ CORENLP_VERSION ++ py "/stanford-corenlp-"
                       ++ CORENLP_VERSION ++ py "-models-spanish.jar" |})
  ].

Definition LANGUAGE_MODELS : gmap str Model.t := list_to_map LANGUAGE_TABLE.

(** [d[k]] *)
Definition subscript {V} (d : gmap str V) (k : str) : M V :=
  match d !! k with
  | Some v => ret v
  | None => raise (KeyError k)
  end.

(** ** download_model *)

(** [urlretrieve] under [try]/[except Exception]: never raises. *)
Definition download_model (url : str) (target_path : Path) : M bool :=
  urlretrieve url target_path.

(** ** load_existing_models *)

(** The body of [for line in f]. *)
Definition add_line (existing : gset str) (line : str) : gset str :=
  let line := strip line in
  if negb (bool_decide (line = [])) && negb (startswith HASH line) then
    match split TAB line with
    | part0 :: _ => {[ part0 ]} ∪ existing
    | [] => existing
    end
  else existing.

Definition load_existing_models (data_table_path : option str) : M (gset str) :=
  match data_table_path with
  | Some path =>
      if bool_decide (path = []) then ret ∅
      else
        do there <- path_exists (parse_path path) in
        if there then
          do text <- read_text path in
          ret (foldl add_line ∅ (iter_lines text))
        else ret ∅
  | None => ret ∅
  end.

(** ** JSON output *)

#[local] Set Warnings "-register-all".

Inductive json :=
  | JString (s : str)
  | JArray (items : list json)
  | JObject (members : list (str * json)).

Definition hex_digit (d : N) : N :=
  if d <? 10 then 48 + d else 87 + d.

(** ['{0:04x}'.format(n)] for [n < 0x10000]. *)
Definition hex4 (n : N) : str :=
  [hex_digit (n / 4096 mod 16); hex_digit (n / 256 mod 16);
   hex_digit (n / 16 mod 16); hex_digit (n mod 16)].

Definition BACKSLASH : N := 92.
Definition QUOTE : N := 34.

Definition u_escape (n : N) : str := [BACKSLASH; 117] ++ hex4 n.

(** [json.encoder]'s replacement of one character ([ensure_ascii]). *)
Definition escape_char (c : N) : str :=
  if c =? BACKSLASH then [BACKSLASH; BACKSLASH]
  else if c =? QUOTE then [BACKSLASH; QUOTE]
  else if (32 <=? c) && (c <=? 126) then [c]
  else if c =? 8 then [BACKSLASH; 98]
  else if c =? 12 then [BACKSLASH; 102]
  else if c =? 10 then [BACKSLASH; 110]
  else if c =? 13 then [BACKSLASH; 114]
  else if c =? 9 then [BACKSLASH; 116]
  else if c <? 65536 then u_escape c
  else
    let n := c - 65536 in
    u_escape (N.lor 55296 (N.land (N.shiftr n 10) 1023))
    ++ u_escape (N.lor 56320 (N.land n 1023)).

Definition encode_basestring_ascii (s : str) : str :=
  [QUOTE] ++ concat (escape_char <$> s) ++ [QUOTE].

Definition newline_indent (indent level : nat) : str :=
  LF :: replicate (indent * level) 32.

(** [json.dumps(v, indent=indent)] at nesting depth [level]. *)
Fixpoint dumps_at (indent level : nat) (v : json) : str :=
  match v with
  | JString s => encode_basestring_ascii s
  | JArray [] => py "[]"
  | JArray items =>
      py "[" ++ newline_indent indent (S level)
      ++ join (py "," ++ newline_indent indent (S level))
           (map (dumps_at indent (S level)) items)
      ++ newline_indent indent level ++ py "]"
  | JObject [] => py "{}"
  | JObject members =>
      py "{" ++ newline_indent indent (S level)
      ++ join (py "," ++ newline_indent indent (S level))
           (map (λ kv, encode_basestring_ascii (fst kv) ++ py ": "
                        ++ dumps_at indent (S level) (snd kv)) members)
      ++ newline_indent indent level ++ py "}"
  end.

Definition json_dumps (indent : nat) (v : json) : str := dumps_at indent 0 v.

Fixpoint member (k : str) (members : list (str * json)) : option json :=
  match members with
  | [] => None
  | (k', v) :: rest => if bool_decide (k' = k) then Some v else member k rest
  end.

(** [v[k]] on a JSON object. *)
Definition json_get (k : str) (v : json) : option json :=
  match v with
  | JObject members => member k members
  | _ => None
  end.

(** ** Data table entries *)

Module Entry.
Record t := { value : str; name : str; lang_code : str; models_path : str }.

(** The dict literal appended to [data_table_entries]. *)
Definition to_json (e : t) : json :=
  JObject [ (py "value", JString (value e));
            (py "name", JString (name e));
            (py "lang_code", JString (lang_code e));
            (py "models_path", JString (models_path e)) ].
End Entry.

Definition data_manager_output (data_table_entries : list Entry.t) : json :=
  JObject [ (py "data_tables",
             JObject [ (py "corenlp_models",
                        JArray (Entry.to_json <$> data_table_entries)) ]) ].

(** ** Command line *)

(** The options of the command line: every [--language] value in order,
    whether [--common-models] occurs, and the values of
    [--target-directory], [--output] and [--data-table] when given. *)
Record Argv := {
  opt_language : list str;
  opt_common_models : bool;
  opt_target_directory : option str;
  opt_output : option str;
  opt_data_table : option str
}.

(** The result of [parser.parse_args()]. *)
Record Namespace := {
  language : option (list str);
  common_models : bool;
  target_directory : str;
  output : str;
  data_table : option str
}.

(** [choices=LANGUAGE_MODELS.keys()] *)
Definition supported (code : str) : bool :=
  bool_decide (is_Some (LANGUAGE_MODELS !! code)).

Definition missing_required (a : Argv) : list str :=
  (if opt_target_directory a is Some _ then [] else [py "--target-directory"])
  ++ (if opt_output a is Some _ then [] else [py "--output"]).

(** [parse_args]: a value outside [choices] is rejected when it is read, a
    missing required option once the whole command line has been read. *)
Definition parse_args (a : Argv) : UsageError + Namespace :=
  match filter (λ c, ¬ Is_true (supported c)) (opt_language a) with
  | bad :: _ => inl (InvalidChoice bad)
  | [] =>
      match opt_target_directory a, opt_output a with
      | Some t, Some o =>
          inr {| language := match opt_language a with
                             | [] => None
                             | l => Some l
                             end;
                 common_models := opt_common_models a;
                 target_directory := t;
                 output := o;
                 data_table := opt_data_table a |}
      | _, _ => inl (MissingRequired (missing_required a))
      end
  end.

(** [parser.error(...)] *)
Definition parser_error {A} (e : UsageError) : M A := λ w, (inl (Usage e), w).

(** Truth value of [args.language]. *)
Definition truthy (l : option (list str)) : bool :=
  match l with
  | Some (_ :: _) => true
  | _ => false
  end.

(** ** main *)

(** Lines 136-168: the common models. *)
Definition process_common (existing_models : gset str) (target_dir : Path)
    (data_table_entries : list Entry.t) : M (list Entry.t) :=
  if bool_decide (py "common" ∈ existing_models) then ret data_table_entries
  else
    let jar_path := truediv target_dir (Model.jar_name COMMON_MODELS) in
    do there <- path_exists jar_path in
    do_ (if there then ret true
         else download_model (Model.url COMMON_MODELS) jar_path) in
    do abs <- path_absolute jar_path in
    ret (data_table_entries ++
         [ {| Entry.value := py "common";
              Entry.name := Model.name COMMON_MODELS;
              Entry.lang_code := py "common";
              Entry.models_path := path_str abs |} ]).

(** Lines 173-209: the body of [for lang_code in args.language]. *)
Definition process_language (existing_models : gset str) (target_dir : Path)
    (data_table_entries : list Entry.t) (lang_code : str) : M (list Entry.t) :=
  if bool_decide (lang_code ∈ existing_models) then
    do_ subscript LANGUAGE_MODELS lang_code in
    ret data_table_entries
  else
    do model_info <- subscript LANGUAGE_MODELS lang_code in
    let jar_path := truediv target_dir (Model.jar_name model_info) in
    do there <- path_exists jar_path in
    do ok <- (if there then ret true
              else download_model (Model.url model_info) jar_path) in
    if ok then
      do abs <- path_absolute jar_path in
      ret (data_table_entries ++
           [ {| Entry.value := lang_code;
                Entry.name := Model.name model_info;
                Entry.lang_code := lang_code;
                Entry.models_path := path_str abs |} ])
    else ret data_table_entries.

(** The [for] loop. *)
Fixpoint process_languages (existing_models : gset str) (target_dir : Path)
    (data_table_entries : list Entry.t) (codes : list str) : M (list Entry.t) :=
  match codes with
  | [] => ret data_table_entries
  | lang_code :: rest =>
      do entries <- process_language existing_models target_dir
                      data_table_entries lang_code in
      process_languages existing_models target_dir entries rest
  end.

(** Lines 132-209: the orchestrator; yields [data_table_entries]. *)
Definition orchestrate (args : Namespace) (existing_models : gset str)
    (target_dir : Path) : M (list Entry.t) :=
  do entries <- (if common_models args
                 then process_common existing_models target_dir []
                 else ret []) in
  match language args with
  | Some (c :: l) => process_languages existing_models target_dir entries (c :: l)
  | _ => ret entries
  end.

(** Lines 125-209: everything between the argument check and the
    writing of the manifest. *)
Definition collect_entries (args : Namespace) : M (list Entry.t) :=
  do existing_models <- load_existing_models (data_table args) in
  let target_dir := parse_path (target_directory args) in
  do_ mkdir_parents target_dir in
  orchestrate args existing_models target_dir.

(** Lines 211-220: the manifest writer. *)
Definition write_manifest (args : Namespace) (data_table_entries : list Entry.t)
    : M unit :=
  write_text (output args)
    (json_dumps 2 (data_manager_output data_table_entries)).

(** After [parse_args]. *)
Definition run (args : Namespace) : M unit :=
  if negb (truthy (language args)) && negb (common_models args) then
    parser_error AtLeastOne
  else
    do data_table_entries <- collect_entries args in
    write_manifest args data_table_entries.

Definition main (argv : Argv) : M unit :=
  match parse_args argv with
  | inl e => parser_error e
  | inr args => run args
  end.

(** ** The command line, argument by argument *)

(** One argument of [sys.argv[1:]] as [parse_args] takes it when it comes
    to it: a declared option, with its value when it has one;
    [ArgRejected]: a declared option used wrongly (no value follows it,
    or a value is attached to [--common-models]); [ArgUnrecognized]:
    anything that is no option of the parser.  [-h], which prints the
    help text and ends the run with status 0 where it is read, and
    ambiguous abbreviations are not represented. *)
Inductive Arg :=
  | ArgLanguage (value : str)
  | ArgCommonModels
  | ArgTargetDirectory (value : str)
  | ArgOutput (value : str)
  | ArgDataTable (value : str)
  | ArgRejected (option : str)
  | ArgUnrecognized (text : str).

#[global] Instance Arg_eq_dec : EqDecision Arg.
Proof. solve_decision. Defined.

(** The options among the arguments; of an option given more than once
    the last value counts, but for [--language], which collects them. *)
Fixpoint options_of (l : list Arg) : Argv :=
  match l with
  | [] =>
      {| opt_language := []; opt_common_models := false;
         opt_target_directory := None; opt_output := None;
         opt_data_table := None |}
  | a :: l' =>
      let o := options_of l' in
      match a with
      | ArgLanguage v =>
          {| opt_language := v :: opt_language o;
             opt_common_models := opt_common_models o;
             opt_target_directory := opt_target_directory o;
             opt_output := opt_output o;
             opt_data_table := opt_data_table o |}
      | ArgCommonModels =>
          {| opt_language := opt_language o;
             opt_common_models := true;
             opt_target_directory := opt_target_directory o;
             opt_output := opt_output o;
             opt_data_table := opt_data_table o |}
      | ArgTargetDirectory v =>
          {| opt_language := opt_language o;
             opt_common_models := opt_common_models o;
             opt_target_directory := Some (default v (opt_target_directory o));
             opt_output := opt_output o;
             opt_data_table := opt_data_table o |}
      | ArgOutput v =>
          {| opt_language := opt_language o;
             opt_common_models := opt_common_models o;
             opt_target_directory := opt_target_directory o;
             opt_output := Some (default v (opt_output o));
             opt_data_table := opt_data_table o |}
      | ArgDataTable v =>
          {| opt_language := opt_language o;
             opt_common_models := opt_common_models o;
             opt_target_directory := opt_target_directory o;
             opt_output := opt_output o;
             opt_data_table := Some (default v (opt_data_table o)) |}
      | ArgRejected _ | ArgUnrecognized _ => o
      end
  end.

(** The error [parse_args] ends with while it reads the arguments in
    turn: at the first option used wrongly or language code outside
    [choices]. *)
Fixpoint rejected_first (l : list Arg) : option UsageError :=
  match l with
  | [] => None
  | ArgRejected o :: _ => Some (RejectedOption o)
  | ArgLanguage v :: l' =>
      if supported v then rejected_first l' else Some (InvalidChoice v)
  | _ :: l' => rejected_first l'
  end.

(** The arguments that are no options, reported once all are read. *)
Definition unrecognized (l : list Arg) : list str :=
  omap (λ a, match a with ArgUnrecognized t => Some t | _ => None end) l.

(** [main()] on the command line [sys_argv]: [parse_args] rejects what
    it cannot read, then a missing required option, then the arguments
    it does not recognise; the rest is [main] on the options. *)
Definition command_line (sys_argv : list Arg) : M unit :=
  match rejected_first sys_argv with
  | Some e => parser_error e
  | None =>
      match parse_args (options_of sys_argv) with
      | inl e => parser_error e
      | inr args =>
          match unrecognized sys_argv with
          | [] => run args
          | extras => parser_error (UnrecognizedArguments extras)
          end
      end
  end.

(** ** Names for what the orchestrator computes *)

(** The identifiers of the catalog: the reserved "common" and the
    language codes. *)
Definition CATALOG : list (str * Model.t) :=
  (py "common", COMMON_MODELS) :: LANGUAGE_TABLE.

(** [target_dir / model["jar_name"]] *)
Definition jar_path (target_dir : Path) (m : Model.t) : Path :=
  truediv target_dir (Model.jar_name m).

(** The entry appended for identifier [id] with catalog record [m]. *)
Definition entry_of (w : World) (target_dir : Path) (id : str) (m : Model.t)
    : Entry.t :=
  {| Entry.value := id;
     Entry.name := Model.name m;
     Entry.lang_code := id;
     Entry.models_path := path_str (absolute (cwd w) (jar_path target_dir m)) |}.

(** What one call of [urlretrieve] returns and leaves behind. *)
Definition fetch_ok (w : World) (url : str) : bool :=
  match net w (fetches w) url with
  | Fetched _ => true
  | FetchError _ => false
  end.

Definition after_fetch (url : str) (dest : Path) (w : World) : World :=
  snd (urlretrieve url dest w).

(** The key in [fs] of the archive of catalog record [m]. *)
Definition jar_key (target_dir : Path) (w : World) (m : Model.t) : Path :=
  fs_key w (jar_path target_dir m).

(** What processing the identifiers [ids] in turn can change: from world
    [w] with entries [es] to world [w'] with entries [es']. *)
Record step_post (E : gset str) (T : Path) (ids : list str)
    (w : World) (es : list Entry.t) (w' : World) (es' : list Entry.t) : Prop := {
  post_cwd : cwd w' = cwd w;
  post_net : net w' = net w;
  post_entries :
    ∃ new, es' = es ++ new
      ∧ sublist (Entry.lang_code <$> new) ids
      ∧ Forall (λ e, (Entry.lang_code e ∉ E)
                     ∧ (∃ m, (Entry.lang_code e, m) ∈ CATALOG
                             ∧ e = entry_of w T (Entry.lang_code e) m)) new;
  post_trace :
    ∃ evs, trace w' = trace w ++ evs
      ∧ Forall (λ ev, ∃ c m, c ∈ ids ∧ (c ∉ E) ∧ (c, m) ∈ CATALOG
                      ∧ (ev = FsExists (jar_key T w m)
                         ∨ ev = NetFetch (Model.url m) (jar_key T w m))) evs;
  post_fs :
    ∀ k, fs w' !! k = fs w !! k
         ∨ (fs w !! k = None
            ∧ (∃ c m content, c ∈ ids ∧ (c ∉ E) ∧ (c, m) ∈ CATALOG
                 ∧ k = jar_key T w m ∧ fs w' !! k = Some (File content)))
}.

(** The codes the loop goes through. *)
Definition requested (args : Namespace) : list str :=
  default [] (language args).

(** Every transfer of [url] raises / returns. *)
Definition fetch_fails (w : World) (url : str) : Prop :=
  ∀ n, ∃ partial, net w n url = FetchError partial.

Definition fetch_succeeds (w : World) (url : str) : Prop :=
  ∀ n, ∃ content, net w n url = Fetched content.

(** [lang_code == c] on entries. *)
Definition for_code (c : str) (e : Entry.t) : Prop := Entry.lang_code e = c.

#[global] Instance for_code_dec c e : Decision (for_code c e).
Proof. unfold for_code. apply _. Defined.

(** How many times [c] is requested in [codes]. *)
Definition occurrences (c : str) (codes : list str) : nat :=
  length (filter (λ d, d = c) codes).

(** The identifiers the orchestrator goes through, in order. *)
Definition common_ids (args : Namespace) : list str :=
  if common_models args then [py "common"] else [].

Definition identifiers (args : Namespace) : list str :=
  common_ids args ++ requested args.

(** The entries in hand when the loop over the languages starts. *)
Definition common_entries (args : Namespace) (E : gset str) (T : Path)
    (w : World) : list Entry.t :=
  if common_models args && bool_decide (py "common" ∉ E)
  then [entry_of w T (py "common") COMMON_MODELS] else [].

(** [args] with the requested codes replaced by [codes]. *)
Definition with_language (args : Namespace) (codes : list str) : Namespace :=
  {| language := Some codes;
     common_models := common_models args;
     target_directory := target_directory args;
     output := output args;
     data_table := data_table args |}.

(** The catalog records of English and French. *)
Definition ENGLISH : Model.t :=
  {| Model.name := py "English";
     Model.jar_name := py "stanford-corenlp-4.5.10-models-english.jar";
     Model.url := py "https://repo1.maven.org/maven2/edu/stanford/nlp/stanford-corenlp/4.5.10/stanford-corenlp-4.5.10-models-english.jar" |}.

Definition FRENCH : Model.t :=
  {| Model.name := py "French";
     Model.jar_name := py "stanford-corenlp-4.5.10-models-french.jar";
     Model.url := py "https://repo1.maven.org/maven2/edu/stanford/nlp/stanford-corenlp/4.5.10/stanford-corenlp-4.5.10-models-french.jar" |}.


(** ** The existing set, in the words of the specification *)

(** The first character of [line] that is not whitespace. *)
Definition first_nonspace (line : str) : option N :=
  head (filter (λ c, ¬ Is_true (isspace c)) line).

(** The first tab-delimited field of [text]: what precedes its first
    tab, all of [text] when it has none. *)
Fixpoint first_field (text : str) : str :=
  match text with
  | [] => []
  | c :: rest => if c =? TAB then [] else c :: first_field rest
  end.

(** A line is ignored when it is empty after trimming or its first
    non-whitespace character is '#'; otherwise it counts. *)
Definition counts (line : str) : Prop :=
  strip line ≠ [] ∧ first_nonspace line ≠ Some HASH.

#[global] Instance counts_dec line : Decision (counts line).
Proof. unfold counts. apply _. Defined.

(** The set of the first fields of the trimmed lines that count. *)
Definition existing_set_spec (lines : list str) : gset str :=
  list_to_set ((λ line, first_field (strip line)) <$> filter counts lines).

(** The lines [for line in f] goes through for a file holding [content]. *)
Definition file_lines (content : str) : list str :=
  iter_lines (universal_newlines content).

(** ** JSON texts

    The grammar of RFC 8259 for the values the writer emits: strings,
    arrays and objects. *)








(** ** Concrete runs *)

Definition GERMAN : Model.t :=
  {| Model.name := py "German";
     Model.jar_name := py "stanford-corenlp-4.5.10-models-german.jar";
     Model.url := py "https://repo1.maven.org/maven2/edu/stanford/nlp/stanford-corenlp/4.5.10/stanford-corenlp-4.5.10-models-german.jar" |}.

(** A command line with [--target-directory models --output manifest.json]. *)
Definition argv_for (common : bool) (codes : list str) (table : option str) : Argv :=
  {| opt_language := codes;
     opt_common_models := common;
     opt_target_directory := Some (py "models");
     opt_output := Some (py "manifest.json");
     opt_data_table := table |}.

(** What [parse_args] makes of it when every code is supported. *)
Definition args_for (common : bool) (codes : list str) (table : option str)
    : Namespace :=
  {| language := match codes with [] => None | _ => Some codes end;
     common_models := common;
     target_directory := py "models";
     output := py "manifest.json";
     data_table := table |}.

Definition MODELS : Path := parse_path (py "models").

(** A world in [/srv/galaxy] with the given files and network. *)
Definition world (files : gmap Path Node) (network : str → FetchResult) : World :=
  {| cwd := py "/srv/galaxy"; fs := files; net := λ _, network;
     fetches := 0; trace := [] |}.

(** Every transfer succeeds. *)
Definition online (url : str) : FetchResult := Fetched (py "PK").

(** Every transfer fails, leaving [partial] behind. *)
Definition offline (partial : option str) (url : str) : FetchResult :=
  FetchError partial.

(** Only the German archive cannot be fetched; a truncated file stays. *)
Definition german_down (url : str) : FetchResult :=
  if bool_decide (url = Model.url GERMAN) then FetchError (Some (py "PK"))
  else Fetched (py "PK").

(** The English archive is already in the target directory. *)
Definition english_on_disk : gmap Path Node :=
  {[ parse_path (py "/srv/galaxy/models/stanford-corenlp-4.5.10-models-english.jar")
     := File (py "PK") ]}.

(** A data table that lists the common models and English. *)
Definition LOC : str := py "tool-data/corenlp_models.loc".

Definition loc_text : str :=
  py "# value" ++ [TAB] ++ py "name" ++ [TAB] ++ py "lang_code" ++ [TAB] ++ py "path" ++ [LF]
  ++ py "common" ++ [TAB] ++ py "Common Models" ++ [TAB] ++ py "common" ++ [TAB] ++ py "/data/models.jar" ++ [CR; LF]
  ++ [LF]
  ++ py "  en" ++ [TAB] ++ py "English" ++ [TAB] ++ py "en" ++ [TAB] ++ py "/data/english.jar" ++ [LF]
  ++ py "common" ++ [LF].

Definition with_table : gmap Path Node :=
  {[ parse_path (py "/srv/galaxy/tool-data/corenlp_models.loc") := File loc_text ]}.

(** A command line without [--target-directory] and [--output]. *)
Definition argv_bare (codes : list str) : Argv :=
  {| opt_language := codes;
     opt_common_models := false;
     opt_target_directory := None;
     opt_output := None;
     opt_data_table := None |}.


(** ** Counting transfers *)

Definition is_fetch (ev : Event) : bool :=
  match ev with
  | NetFetch _ _ => true
  | _ => false
  end.

(** The number of transfers among the actions [evs]. *)
Definition transfers (evs : list Event) : nat :=
  length (filter (λ ev, Is_true (is_fetch ev)) evs).

(** The requested identifiers that are not in the existing set, in order. *)
Definition to_process (E : gset str) (ids : list str) : list str :=
  filter (λ c, c ∉ E) ids.


(** ** Directory creation *)

(** The keys [target_dir.mkdir(parents=True)] goes through: the
    ancestors of the absolute target directory below the root, then the
    directory itself. *)
Definition mkdir_keys (w : World) (target_dir : Path) : list Path :=
  let a := absolute (cwd w) target_dir in
  ancestors (root a) [] (parts a).

(** Something that is not a directory sits where a directory is
    needed. *)
Definition blocked (f : gmap Path Node) (ks : list Path) : Prop :=
  ∃ k n, k ∈ ks ∧ f !! k = Some n ∧ n ≠ Dir.

Definition obstacle (f : gmap Path Node) (k : Path) : bool :=
  match f !! k with
  | Some Dir | None => false
  | Some _ => true
  end.

#[global] Instance blocked_dec f ks : Decision (blocked f ks).
Proof.
  refine (cast_if (decide (Exists (λ k, Is_true (obstacle f k)) ks)));
    unfold blocked.
  - rename select (Exists _ _) into H.
    apply Exists_exists in H as (k & Hin & Hk). unfold obstacle in Hk.
    destruct (f !! k) as [n|] eqn:Hf; [|done].
    exists k, n. split; [done|]. split; [done|]. by intros ->.
  - rename select (¬ Exists _ _) into H.
    intros (k & n & Hin & Hf & Hn). apply H, Exists_exists.
    exists k. split; [done|]. unfold obstacle. rewrite Hf. by destruct n.
Defined.


(** ** Characters of the manifest text *)

(** A newline or a printable ASCII character. *)
Definition plain_ascii (c : N) : Prop := c = LF ∨ (32 <= c ∧ c <= 126).


(** ** Path components *)

(** A component as [Path(...)] keeps them: not empty, not ".", without
    a slash. *)
Definition clean (part : str) : Prop :=
  part ≠ [] ∧ part ≠ py "." ∧ SLASH ∉ part.

#[global] Instance clean_dec part : Decision (clean part).
Proof. unfold clean. apply _. Defined.

(** A normal form of [Path]: the root is empty, "/" or "//" and every
    component is clean. *)
Definition normal (p : Path) : Prop :=
  (root p = [] ∨ root p = [SLASH] ∨ root p = [SLASH; SLASH])
  ∧ Forall clean (parts p).



(** ** Further concrete worlds *)

(** The working directory [/srv/galaxy], with nothing in it. *)
Definition galaxy_home : gmap Path Node :=
  <[parse_path (py "/srv") := Dir]>
    {[ parse_path (py "/srv/galaxy") := Dir ]}.

(** The data table path names a directory. *)
Definition table_is_dir : gmap Path Node :=
  <[parse_path (py "/srv/galaxy/tool-data/corenlp_models.loc") := Dir]>
    (<[parse_path (py "/srv/galaxy/tool-data") := Dir]> galaxy_home).

(** A regular file sits where the target directory should be. *)
Definition models_is_file : gmap Path Node :=
  <[parse_path (py "/srv/galaxy/models") := File (py "not a directory")]>
    galaxy_home.

(** The indented line of [loc_text] that lists English. *)
Definition english_line : str :=
  py "  en" ++ [TAB] ++ py "English" ++ [TAB] ++ py "en" ++ [TAB]
  ++ py "/data/english.jar" ++ [LF].
(** * Properties *)

(** ** The catalog *)

Lemma NoDup_fmap_eq {A B} `{EqDecision B} (f : A → B) (l : list A) x y :
  NoDup (f <$> l) → x ∈ l → y ∈ l → f x = f y → x = y.
Proof.
  induction l as [|a l IH]; intros Hnd Hx Hy Hf; [by apply elem_of_nil in Hx|].
  rewrite fmap_cons in Hnd. apply NoDup_cons in Hnd as [Hna Hnd].
  apply elem_of_cons in Hx as [->|Hx]; apply elem_of_cons in Hy as [->|Hy];
    auto.
  - exfalso. apply Hna. rewrite Hf. by apply list_elem_of_fmap_2.
  - exfalso. apply Hna. rewrite <- Hf. by apply list_elem_of_fmap_2.
Qed.

Lemma CATALOG_ids : NoDup (fst <$> CATALOG).
Proof. apply (bool_decide_unpack _). by vm_compute. Qed.

Lemma CATALOG_jars : NoDup ((λ im, Model.jar_name (snd im)) <$> CATALOG).
Proof. apply (bool_decide_unpack _). by vm_compute. Qed.

Lemma CATALOG_urls : NoDup ((λ im, Model.url (snd im)) <$> CATALOG).
Proof. apply (bool_decide_unpack _). by vm_compute. Qed.

Lemma CATALOG_plain_jars :
  Forall (λ im, parse_path (Model.jar_name (snd im))
                = {| root := []; parts := [Model.jar_name (snd im)] |}) CATALOG.
Proof. apply (bool_decide_unpack _). by vm_compute. Qed.

Lemma LANGUAGE_MODELS_table c m :
  LANGUAGE_MODELS !! c = Some m ↔ (c, m) ∈ LANGUAGE_TABLE.
Proof.
  unfold LANGUAGE_MODELS. symmetry. apply elem_of_list_to_map.
  pose proof CATALOG_ids as H. unfold CATALOG in H.
  rewrite fmap_cons in H. by apply NoDup_cons in H as [_ H].
Qed.

Lemma language_in_catalog c m :
  LANGUAGE_MODELS !! c = Some m → (c, m) ∈ CATALOG.
Proof. intros H. apply elem_of_cons. right. by apply LANGUAGE_MODELS_table. Qed.

Lemma common_in_catalog : (py "common", COMMON_MODELS) ∈ CATALOG.
Proof. apply elem_of_cons. by left. Qed.

Lemma common_not_language : LANGUAGE_MODELS !! py "common" = None.
Proof. by vm_compute. Qed.

Lemma catalog_jar_plain c m :
  (c, m) ∈ CATALOG →
  parse_path (Model.jar_name m) = {| root := []; parts := [Model.jar_name m] |}.
Proof.
  intros H. pose proof CATALOG_plain_jars as HF.
  rewrite Forall_forall in HF. exact (HF _ H).
Qed.

Lemma jar_path_plain T c m :
  (c, m) ∈ CATALOG →
  jar_path T m = {| root := root T; parts := parts T ++ [Model.jar_name m] |}.
Proof.
  intros H. unfold jar_path, truediv. by rewrite (catalog_jar_plain c m H).
Qed.

Lemma jar_key_parts T w c m :
  (c, m) ∈ CATALOG →
  ∃ r ps, jar_key T w m = {| root := r; parts := ps ++ [Model.jar_name m] |}.
Proof.
  intros Hm. unfold jar_key, fs_key. rewrite (jar_path_plain T c m Hm).
  unfold absolute. destruct (is_absolute _).
  - by eexists _, _.
  - simpl. eexists _, _. by rewrite app_assoc.
Qed.

(** An archive is never the root directory. *)
Lemma node_at_jar_key f T w c m :
  (c, m) ∈ CATALOG → node_at f (jar_key T w m) = f !! jar_key T w m.
Proof.
  intros Hm. destruct (jar_key_parts T w c m Hm) as (r & ps & ->).
  unfold node_at. cbn [parts]. by destruct ps.
Qed.

Lemma node_at_Dir f k : f !! k = Some Dir → node_at f k = Some Dir.
Proof. intros H. unfold node_at. by destruct (parts k). Qed.

Lemma node_at_cases f k :
  node_at f k = f !! k ∨ (parts k = [] ∧ node_at f k = Some Dir).
Proof. unfold node_at. destruct (parts k); auto. Qed.

(** ** One transfer *)

Lemma urlretrieve_eq url dest w :
  urlretrieve url dest w = (inr (fetch_ok w url), after_fetch url dest w).
Proof.
  unfold after_fetch, fetch_ok, urlretrieve.
  by destruct (net w (fetches w) url) as [c|[c|]].
Qed.

Lemma after_fetch_cwd url dest w : cwd (after_fetch url dest w) = cwd w.
Proof.
  unfold after_fetch, urlretrieve.
  by destruct (net w (fetches w) url) as [c|[c|]].
Qed.

Lemma after_fetch_net url dest w : net (after_fetch url dest w) = net w.
Proof.
  unfold after_fetch, urlretrieve.
  by destruct (net w (fetches w) url) as [c|[c|]].
Qed.

Lemma after_fetch_trace url dest w :
  trace (after_fetch url dest w) = trace w ++ [NetFetch url (fs_key w dest)].
Proof.
  unfold after_fetch, urlretrieve.
  by destruct (net w (fetches w) url) as [c|[c|]].
Qed.

Lemma after_fetch_other url dest w k :
  k ≠ fs_key w dest → fs (after_fetch url dest w) !! k = fs w !! k.
Proof.
  intros Hk. unfold after_fetch, urlretrieve.
  destruct (net w (fetches w) url) as [c|[c|]]; simpl; auto;
    by rewrite lookup_insert_ne.
Qed.

Lemma after_fetch_mono url dest w k :
  is_Some (fs w !! k) → is_Some (fs (after_fetch url dest w) !! k).
Proof.
  intros Hk. unfold after_fetch, urlretrieve.
  destruct (net w (fetches w) url) as [c|[c|]]; simpl; auto;
    (destruct (decide (fs_key w dest = k)) as [->|Hne];
       [rewrite lookup_insert_eq; eauto | by rewrite lookup_insert_ne]).
Qed.

Lemma after_fetch_at url dest w :
  fs (after_fetch url dest w) !! fs_key w dest = fs w !! fs_key w dest
  ∨ ∃ content, fs (after_fetch url dest w) !! fs_key w dest = Some (File content).
Proof.
  unfold after_fetch, urlretrieve.
  destruct (net w (fetches w) url) as [c|[c|]]; simpl; auto;
    right; exists c; by rewrite lookup_insert_eq.
Qed.

Lemma after_fetch_ok url dest w :
  fetch_ok w url = true → is_Some (fs (after_fetch url dest w) !! fs_key w dest).
Proof.
  unfold fetch_ok, after_fetch, urlretrieve.
  destruct (net w (fetches w) url) as [c|[c|]]; [|done..].
  intros _. simpl. rewrite lookup_insert_eq. eauto.
Qed.

(** ** One language code *)

Section Orchestrator.
Variable existing_models : gset str.
Variable target_dir : Path.

Lemma process_language_skip es c m w :
  c ∈ existing_models → LANGUAGE_MODELS !! c = Some m →
  process_language existing_models target_dir es c w = (inr es, w).
Proof.
  intros Hc Hm. unfold process_language, subscript, bind.
  rewrite bool_decide_eq_true_2 by done. by rewrite Hm.
Qed.

Lemma process_language_present es c m w :
  c ∉ existing_models → LANGUAGE_MODELS !! c = Some m →
  is_Some (fs w !! jar_key target_dir w m) →
  process_language existing_models target_dir es c w
  = (inr (es ++ [entry_of w target_dir c m]), log (FsExists (jar_key target_dir w m)) w).
Proof.
  intros Hc Hm Hk. unfold process_language, subscript, bind.
  rewrite bool_decide_eq_false_2 by done. rewrite Hm. simpl.
  unfold path_exists. fold (jar_path target_dir m). fold (jar_key target_dir w m).
  rewrite (node_at_jar_key _ _ _ c m) by (by apply language_in_catalog).
  by rewrite bool_decide_eq_true_2 by done.
Qed.

Lemma process_language_absent es c m w :
  c ∉ existing_models → LANGUAGE_MODELS !! c = Some m →
  fs w !! jar_key target_dir w m = None →
  let w1 := log (FsExists (jar_key target_dir w m)) w in
  process_language existing_models target_dir es c w
  = (inr (if fetch_ok w (Model.url m)
          then es ++ [entry_of w target_dir c m] else es),
     after_fetch (Model.url m) (jar_path target_dir m) w1).
Proof.
  intros Hc Hm Hk. unfold process_language, subscript, bind.
  rewrite bool_decide_eq_false_2 by done. rewrite Hm. simpl.
  unfold path_exists. fold (jar_path target_dir m). fold (jar_key target_dir w m).
  rewrite (node_at_jar_key _ _ _ c m) by (by apply language_in_catalog).
  rewrite bool_decide_eq_false_2 by (rewrite Hk; by intros [??]).
  unfold download_model. rewrite urlretrieve_eq.
  change (fetch_ok (log (FsExists (jar_key target_dir w m)) w) (Model.url m))
    with (fetch_ok w (Model.url m)).
  destruct (fetch_ok w (Model.url m)); simpl; [|done].
  unfold path_absolute, ret, entry_of. by rewrite after_fetch_cwd.
Qed.

(** *** Frame conditions *)

Lemma step_post_refl ids w es : step_post existing_models target_dir ids w es w es.
Proof.
  split; auto.
  - exists []. rewrite app_nil_r. split; [done|]. split; [apply sublist_nil_l|done].
  - exists []. by rewrite app_nil_r.
Qed.

Lemma step_post_app ids1 ids2 w es w1 es1 w2 es2 :
  step_post existing_models target_dir ids1 w es w1 es1 →
  step_post existing_models target_dir ids2 w1 es1 w2 es2 →
  step_post existing_models target_dir (ids1 ++ ids2) w es w2 es2.
Proof.
  intros [Hc1 Hn1 (new1 & -> & Hs1 & Hf1) (ev1 & Ht1 & He1) Hfs1]
         [Hc2 Hn2 (new2 & -> & Hs2 & Hf2) (ev2 & Ht2 & He2) Hfs2].
  assert (∀ m, jar_key target_dir w1 m = jar_key target_dir w m) as Hk.
  { intros m. unfold jar_key, fs_key. by rewrite Hc1. }
  assert (∀ c m, entry_of w1 target_dir c m = entry_of w target_dir c m) as Hen.
  { intros c m. unfold entry_of. by rewrite Hc1. }
  split.
  - congruence.
  - congruence.
  - exists (new1 ++ new2). rewrite app_assoc. split; [done|]. split.
    + rewrite fmap_app. by apply sublist_app.
    + apply Forall_app. split; [done|].
      eapply Forall_impl; [exact Hf2|]. intros e (He & m & Hm & Heq).
      split; [done|]. exists m. by rewrite <- Hen.
  - exists (ev1 ++ ev2). rewrite Ht2, Ht1, app_assoc. split; [done|].
    apply Forall_app. split.
    + eapply Forall_impl; [exact He1|]. intros ev (c & m & Hc & H).
      exists c, m. split; [|done]. apply elem_of_app. by left.
    + eapply Forall_impl; [exact He2|]. intros ev (c & m & Hc & H).
      exists c, m. rewrite <- !Hk. split; [|done]. apply elem_of_app. by right.
  - intros k.
    destruct (Hfs2 k) as [H2|(H2 & c & m & ct & Hc & HE & Hm & Hk2 & H2')];
      destruct (Hfs1 k) as [H1|(H1 & c' & m' & ct' & Hc' & HE' & Hm' & Hk' & H1')].
    + left. congruence.
    + right. split; [done|]. exists c', m', ct'.
      repeat split; auto; [apply elem_of_app; by left | congruence].
    + right. split; [congruence|]. exists c, m, ct. rewrite <- Hk.
      repeat split; auto. apply elem_of_app; by right.
    + congruence.
Qed.

End Orchestrator.

Section OrchestratorSteps.
Variable existing_models : gset str.
Variable target_dir : Path.
Abbreviation post := (step_post existing_models target_dir).

Lemma post_entry_new w c m (b : bool) :
  c ∉ existing_models → (c, m) ∈ CATALOG →
  let new := if b then [entry_of w target_dir c m] else [] in
  sublist (Entry.lang_code <$> new) [c]
  ∧ Forall (λ e, (Entry.lang_code e ∉ existing_models)
                 ∧ (∃ m, (Entry.lang_code e, m) ∈ CATALOG
                         ∧ e = entry_of w target_dir (Entry.lang_code e) m)) new.
Proof.
  intros HE Hm. destruct b; simpl.
  - split; [done|]. apply Forall_singleton. simpl. eauto.
  - split; [apply sublist_nil_l|done].
Qed.

(** The archive is there: the existence check is the only action. *)
Lemma post_present w es c m :
  c ∉ existing_models → (c, m) ∈ CATALOG →
  post [c] w es (log (FsExists (jar_key target_dir w m)) w) (es ++ [entry_of w target_dir c m]).
Proof.
  intros HE Hm. split; auto.
  - exists [entry_of w target_dir c m]. split; [done|].
    by apply (post_entry_new w c m true).
  - exists [FsExists (jar_key target_dir w m)]. split; [done|]. apply Forall_singleton.
    exists c, m. repeat split; auto. apply list_elem_of_singleton; done.
Qed.

(** The archive is not there: the check, then one transfer, which
    changes at most the destination. *)
Lemma post_absent w es c m (b : bool) :
  c ∉ existing_models → (c, m) ∈ CATALOG →
  fs w !! jar_key target_dir w m = None →
  post [c] w es
    (after_fetch (Model.url m) (jar_path target_dir m) (log (FsExists (jar_key target_dir w m)) w))
    (if b then es ++ [entry_of w target_dir c m] else es).
Proof.
  intros HE Hm Hk. set (w1 := log (FsExists (jar_key target_dir w m)) w).
  assert (c ∈ [c]) as Hin by (apply list_elem_of_singleton; done).
  split.
  - by rewrite after_fetch_cwd.
  - by rewrite after_fetch_net.
  - exists (if b then [entry_of w target_dir c m] else []). split.
    + destruct b; [done|by rewrite app_nil_r].
    + by apply post_entry_new.
  - exists [FsExists (jar_key target_dir w m); NetFetch (Model.url m) (jar_key target_dir w m)].
    rewrite after_fetch_trace. subst w1. simpl. rewrite <- app_assoc.
    split; [done|].
    apply Forall_cons. split; [exists c, m; auto|].
    apply Forall_singleton. exists c, m; auto.
  - intros k. destruct (decide (k = jar_key target_dir w m)) as [->|Hne].
    + destruct (after_fetch_at (Model.url m) (jar_path target_dir m) w1)
        as [H|[ct H]].
      * left. exact H.
      * right. split; [done|]. exists c, m, ct. auto.
    + left. by rewrite after_fetch_other.
Qed.

Lemma process_language_post es c m w :
  LANGUAGE_MODELS !! c = Some m →
  ∃ es' w', process_language existing_models target_dir es c w = (inr es', w')
            ∧ post [c] w es w' es'.
Proof.
  intros Hm. pose proof (language_in_catalog _ _ Hm) as Hcat.
  destruct (decide (c ∈ existing_models)) as [HE|HE].
  { exists es, w. split; [by eapply process_language_skip|apply step_post_refl]. }
  destruct (fs w !! jar_key target_dir w m) as [n|] eqn:Hk.
  - eexists _, _. split.
    + eapply process_language_present; eauto.
    + by apply post_present.
  - eexists _, _. split.
    + by apply process_language_absent.
    + by apply post_absent.
Qed.

Lemma process_languages_post codes : ∀ es w,
  Forall (λ c, Is_true (supported c)) codes →
  ∃ es' w', process_languages existing_models target_dir es codes w = (inr es', w')
            ∧ post codes w es w' es'.
Proof.
  induction codes as [|c codes IH]; intros es w Hsup.
  - exists es, w. split; [done|apply step_post_refl].
  - apply Forall_cons in Hsup as [Hc Hsup].
    apply bool_decide_unpack in Hc as [m Hm].
    destruct (process_language_post es c m w Hm) as (es1 & w1 & Heq1 & Hp1).
    destruct (IH es1 w1 Hsup) as (es2 & w2 & Heq2 & Hp2).
    exists es2, w2. split.
    + simpl. unfold bind. by rewrite Heq1.
    + by apply (step_post_app _ _ [c] codes w es w1 es1).
Qed.

Lemma process_common_skip es w :
  py "common" ∈ existing_models →
  process_common existing_models target_dir es w = (inr es, w).
Proof.
  intros H. unfold process_common. by rewrite bool_decide_eq_true_2 by done.
Qed.

(** Whatever the existence check and the transfer give, the entry is
    appended. *)
Lemma process_common_registers es w :
  py "common" ∉ existing_models →
  ∃ w', process_common existing_models target_dir es w
        = (inr (es ++ [entry_of w target_dir (py "common") COMMON_MODELS]), w')
        ∧ post [py "common"] w es w'
            (es ++ [entry_of w target_dir (py "common") COMMON_MODELS])
        ∧ (fs w !! jar_key target_dir w COMMON_MODELS = None →
           w' = after_fetch (Model.url COMMON_MODELS)
                  (jar_path target_dir COMMON_MODELS)
                  (log (FsExists (jar_key target_dir w COMMON_MODELS)) w)).
Proof.
  intros HE. unfold process_common. rewrite bool_decide_eq_false_2 by done.
  unfold bind, path_exists. fold (jar_path target_dir COMMON_MODELS).
  fold (jar_key target_dir w COMMON_MODELS).
  rewrite (node_at_jar_key _ _ _ _ _ common_in_catalog).
  destruct (fs w !! jar_key target_dir w COMMON_MODELS) as [n|] eqn:Hk.
  - rewrite bool_decide_eq_true_2 by eauto. cbv beta iota zeta.
    unfold ret, path_absolute.
    eexists. split; [reflexivity|]. split; [|done].
    apply post_present; auto using common_in_catalog.
  - rewrite bool_decide_eq_false_2 by (by intros [??]).
    unfold download_model. rewrite urlretrieve_eq. cbv beta iota zeta.
    unfold path_absolute, ret.
    eexists. split; [|split; [|reflexivity]].
    + unfold entry_of. by rewrite after_fetch_cwd.
    + apply (post_absent w es _ _ true); auto using common_in_catalog.
Qed.

End OrchestratorSteps.

(** ** Distinct identifiers have distinct archives *)

Lemma catalog_id_inj c m1 m2 :
  (c, m1) ∈ CATALOG → (c, m2) ∈ CATALOG → m1 = m2.
Proof.
  intros H1 H2.
  assert ((c, m1) = (c, m2)) as Heq; [|congruence].
  apply (NoDup_fmap_eq fst CATALOG); auto using CATALOG_ids.
Qed.

Lemma catalog_url_inj c1 m1 c2 m2 :
  (c1, m1) ∈ CATALOG → (c2, m2) ∈ CATALOG → Model.url m1 = Model.url m2 →
  c1 = c2.
Proof.
  intros H1 H2 Hu.
  assert ((c1, m1) = (c2, m2)) as Heq; [|congruence].
  apply (NoDup_fmap_eq (λ im, Model.url (snd im)) CATALOG); auto using CATALOG_urls.
Qed.

Lemma jar_key_inj T w c1 m1 c2 m2 :
  (c1, m1) ∈ CATALOG → (c2, m2) ∈ CATALOG →
  jar_key T w m1 = jar_key T w m2 → c1 = c2.
Proof.
  intros H1 H2 Hk.
  assert (Model.jar_name m1 = Model.jar_name m2) as Hj.
  { unfold jar_key, fs_key in Hk.
    rewrite (jar_path_plain T c1 m1 H1), (jar_path_plain T c2 m2 H2) in Hk.
    unfold absolute, is_absolute in Hk. simpl in Hk.
    destruct (negb (bool_decide (root T = []))).
    - injection Hk as Hk. by apply app_inv_head, (inj (λ x, [x])) in Hk.
    - injection Hk as Hk. rewrite !app_assoc in Hk.
      by apply app_inv_head, (inj (λ x, [x])) in Hk. }
  assert ((c1, m1) = (c2, m2)) as Heq; [|congruence].
  apply (NoDup_fmap_eq (λ im, Model.jar_name (snd im)) CATALOG);
    auto using CATALOG_jars.
Qed.

Lemma jar_key_cwd T w w' m : cwd w' = cwd w → jar_key T w' m = jar_key T w m.
Proof. intros H. unfold jar_key, fs_key. by rewrite H. Qed.

Lemma entry_of_cwd T w w' c m :
  cwd w' = cwd w → entry_of w' T c m = entry_of w T c m.
Proof. intros H. unfold entry_of. by rewrite H. Qed.

(** ** What a frame gives *)

Section Frame.
Variable existing_models : gset str.
Variable target_dir : Path.
Abbreviation post := (step_post existing_models target_dir).

(** Files are never removed. *)
Lemma post_mono ids w es w' es' k :
  post ids w es w' es' → is_Some (fs w !! k) → is_Some (fs w' !! k).
Proof.
  intros Hp Hk. destruct (post_fs _ _ _ _ _ _ _ Hp k) as [->|[Hn _]]; [done|].
  rewrite Hn in Hk. by destruct Hk.
Qed.

(** The archive of an identifier that is not processed is not touched. *)
Lemma post_untouched ids w es w' es' c m :
  post ids w es w' es' → (c, m) ∈ CATALOG → c ∉ ids →
  fs w' !! jar_key target_dir w m = fs w !! jar_key target_dir w m.
Proof.
  intros Hp Hm Hc.
  destruct (post_fs _ _ _ _ _ _ _ Hp (jar_key target_dir w m))
    as [->|(_ & c' & m' & ct & Hc' & _ & Hm' & Hk & _)]; [done|].
  exfalso. apply Hc. by rewrite (jar_key_inj _ _ _ _ _ _ Hm Hm' Hk).
Qed.

(** No entry appears for an identifier that is not processed. *)
Lemma post_filter ids w es w' es' c :
  post ids w es w' es' → c ∉ ids →
  filter (for_code c) es' = filter (for_code c) es.
Proof.
  intros Hp Hc. destruct (post_entries _ _ _ _ _ _ _ Hp) as (new & -> & Hs & _).
  rewrite filter_app.
  assert (filter (for_code c) new = []) as ->; [|by rewrite app_nil_r].
  apply sublist_subseteq in Hs. clear Hp. revert Hs.
  induction new as [|e new IH]; intros Hs; [done|].
  rewrite fmap_cons in Hs. rewrite filter_cons.
  destruct (decide (for_code c e)) as [He|He].
  - exfalso. apply Hc. rewrite <- He. apply Hs, elem_of_cons. by left.
  - apply IH. unfold subseteq, list_subseteq. intros x Hx.
    apply Hs, elem_of_cons. by right.
Qed.

(** Every entry belongs to a processed identifier outside the existing
    set. *)
Lemma post_new_entry ids w w' es' e :
  post ids w [] w' es' → e ∈ es' →
  Entry.lang_code e ∈ ids ∧ Entry.lang_code e ∉ existing_models
  ∧ ∃ m, (Entry.lang_code e, m) ∈ CATALOG
         ∧ e = entry_of w target_dir (Entry.lang_code e) m.
Proof.
  intros Hp He. destruct (post_entries _ _ _ _ _ _ _ Hp) as (new & -> & Hs & Hf).
  simpl in He. rewrite Forall_forall in Hf. destruct (Hf e He) as [HE Hm].
  split; [|done]. apply sublist_subseteq in Hs. apply Hs.
  by apply list_elem_of_fmap_2.
Qed.

(** Every transfer is for a processed identifier outside the existing
    set. *)
Lemma post_fetch ids w es w' es' :
  post ids w es w' es' →
  ∃ evs, trace w' = trace w ++ evs
    ∧ ∀ url dest, NetFetch url dest ∈ evs →
        ∃ c m, c ∈ ids ∧ c ∉ existing_models ∧ (c, m) ∈ CATALOG
               ∧ url = Model.url m ∧ dest = jar_key target_dir w m.
Proof.
  intros Hp. destruct (post_trace _ _ _ _ _ _ _ Hp) as (evs & Ht & Hf).
  exists evs. split; [done|]. intros url dest Hin.
  rewrite Forall_forall in Hf.
  destruct (Hf _ Hin) as (c & m & Hc & HE & Hm & [H|H]); [done|].
  injection H as -> ->. eauto 10.
Qed.

End Frame.

(** ** Parsed arguments *)

Lemma parse_args_inr argv args :
  parse_args argv = inr args →
  Forall (λ c, Is_true (supported c)) (opt_language argv)
  ∧ requested args = opt_language argv
  ∧ common_models args = opt_common_models argv
  ∧ opt_target_directory argv = Some (target_directory args)
  ∧ opt_output argv = Some (output args)
  ∧ data_table args = opt_data_table argv.
Proof.
  unfold parse_args.
  destruct (filter _ (opt_language argv)) as [|bad l] eqn:Hf; [|done].
  destruct (opt_target_directory argv) as [t|]; [|done].
  destruct (opt_output argv) as [o|]; [|done].
  intros [= <-]. simpl. repeat split; auto.
  - apply Forall_forall. intros c Hc.
    destruct (supported c) eqn:Hs; [done|]. exfalso.
    assert (c ∈ filter (λ c, ¬ Is_true (supported c)) (opt_language argv)) as Hin.
    { apply list_elem_of_filter. split; [|done]. rewrite Hs. by intros []. }
    rewrite Hf in Hin. by apply elem_of_nil in Hin.
  - unfold requested. simpl. by destruct (opt_language argv).
Qed.

Lemma supported_lookup c : Is_true (supported c) → ∃ m, LANGUAGE_MODELS !! c = Some m.
Proof. intros H. by apply bool_decide_unpack in H. Qed.

Lemma common_not_requested args :
  Forall (λ c, Is_true (supported c)) (requested args) → py "common" ∉ requested args.
Proof.
  intros Hs Hin. rewrite Forall_forall in Hs.
  destruct (supported_lookup _ (Hs _ Hin)) as [m Hm].
  by rewrite common_not_language in Hm.
Qed.

(** ** The orchestrator as a whole *)

Section Orchestrate.
Variable existing_models : gset str.
Variable target_dir : Path.
Abbreviation post := (step_post existing_models target_dir).

Lemma orchestrate_requested args w :
  orchestrate args existing_models target_dir w
  = bind (if common_models args
          then process_common existing_models target_dir [] else ret [])
      (λ entries, process_languages existing_models target_dir entries
                    (requested args)) w.
Proof.
  unfold orchestrate, requested. by destruct (language args) as [[|c l]|].
Qed.

Lemma common_part args w :
  ∃ w0, (if common_models args
         then process_common existing_models target_dir [] else ret []) w
        = (inr (common_entries args existing_models target_dir w), w0)
        ∧ post (common_ids args) w [] w0
            (common_entries args existing_models target_dir w)
        ∧ (common_models args = true → py "common" ∉ existing_models →
           fs w !! jar_key target_dir w COMMON_MODELS = None →
           w0 = after_fetch (Model.url COMMON_MODELS)
                  (jar_path target_dir COMMON_MODELS)
                  (log (FsExists (jar_key target_dir w COMMON_MODELS)) w)).
Proof.
  unfold common_entries, common_ids. destruct (common_models args); simpl.
  - destruct (decide (py "common" ∈ existing_models)) as [HE|HE].
    + rewrite bool_decide_eq_false_2 by auto.
      exists w. split; [by apply process_common_skip|].
      split; [apply step_post_refl|done].
    + rewrite bool_decide_eq_true_2 by auto.
      destruct (process_common_registers existing_models target_dir [] w HE)
        as (w0 & Heq & Hp & Hw).
      exists w0. split; [done|]. split; [done|]. intros _ _. exact Hw.
  - exists w. split; [done|]. split; [apply step_post_refl|done].
Qed.

Lemma orchestrate_post args w :
  Forall (λ c, Is_true (supported c)) (requested args) →
  ∃ w0 es w',
    post (common_ids args) w [] w0 (common_entries args existing_models target_dir w)
    ∧ process_languages existing_models target_dir
        (common_entries args existing_models target_dir w) (requested args) w0
      = (inr es, w')
    ∧ orchestrate args existing_models target_dir w = (inr es, w')
    ∧ post (requested args) w0
        (common_entries args existing_models target_dir w) w' es
    ∧ post (identifiers args) w [] w' es
    ∧ (common_models args = true → py "common" ∉ existing_models →
       fs w !! jar_key target_dir w COMMON_MODELS = None →
       w0 = after_fetch (Model.url COMMON_MODELS)
              (jar_path target_dir COMMON_MODELS)
              (log (FsExists (jar_key target_dir w COMMON_MODELS)) w)).
Proof.
  intros Hs. destruct (common_part args w) as (w0 & Heq0 & Hp0 & Hw0).
  destruct (process_languages_post existing_models target_dir (requested args)
              (common_entries args existing_models target_dir w) w0 Hs)
    as (es & w' & Heq & Hp).
  exists w0, es, w'. split; [done|]. split; [done|].
  split; [|split; [done|split; [|done]]].
  - rewrite orchestrate_requested. unfold bind. by rewrite Heq0.
  - by apply (step_post_app _ _ _ _ _ _ _ _ _ _ Hp0 Hp).
Qed.

End Orchestrate.

(** ** Counting the entries of one code *)

Lemma occurrences_cons c d codes :
  occurrences c (d :: codes)
  = if decide (d = c) then S (occurrences c codes) else occurrences c codes.
Proof. unfold occurrences. rewrite filter_cons. by destruct (decide (d = c)). Qed.

Lemma occurrences_app c l1 l2 :
  occurrences c (l1 ++ l2) = (occurrences c l1 + occurrences c l2)%nat.
Proof. unfold occurrences. by rewrite filter_app, length_app. Qed.

Lemma occurrences_0 c codes : c ∉ codes → occurrences c codes = 0%nat.
Proof.
  induction codes as [|d codes IH]; intros Hc; [done|].
  apply not_elem_of_cons in Hc as [Hd Hc]. rewrite occurrences_cons.
  destruct (decide (d = c)); [congruence|auto].
Qed.

Lemma after_fetch_nothing url dest w :
  net w (fetches w) url = FetchError None → fs (after_fetch url dest w) = fs w.
Proof. intros H. unfold after_fetch, urlretrieve. by rewrite H. Qed.

Lemma fetch_succeeds_ok w url : fetch_succeeds w url → fetch_ok w url = true.
Proof. intros H. unfold fetch_ok. by destruct (H (fetches w)) as [c ->]. Qed.

Lemma fetch_fails_ok w url : fetch_fails w url → fetch_ok w url = false.
Proof. intros H. unfold fetch_ok. by destruct (H (fetches w)) as [c ->]. Qed.

Lemma fetch_succeeds_net w w' url :
  net w' = net w → fetch_succeeds w url → fetch_succeeds w' url.
Proof. intros Hn H n. rewrite Hn. apply H. Qed.

Lemma fetch_fails_net w w' url :
  net w' = net w → fetch_fails w url → fetch_fails w' url.
Proof. intros Hn H n. rewrite Hn. apply H. Qed.

Section Counting.
Variable existing_models : gset str.
Variable target_dir : Path.
Abbreviation post := (step_post existing_models target_dir).

Lemma process_languages_app l1 l2 es w :
  process_languages existing_models target_dir es (l1 ++ l2) w
  = bind (process_languages existing_models target_dir es l1)
      (λ es1, process_languages existing_models target_dir es1 l2) w.
Proof.
  revert es w. induction l1 as [|c l1 IH]; intros es w.
  { done. }
  simpl. unfold bind.
  destruct (process_language existing_models target_dir es c w) as [[e|es1] w1];
    [done|]. by rewrite IH.
Qed.

(** A code outside the existing set whose archive is on disk, or whose
    transfers succeed, is registered once per occurrence; when the
    archive is on disk from the start, no transfer is made for it. *)
Lemma count_registered c m codes : ∀ es w,
  Forall (λ c, Is_true (supported c)) codes →
  LANGUAGE_MODELS !! c = Some m → c ∉ existing_models →
  is_Some (fs w !! jar_key target_dir w m) ∨ fetch_succeeds w (Model.url m) →
  ∃ es' w' evs,
    process_languages existing_models target_dir es codes w = (inr es', w')
    ∧ filter (for_code c) es'
      = filter (for_code c) es
        ++ replicate (occurrences c codes) (entry_of w target_dir c m)
    ∧ trace w' = trace w ++ evs
    ∧ (is_Some (fs w !! jar_key target_dir w m) →
       ∀ url dest, NetFetch url dest ∈ evs →
         url ≠ Model.url m ∧ dest ≠ jar_key target_dir w m).
Proof.
  induction codes as [|d codes IH]; intros es w Hsup Hm HE Hav.
  { exists es, w, []. rewrite !app_nil_r.
    split; [done|]. split; [done|]. split; [done|].
    intros _ url dest Hin. by apply elem_of_nil in Hin. }
  apply Forall_cons in Hsup as [Hd Hsup]. rewrite occurrences_cons.
  pose proof (language_in_catalog _ _ Hm) as Hcm.
  destruct (decide (d = c)) as [->|Hdc].
  - destruct (fs w !! jar_key target_dir w m) as [node|] eqn:Hk.
    + (* on disk *)
      set (w1 := log (FsExists (jar_key target_dir w m)) w).
      destruct (IH (es ++ [entry_of w target_dir c m]) w1 Hsup Hm HE)
        as (es' & w' & evs & Heq & Hfil & Htr & Hno).
      { left. change (is_Some (fs w !! jar_key target_dir w m)). rewrite Hk. eauto. }
      exists es', w', (FsExists (jar_key target_dir w m) :: evs).
      split; [|split; [|split]].
      * simpl. unfold bind.
        rewrite (process_language_present _ _ es c m w HE Hm) by (rewrite Hk; eauto).
        exact Heq.
      * rewrite Hfil, filter_app, <- app_assoc. f_equal.
        rewrite filter_cons, decide_True by done. done.
      * rewrite Htr. subst w1. simpl. by rewrite <- app_assoc.
      * intros _ url dest Hin. apply elem_of_cons in Hin as [Hin|Hin]; [done|].
        apply Hno; [|done]. change (is_Some (fs w !! jar_key target_dir w m)).
        rewrite Hk. eauto.
    + (* fetched now *)
      destruct Hav as [[? Hav]|Hav]; [congruence|].
      set (w1 := after_fetch (Model.url m) (jar_path target_dir m)
                   (log (FsExists (jar_key target_dir w m)) w)).
      assert (cwd w1 = cwd w) as Hcwd by (subst w1; by rewrite after_fetch_cwd).
      assert (net w1 = net w) as Hnet by (subst w1; by rewrite after_fetch_net).
      destruct (IH (es ++ [entry_of w target_dir c m]) w1 Hsup Hm HE)
        as (es' & w' & evs & Heq & Hfil & Htr & Hno).
      { left. rewrite (jar_key_cwd _ _ _ _ Hcwd). subst w1.
        apply (after_fetch_ok (Model.url m) (jar_path target_dir m)
                 (log (FsExists (jar_key target_dir w m)) w)).
        by apply fetch_succeeds_ok. }
      exists es', w',
        (FsExists (jar_key target_dir w m) :: NetFetch (Model.url m) (jar_key target_dir w m) :: evs).
      split; [|split; [|split]].
      * simpl. unfold bind.
        rewrite (process_language_absent _ _ es c m w HE Hm Hk).
        rewrite fetch_succeeds_ok by done. exact Heq.
      * rewrite Hfil, filter_app, <- app_assoc, (entry_of_cwd _ _ _ _ _ Hcwd).
        f_equal. rewrite filter_cons, decide_True by done. done.
      * rewrite Htr. subst w1. rewrite after_fetch_trace. simpl.
        by rewrite <- !app_assoc.
      * intros [? Hc]. congruence.
  - destruct (supported_lookup _ Hd) as [md Hmd].
    destruct (process_language_post existing_models target_dir es d md w Hmd)
      as (es1 & w1 & Heq1 & Hp1).
    pose proof (post_cwd _ _ _ _ _ _ _ Hp1) as Hcwd.
    pose proof (post_net _ _ _ _ _ _ _ Hp1) as Hnet.
    assert (c ∉ [d]) as Hcd.
    { intros Hin. apply list_elem_of_singleton in Hin. congruence. }
    destruct (IH es1 w1 Hsup Hm HE) as (es' & w' & evs & Heq & Hfil & Htr & Hno).
    { rewrite (jar_key_cwd _ _ _ _ Hcwd). destruct Hav as [Hav|Hav].
      - left. by eapply post_mono.
      - right. by eapply fetch_succeeds_net. }
    destruct (post_fetch _ _ _ _ _ _ _ Hp1) as (evs1 & Htr1 & Hev1).
    exists es', w', (evs1 ++ evs). split; [|split; [|split]].
    + simpl. unfold bind. by rewrite Heq1.
    + rewrite Hfil, (post_filter _ _ _ _ _ _ _ _ Hp1 Hcd).
      by rewrite (entry_of_cwd _ _ _ _ _ Hcwd).
    + by rewrite Htr, Htr1, app_assoc.
    + intros Hk url dest Hin. apply elem_of_app in Hin as [Hin|Hin].
      * destruct (Hev1 _ _ Hin) as (c' & m' & Hc' & _ & Hm' & -> & ->).
        apply list_elem_of_singleton in Hc'. subst c'.
        split; intros Heq'; apply Hdc.
        -- by apply (catalog_url_inj d m' c m).
        -- by apply (jar_key_inj target_dir w d m' c m).
      * rewrite <- (jar_key_cwd _ _ _ _ Hcwd). apply Hno; [|done].
        rewrite (jar_key_cwd _ _ _ _ Hcwd). by eapply post_mono.
Qed.

(** A code whose archive is missing and whose transfers fail without
    leaving a file is never registered, however often it is
    requested. *)
Lemma never_registered c m codes : ∀ es w,
  Forall (λ c, Is_true (supported c)) codes →
  LANGUAGE_MODELS !! c = Some m →
  fs w !! jar_key target_dir w m = None →
  (∀ n, net w n (Model.url m) = FetchError None) →
  ∃ es' w',
    process_languages existing_models target_dir es codes w = (inr es', w')
    ∧ filter (for_code c) es' = filter (for_code c) es.
Proof.
  induction codes as [|d codes IH]; intros es w Hsup Hm Hk Hnet.
  { by exists es, w. }
  apply Forall_cons in Hsup as [Hd Hsup].
  pose proof (language_in_catalog _ _ Hm) as Hcm.
  destruct (supported_lookup _ Hd) as [md Hmd].
  destruct (process_language_post existing_models target_dir es d md w Hmd)
    as (es1 & w1 & Heq1 & Hp1).
  pose proof (post_cwd _ _ _ _ _ _ _ Hp1) as Hcwd.
  pose proof (post_net _ _ _ _ _ _ _ Hp1) as Hn1.
  assert (filter (for_code c) es1 = filter (for_code c) es
          ∧ fs w1 !! jar_key target_dir w m = None) as [Hfil Hk1].
  { destruct (decide (d = c)) as [->|Hdc].
    - assert (md = m) as -> by congruence.
      destruct (decide (c ∈ existing_models)) as [HE|HE].
      + rewrite (process_language_skip _ _ es c m w HE Hm) in Heq1.
        by injection Heq1 as <- <-.
      + rewrite (process_language_absent _ _ es c m w HE Hm Hk) in Heq1.
        unfold fetch_ok in Heq1. rewrite Hnet in Heq1.
        injection Heq1 as <- <-. split; [done|].
        rewrite after_fetch_nothing; [done|]. apply Hnet.
    - assert (c ∉ [d]) as Hcd.
      { intros Hin. apply list_elem_of_singleton in Hin. congruence. }
      split; [by eapply post_filter|].
      by rewrite (post_untouched _ _ _ _ _ _ _ _ _ Hp1 Hcm Hcd). }
  destruct (IH es1 w1 Hsup Hm) as (es' & w' & Heq & Hfil').
  { by rewrite (jar_key_cwd _ _ _ _ Hcwd). }
  { intros n. by rewrite Hn1. }
  exists es', w'. split.
  - simpl. unfold bind. by rewrite Heq1.
  - congruence.
Qed.

End Counting.

(** ** The claims about the orchestrator *)


(** C3.  For an identifier of the existing set, the orchestrator appends
    no entry for it and makes no transfer of its archive. *)
Theorem existing_identifier_is_skipped argv args E T w id :
  parse_args argv = inr args →
  id ∈ E →
  ∃ es w' evs,
    orchestrate args E T w = (inr es, w')
    ∧ trace w' = trace w ++ evs
    ∧ (∀ e, e ∈ es → Entry.lang_code e ≠ id ∧ Entry.value e ≠ id)
    ∧ (∀ m url dest, (id, m) ∈ CATALOG → NetFetch url dest ∈ evs →
         url ≠ Model.url m ∧ dest ≠ jar_key T w m).
Proof.
  intros Hparse Hid.
  destruct (parse_args_inr _ _ Hparse) as (Hsup & Hreq & _).
  rewrite <- Hreq in Hsup.
  destruct (orchestrate_post E T args w Hsup)
    as (w0 & es & w' & _ & _ & Heq & _ & Hp & _).
  destruct (post_fetch _ _ _ _ _ _ _ Hp) as (evs & Htr & Hev).
  exists es, w', evs. split; [done|]. split; [done|]. split.
  - intros e He.
    destruct (post_new_entry _ _ _ _ _ _ _ Hp He) as (_ & HE & m & _ & Hm).
    assert (Entry.value e = Entry.lang_code e) as -> by (by rewrite Hm).
    split; intros Hc; by rewrite Hc in HE.
  - intros m url dest Hm Hin.
    destruct (Hev _ _ Hin) as (c & m' & _ & HE & Hm' & -> & ->).
    split; intros Heq'; apply HE.
    + by rewrite (catalog_url_inj c m' id m).
    + by rewrite (jar_key_inj T w c m' id m).
Qed.

(** C10.  Requests are deduplicated against the existing set only: a
    supported code outside it whose archive is on disk, or whose transfers
    succeed, gets one entry per occurrence in the request. *)
Theorem repeated_code_registered_per_occurrence argv args E T w c m :
  parse_args argv = inr args →
  LANGUAGE_MODELS !! c = Some m →
  c ∉ E →
  is_Some (fs w !! jar_key T w m) ∨ fetch_succeeds w (Model.url m) →
  ∃ es w',
    orchestrate args E T w = (inr es, w')
    ∧ filter (for_code c) es
      = replicate (occurrences c (opt_language argv)) (entry_of w T c m).
Proof.
  intros Hparse Hm HE Hav.
  destruct (parse_args_inr _ _ Hparse) as (Hsup & Hreq & _).
  rewrite <- Hreq in *.
  destruct (orchestrate_post E T args w Hsup)
    as (w0 & es & w' & Hp0 & Heq0 & Heq & _ & _ & _).
  pose proof (post_cwd _ _ _ _ _ _ _ Hp0) as Hcwd.
  pose proof (language_in_catalog _ _ Hm) as Hcm.
  assert (c ∉ common_ids args) as Hcc.
  { unfold common_ids. destruct (common_models args); [|apply not_elem_of_nil].
    intros Hin. apply list_elem_of_singleton in Hin. subst c.
    by rewrite common_not_language in Hm. }
  destruct (count_registered E T c m (requested args)
              (common_entries args E T w) w0 Hsup Hm HE)
    as (es' & w'' & evs & Heq' & Hfil & _).
  { rewrite (jar_key_cwd _ _ _ _ Hcwd). destruct Hav as [Hav|Hav].
    - left. by eapply post_mono.
    - right. eapply fetch_succeeds_net; [|done]. by eapply post_net. }
  rewrite Heq0 in Heq'. injection Heq' as <- <-.
  exists es, w'. split; [done|].
  rewrite Hfil, (post_filter _ _ _ _ _ _ _ _ Hp0 Hcc).
  by rewrite (entry_of_cwd _ _ _ _ _ Hcwd).
Qed.

Lemma filter_for_code_nil c (es : list Entry.t) :
  filter (for_code c) es = [] → ∀ e, e ∈ es → Entry.lang_code e ≠ c.
Proof.
  intros Hf e He Hc.
  assert (e ∈ filter (for_code c) es) as Hin by (by apply list_elem_of_filter).
  rewrite Hf in Hin. by apply elem_of_nil in Hin.
Qed.

Lemma not_common_id args c m :
  LANGUAGE_MODELS !! c = Some m → c ∉ common_ids args.
Proof.
  intros Hm. unfold common_ids. destruct (common_models args); [|apply not_elem_of_nil].
  intros Hin. apply list_elem_of_singleton in Hin. subst c.
  by rewrite common_not_language in Hm.
Qed.

(** C4, as amended.  For a code outside the existing set whose archive is
    on disk, no transfer is made, and it gets one entry per occurrence in
    the request (exactly one when it is requested once), each with the
    absolute path of that file as [models_path]. *)
Theorem archive_on_disk_registered_without_fetch argv args E T w c m :
  parse_args argv = inr args →
  LANGUAGE_MODELS !! c = Some m →
  c ∉ E →
  is_Some (fs w !! jar_key T w m) →
  ∃ es w' evs,
    orchestrate args E T w = (inr es, w')
    ∧ trace w' = trace w ++ evs
    ∧ (∀ url dest, NetFetch url dest ∈ evs →
         url ≠ Model.url m ∧ dest ≠ jar_key T w m)
    ∧ filter (for_code c) es
      = replicate (occurrences c (opt_language argv)) (entry_of w T c m)
    ∧ (∀ e, e ∈ es → Entry.lang_code e = c →
         Entry.models_path e = path_str (jar_key T w m)).
Proof.
  intros Hparse Hm HE Hk.
  destruct (parse_args_inr _ _ Hparse) as (Hsup & Hreq & _).
  rewrite <- Hreq in *.
  destruct (orchestrate_post E T args w Hsup)
    as (w0 & es & w' & Hp0 & Heq0 & Heq & _ & _ & _).
  pose proof (post_cwd _ _ _ _ _ _ _ Hp0) as Hcwd.
  pose proof (language_in_catalog _ _ Hm) as Hcm.
  pose proof (not_common_id args c m Hm) as Hcc.
  assert (is_Some (fs w0 !! jar_key T w0 m)) as Hk0.
  { rewrite (jar_key_cwd _ _ _ _ Hcwd). by eapply post_mono. }
  destruct (count_registered E T c m (requested args)
              (common_entries args E T w) w0 Hsup Hm HE (or_introl Hk0))
    as (es' & w'' & evs & Heq' & Hfil & Htr & Hno).
  rewrite Heq0 in Heq'. injection Heq' as <- <-.
  destruct (post_fetch _ _ _ _ _ _ _ Hp0) as (evs0 & Htr0 & Hev0).
  assert (filter (for_code c) es
          = replicate (occurrences c (requested args)) (entry_of w T c m)) as Hcount.
  { rewrite Hfil, (post_filter _ _ _ _ _ _ _ _ Hp0 Hcc).
    by rewrite (entry_of_cwd _ _ _ _ _ Hcwd). }
  exists es, w', (evs0 ++ evs). split; [done|]. split; [|split; [|split]].
  - by rewrite Htr, Htr0, app_assoc.
  - intros url dest Hin. apply elem_of_app in Hin as [Hin|Hin].
    + destruct (Hev0 _ _ Hin) as (c' & m' & Hc' & _ & Hm' & -> & ->).
      split; intros Heq'; apply Hcc.
      * by rewrite <- (catalog_url_inj c' m' c m).
      * by rewrite <- (jar_key_inj T w c' m' c m).
    + rewrite <- (jar_key_cwd _ _ _ _ Hcwd). by apply Hno.
  - done.
  - intros e He Hc.
    assert (e ∈ filter (for_code c) es) as Hin by (by apply list_elem_of_filter).
    rewrite Hcount in Hin. apply elem_of_replicate in Hin as [-> _]. done.
Qed.

(** C2, as amended.  When the first occurrence of a code outside the
    existing set finds no archive on disk and every transfer of it fails,
    that occurrence leaves the entries as they were and the loop goes on
    with the codes that follow, to its normal end; the manifest has no
    entry for the code provided it is not requested again or failed
    transfers leave no file behind. *)
Theorem failed_fetch_skips_the_code argv args E T w l1 c l2 m :
  parse_args argv = inr args →
  opt_language argv = l1 ++ c :: l2 →
  c ∉ l1 →
  LANGUAGE_MODELS !! c = Some m →
  c ∉ E →
  fs w !! jar_key T w m = None →
  fetch_fails w (Model.url m) →
  ∃ es1 w1 es w',
    orchestrate (with_language args l1) E T w = (inr es1, w1)
    ∧ (let w2 := log (FsExists (jar_key T w m)) w1 in
       process_language E T es1 c w1
       = (inr es1, after_fetch (Model.url m) (jar_path T m) w2)
       ∧ orchestrate args E T w
         = process_languages E T es1 l2
             (after_fetch (Model.url m) (jar_path T m) w2))
    ∧ orchestrate args E T w = (inr es, w')
    ∧ (c ∉ l2 ∨ (∀ n, net w n (Model.url m) = FetchError None) →
       ∀ e, e ∈ es → Entry.lang_code e ≠ c).
Proof.
  intros Hparse Hsplit Hl1 Hm HE Hk Hfail.
  destruct (parse_args_inr _ _ Hparse) as (Hsup & Hreq & _).
  rewrite Hsplit in Hsup. apply Forall_app in Hsup as [Hsup1 Hsup2].
  apply Forall_cons in Hsup2 as [_ Hsup2].
  pose proof (language_in_catalog _ _ Hm) as Hcm.
  pose proof (not_common_id args c m Hm) as Hcc.
  destruct (common_part E T args w) as (w0 & Heq0 & Hp0 & _).
  set (es0 := common_entries args E T w) in *.
  destruct (process_languages_post E T l1 es0 w0 Hsup1) as (es1 & w1 & Heq1 & Hp1).
  pose proof (post_cwd _ _ _ _ _ _ _ Hp0) as Hcwd0.
  pose proof (post_cwd _ _ _ _ _ _ _ Hp1) as Hcwd1.
  pose proof (post_net _ _ _ _ _ _ _ Hp0) as Hnet0.
  pose proof (post_net _ _ _ _ _ _ _ Hp1) as Hnet1.
  assert (jar_key T w1 m = jar_key T w m) as Hkey.
  { by rewrite (jar_key_cwd _ _ _ _ Hcwd1), (jar_key_cwd _ _ _ _ Hcwd0). }
  assert (fs w1 !! jar_key T w1 m = None) as Hk1.
  { rewrite (jar_key_cwd _ _ _ _ Hcwd1).
    rewrite (post_untouched _ _ _ _ _ _ _ _ _ Hp1 Hcm Hl1).
    rewrite (jar_key_cwd _ _ _ _ Hcwd0).
    by rewrite (post_untouched _ _ _ _ _ _ _ _ _ Hp0 Hcm Hcc). }
  assert (fetch_fails w1 (Model.url m)) as Hfail1.
  { eapply fetch_fails_net; [|done]. congruence. }
  set (w2 := after_fetch (Model.url m) (jar_path T m)
               (log (FsExists (jar_key T w m)) w1)).
  assert (orchestrate args E T w = process_languages E T es1 l2 w2) as Hloop.
  { rewrite orchestrate_requested, Hreq, Hsplit. unfold bind at 1. rewrite Heq0.
    rewrite process_languages_app. unfold bind at 1. rewrite Heq1.
    simpl. unfold bind at 1.
    rewrite (process_language_absent _ _ es1 c m w1 HE Hm Hk1).
    rewrite (fetch_fails_ok _ _ Hfail1). subst w2. by rewrite Hkey. }
  assert (filter (for_code c) es1 = []) as Hnone1.
  { rewrite (post_filter _ _ _ _ _ _ _ _ Hp1 Hl1).
    by rewrite (post_filter _ _ _ _ _ _ _ _ Hp0 Hcc). }
  assert (process_language E T es1 c w1 = (inr es1, w2)) as Hstep.
  { rewrite (process_language_absent _ _ es1 c m w1 HE Hm Hk1).
    rewrite (fetch_fails_ok _ _ Hfail1). subst w2. by rewrite Hkey. }
  destruct (process_languages_post E T l2 es1 w2 Hsup2) as (es & w' & Heq2 & Hp2).
  assert (c ∉ l2 ∨ (∀ n, net w n (Model.url m) = FetchError None) →
          filter (for_code c) es = []) as Hnone.
  { intros [Hl2|Hl2].
    - by rewrite (post_filter _ _ _ _ _ _ _ _ Hp2 Hl2).
    - assert (cwd w2 = cwd w1) as Hcwd2 by (subst w2; by rewrite after_fetch_cwd).
      assert (net w2 = net w) as Hnet2.
      { subst w2. rewrite after_fetch_net. simpl. congruence. }
      destruct (never_registered E T c m l2 es1 w2 Hsup2 Hm)
        as (es' & w'' & Heq2' & Hfil).
      + rewrite (jar_key_cwd _ _ _ _ Hcwd2). subst w2.
        rewrite after_fetch_nothing; [exact Hk1|].
        simpl. rewrite Hnet1, Hnet0. apply Hl2.
      + intros n. rewrite Hnet2. apply Hl2.
      + congruence. }
  exists es1, w1, es, w'. split; [|split; [|split]].
  - rewrite orchestrate_requested. unfold bind at 1.
    change (common_models (with_language args l1)) with (common_models args).
    rewrite Heq0. exact Heq1.
  - cbv zeta. fold w2. split; [exact Hstep|exact Hloop].
  - congruence.
  - intros Hl2. by apply filter_for_code_nil, Hnone.
Qed.

Lemma ENGLISH_lookup : LANGUAGE_MODELS !! py "en" = Some ENGLISH.
Proof. by vm_compute. Qed.

Lemma FRENCH_lookup : LANGUAGE_MODELS !! py "fr" = Some FRENCH.
Proof. by vm_compute. Qed.



(** ** Usage errors *)

Section Loader.
Variables (p : str) (w : World).
Hypothesis Hp : p ≠ [].
Let k := fs_key w (parse_path p).

Lemma load_missing :
  node_at (fs w) k = None →
  load_existing_models (Some p) w = (inr ∅, log (FsExists k) w).
Proof.
  intros Hk. unfold load_existing_models, bind, path_exists.
  rewrite bool_decide_eq_false_2 by done. fold k.
  rewrite bool_decide_eq_false_2; [done|]. rewrite Hk. by intros [??].
Qed.

(** What the loader does with what it finds at the path. *)
Lemma load_found n :
  node_at (fs w) k = Some n →
  load_existing_models (Some p) w
  = let w' := log (FsOpenRead k) (log (FsExists k) w) in
    match n, tail p with
    | Dir, _ => (inl (Uncaught (IsADirectoryError k)), w')
    | File c, Plain =>
        (inr (foldl add_line ∅ (iter_lines (universal_newlines c))), w')
    | Binary, Plain => (inl (Uncaught (UnicodeDecodeError k)), w')
    | _, _ => (inl (Uncaught (NotADirectoryError k)), w')
    end.
Proof.
  intros Hk. unfold load_existing_models, bind, path_exists.
  rewrite bool_decide_eq_false_2 by done. fold k.
  rewrite bool_decide_eq_true_2 by (rewrite Hk; eauto).
  unfold read_text. rewrite bool_decide_eq_false_2 by done.
  change (fs_key (log (FsExists k) w) (parse_path p)) with k.
  change (fs (log (FsExists k) w)) with (fs w). rewrite Hk.
  by destruct n, (tail p).
Qed.

Lemma load_file content :
  node_at (fs w) k = Some (File content) →
  tail p = Plain →
  load_existing_models (Some p) w
  = (inr (foldl add_line ∅ (iter_lines (universal_newlines content))),
     log (FsOpenRead k) (log (FsExists k) w)).
Proof. intros Hk Ht. rewrite (load_found _ Hk). by rewrite Ht. Qed.

Lemma load_directory :
  node_at (fs w) k = Some Dir →
  load_existing_models (Some p) w
  = (inl (Uncaught (IsADirectoryError k)),
     log (FsOpenRead k) (log (FsExists k) w)).
Proof. intros Hk. by rewrite (load_found _ Hk). Qed.
End Loader.

Lemma load_existing_models_abort path w a w' :
  load_existing_models path w = (inl a, w') → ∃ e, a = Uncaught e.
Proof.
  destruct path as [p|]; [|by intros [=]].
  destruct (decide (p = [])) as [->|Hp]; [by intros [=]|].
  destruct (node_at (fs w) (fs_key w (parse_path p))) as [n|] eqn:Hk.
  - rewrite (load_found p w Hp n Hk). cbv zeta.
    destruct n, (tail p); intros [= <- <-]; eauto.
  - rewrite (load_missing p w Hp Hk). by intros [=].
Qed.

Lemma mkdir_parents_abort p w a w' :
  mkdir_parents p w = (inl a, w') → ∃ e, a = Uncaught e.
Proof.
  unfold mkdir_parents. destruct (mkdir_each _ _ _); [|done]. intros [= <- <-]. eauto.
Qed.

Lemma write_text_abort p text w a w' :
  write_text p text w = (inl a, w') → ∃ e, a = Uncaught e.
Proof.
  unfold write_text. cbv zeta.
  destruct (bool_decide (p = [])); [intros [= <- <-]; eauto|].
  destruct (node_at (fs w) (fs_key w (parse_path p))) as [[c| |]|];
    [destruct (tail p)| |destruct (tail p)|
     destruct (reach _ _); [destruct (tail p)| |]];
    intros [= <- <-]; eauto.
Qed.

(** Once the arguments are accepted, no usage error can occur. *)
Lemma run_no_usage argv args w e w' :
  parse_args argv = inr args →
  truthy (language args) || common_models args = true →
  run args w ≠ (inl (Usage e), w').
Proof.
  intros Hparse Hsel Hrun.
  destruct (parse_args_inr _ _ Hparse) as (Hsup & Hreq & _).
  rewrite <- Hreq in Hsup.
  unfold run in Hrun.
  assert (negb (truthy (language args)) && negb (common_models args) = false)
    as Hsel'.
  { destruct (truthy (language args)), (common_models args); done. }
  rewrite Hsel' in Hrun.
  unfold bind, collect_entries, write_manifest in Hrun. unfold bind in Hrun.
  destruct (load_existing_models (data_table args) w) as [[a|E] w1] eqn:Hload.
  { injection Hrun as -> ->.
    by destruct (load_existing_models_abort _ _ _ _ Hload) as [? ?]. }
  destruct (mkdir_parents (parse_path (target_directory args)) w1)
    as [[a|[]] w2] eqn:Hmk.
  { injection Hrun as -> ->. by destruct (mkdir_parents_abort _ _ _ _ Hmk) as [? ?]. }
  destruct (orchestrate_post E (parse_path (target_directory args)) args w2 Hsup)
    as (w0 & es & w3 & _ & _ & Heq & _).
  rewrite Heq in Hrun.
  by destruct (write_text_abort _ _ _ _ _ Hrun) as [? ?].
Qed.

Lemma unsupported_filter codes :
  Exists (λ c, ¬ Is_true (supported c)) codes
  ↔ ∃ bad rest, filter (λ c, ¬ Is_true (supported c)) codes = bad :: rest.
Proof.
  split.
  - intros H. apply Exists_exists in H as (c & Hc & Hn).
    destruct (filter (λ c, ¬ Is_true (supported c)) codes) as [|bad rest] eqn:Hf; [|eauto].
    assert (c ∈ filter (λ c, ¬ Is_true (supported c)) codes) as Hin
      by (by apply list_elem_of_filter).
    rewrite Hf in Hin. by apply elem_of_nil in Hin.
  - intros (bad & rest & Hf). apply Exists_exists. exists bad.
    assert (bad ∈ filter (λ c, ¬ Is_true (supported c)) codes) as Hin.
    { rewrite Hf. apply elem_of_cons. by left. }
    apply list_elem_of_filter in Hin as [? ?]. done.
Qed.

(** C6, as amended.  When neither the common-models flag nor a language
    code is given, the program ends with a usage error before any action
    on the file system or the network: the world is left as it was, and
    in particular the target directory is not created. *)
Theorem no_selection_is_usage_error argv w :
  opt_language argv = [] →
  opt_common_models argv = false →
  ∃ e, main argv w = (inl (Usage e), w)
       ∧ (is_Some (opt_target_directory argv) → is_Some (opt_output argv) →
          e = AtLeastOne).
Proof.
  intros Hl Hc. unfold main, parse_args. rewrite Hl. simpl.
  destruct (opt_target_directory argv) as [t|], (opt_output argv) as [o|].
  - exists AtLeastOne. split; [|done]. unfold run. simpl. by rewrite Hc.
  - eexists. split; [done|]. by intros _ [??].
  - eexists. split; [done|]. by intros [??].
  - eexists. split; [done|]. by intros [??].
Qed.

(** On the options alone: [main] ends with a usage error exactly when no
    selection is made, or a language code is not in the catalog, or one of
    the required options is missing, and then nothing has been done. *)
Lemma main_usage_error argv w :
  ((∃ e w', main argv w = (inl (Usage e), w'))
   ↔ (opt_language argv = [] ∧ opt_common_models argv = false)
     ∨ Exists (λ c, ¬ Is_true (supported c)) (opt_language argv)
     ∨ opt_target_directory argv = None
     ∨ opt_output argv = None)
  ∧ (∀ e w', main argv w = (inl (Usage e), w') → w' = w)
  ∧ (Exists (λ c, ¬ Is_true (supported c)) (opt_language argv) →
     ∃ bad, bad ∈ opt_language argv ∧ ¬ Is_true (supported bad)
            ∧ main argv w = (inl (Usage (InvalidChoice bad)), w)).
Proof.
  assert (∀ e w', main argv w = (inl (Usage e), w') →
            w' = w
            ∧ ((opt_language argv = [] ∧ opt_common_models argv = false)
               ∨ Exists (λ c, ¬ Is_true (supported c)) (opt_language argv)
               ∨ opt_target_directory argv = None
               ∨ opt_output argv = None)) as Hforward.
  { intros e w' Hmain. unfold main in Hmain.
    destruct (parse_args argv) as [e'|args] eqn:Hparse.
    - injection Hmain as <- <-. split; [done|]. right.
      unfold parse_args in Hparse.
      destruct (filter _ (opt_language argv)) as [|bad rest] eqn:Hf.
      + destruct (opt_target_directory argv); [|auto].
        destruct (opt_output argv); [done|auto].
      + left. apply unsupported_filter. eauto.
    - destruct (parse_args_inr _ _ Hparse) as (_ & Hreq & Hflag & _).
      destruct (truthy (language args) || common_models args) eqn:Hsel.
      + by destruct (run_no_usage argv args w e w' Hparse Hsel).
      + apply orb_false_iff in Hsel as [Ht Hc].
        unfold run in Hmain. rewrite Ht, Hc in Hmain. injection Hmain as <- <-.
        split; [done|]. left. rewrite <- Hreq, <- Hflag. split; [|done].
        unfold requested. by destruct (language args) as [[|]|]. }
  split; [split|split].
  - intros (e & w' & Hmain). by destruct (Hforward e w' Hmain).
  - intros Hcond. unfold main, parse_args.
    destruct (filter _ (opt_language argv)) as [|bad rest] eqn:Hf; [|by eauto].
    destruct (opt_target_directory argv) as [t|] eqn:Ht; [|by eauto].
    destruct (opt_output argv) as [o|] eqn:Ho; [|by eauto].
    destruct Hcond as [[Hl Hc]|[Hbad|[?|?]]]; [|exfalso|done..].
    + unfold run. simpl. rewrite Hl, Hc. by eauto.
    + apply unsupported_filter in Hbad as (? & ? & Hbad). congruence.
  - intros e w' Hmain. by destruct (Hforward e w' Hmain).
  - intros Hbad. apply unsupported_filter in Hbad as (bad & rest & Hf).
    exists bad.
    assert (bad ∈ filter (λ c, ¬ Is_true (supported c)) (opt_language argv)) as Hin.
    { rewrite Hf. apply elem_of_cons. by left. }
    apply list_elem_of_filter in Hin as [Hn Hin].
    split; [done|]. split; [done|]. unfold main, parse_args. by rewrite Hf.
Qed.

(** ** The command line, argument by argument *)

Lemma options_language l v :
  v ∈ opt_language (options_of l) ↔ ArgLanguage v ∈ l.
Proof.
  induction l as [|a l IH]; [split; intros H; by apply elem_of_nil in H|].
  destruct a; cbn [options_of opt_language]; rewrite ?elem_of_cons, IH;
    naive_solver.
Qed.

Lemma options_common l :
  opt_common_models (options_of l) = true ↔ ArgCommonModels ∈ l.
Proof.
  induction l as [|a l IH]; [split; [done|]; intros H; by apply elem_of_nil in H|].
  destruct a; cbn [options_of opt_common_models]; rewrite ?elem_of_cons, ?IH;
    naive_solver.
Qed.

Lemma options_target l :
  is_Some (opt_target_directory (options_of l)) ↔ ∃ v, ArgTargetDirectory v ∈ l.
Proof.
  induction l as [|a l IH].
  { split; [by intros [??]|]. intros [v H]. by apply elem_of_nil in H. }
  assert ((∃ v, ArgTargetDirectory v ∈ l) → ∃ v, ArgTargetDirectory v ∈ a :: l) as Hlater.
  { intros [v H]. exists v. apply elem_of_cons. by right. }
  destruct a as [x| |x|x|x|x|x]; cbn [options_of opt_target_directory];
    try (rewrite IH; split; [exact Hlater|]; intros [v H];
         apply elem_of_cons in H as [H|H]; [discriminate H|by exists v]).
  split; [intros _; exists x; apply elem_of_cons; by left|eauto].
Qed.

Lemma options_output l :
  is_Some (opt_output (options_of l)) ↔ ∃ v, ArgOutput v ∈ l.
Proof.
  induction l as [|a l IH].
  { split; [by intros [??]|]. intros [v H]. by apply elem_of_nil in H. }
  assert ((∃ v, ArgOutput v ∈ l) → ∃ v, ArgOutput v ∈ a :: l) as Hlater.
  { intros [v H]. exists v. apply elem_of_cons. by right. }
  destruct a as [x| |x|x|x|x|x]; cbn [options_of opt_output];
    try (rewrite IH; split; [exact Hlater|]; intros [v H];
         apply elem_of_cons in H as [H|H]; [discriminate H|by exists v]).
  split; [intros _; exists x; apply elem_of_cons; by left|eauto].
Qed.

Lemma rejected_first_Some l e :
  rejected_first l = Some e →
  (∃ v, e = InvalidChoice v ∧ ArgLanguage v ∈ l ∧ ¬ Is_true (supported v))
  ∨ (∃ o, e = RejectedOption o ∧ ArgRejected o ∈ l).
Proof.
  induction l as [|a l IH]; [done|]. intros H.
  assert (rejected_first l = Some e →
          (∃ v, e = InvalidChoice v ∧ ArgLanguage v ∈ a :: l
                ∧ ¬ Is_true (supported v))
          ∨ (∃ o, e = RejectedOption o ∧ ArgRejected o ∈ a :: l)) as Hrest.
  { intros H'. destruct (IH H') as [(v & ? & ? & ?)|(o & ? & ?)];
      [left; exists v|right; exists o]; split_and!; auto;
      apply elem_of_cons; by right. }
  destruct a as [v| | | | |o|]; simpl in H; auto.
  - destruct (supported v) eqn:Hs; [auto|]. injection H as <-. left. exists v.
    split_and!; [done|apply elem_of_cons; by left|]. rewrite Hs. exact id.
  - injection H as <-. right. exists o. split; [done|]. apply elem_of_cons. by left.
Qed.

Lemma rejected_first_None l :
  rejected_first l = None →
  (∀ o, ArgRejected o ∉ l) ∧ (∀ v, ArgLanguage v ∈ l → Is_true (supported v)).
Proof.
  induction l as [|a l IH]; intros H.
  { split; [intros o Ho|intros v Hv]; by apply elem_of_nil in Ho || apply elem_of_nil in Hv. }
  assert (rejected_first l = None →
          (∀ b, b ∈ a :: l → b = a ∨ b ∈ l) →
          (∀ o, ArgRejected o ≠ a) →
          (∀ v, ArgLanguage v = a → Is_true (supported v)) →
          (∀ o, ArgRejected o ∉ a :: l)
          ∧ (∀ v, ArgLanguage v ∈ a :: l → Is_true (supported v))) as Hrest.
  { intros H' Hin Hr Hl. destruct (IH H') as [IH1 IH2]. split.
    - intros o Ho. destruct (Hin _ Ho) as [Heq|Ho']; [by apply (Hr o)|by apply (IH1 o)].
    - intros v Hv. destruct (Hin _ Hv) as [Heq|Hv']; auto. }
  assert (∀ b, b ∈ a :: l → b = a ∨ b ∈ l) as Hin.
  { intros b Hb. by apply elem_of_cons in Hb. }
  destruct a as [v| | | | |o|]; simpl in H; try (apply Hrest; by auto).
  - destruct (supported v) eqn:Hs; [|done]. apply Hrest; auto.
    intros v' [= ->]. by rewrite Hs.
Qed.

Lemma unrecognized_nil l :
  unrecognized l = [] → ∀ t, ArgUnrecognized t ∉ l.
Proof.
  intros H t Ht.
  assert (t ∈ unrecognized l) as Hin.
  { unfold unrecognized. apply list_elem_of_omap. by exists (ArgUnrecognized t). }
  rewrite H in Hin. by apply elem_of_nil in Hin.
Qed.

Lemma unrecognized_cons l t ts :
  unrecognized l = t :: ts → ArgUnrecognized t ∈ l.
Proof.
  intros H.
  assert (t ∈ unrecognized l) as Hin by (rewrite H; apply elem_of_cons; by left).
  unfold unrecognized in Hin. apply list_elem_of_omap in Hin as (a & Ha & Heq).
  destruct a; try discriminate Heq. by injection Heq as ->.
Qed.

(** What the conditions on the arguments say of the options. *)
Lemma options_conditions l :
  ((opt_language (options_of l) = [] ∧ opt_common_models (options_of l) = false)
   ↔ (∀ v, ArgLanguage v ∉ l) ∧ ArgCommonModels ∉ l)
  ∧ (Exists (λ c, ¬ Is_true (supported c)) (opt_language (options_of l))
     ↔ ∃ v, ArgLanguage v ∈ l ∧ ¬ Is_true (supported v))
  ∧ (opt_target_directory (options_of l) = None ↔ ∀ v, ArgTargetDirectory v ∉ l)
  ∧ (opt_output (options_of l) = None ↔ ∀ v, ArgOutput v ∉ l).
Proof.
  split_and!.
  - split.
    + intros [Hl Hc]. split.
      * intros v Hv. apply options_language in Hv. rewrite Hl in Hv.
        by apply elem_of_nil in Hv.
      * intros Hin. apply options_common in Hin. congruence.
    + intros [Hl Hc]. split.
      * destruct (opt_language (options_of l)) as [|v vs] eqn:Heq; [done|].
        destruct (Hl v). apply options_language. rewrite Heq.
        apply elem_of_cons. by left.
      * destruct (opt_common_models (options_of l)) eqn:Heq; [|done].
        destruct Hc. by apply options_common.
  - rewrite Exists_exists. split; intros (v & Hv & Hn); exists v;
      (split; [by apply options_language|done]).
  - split.
    + intros Hnone v Hv.
      assert (is_Some (opt_target_directory (options_of l))) as [x Hx]
        by (apply options_target; eauto).
      congruence.
    + intros Hall. destruct (opt_target_directory (options_of l)) eqn:Heq; [|done].
      assert (∃ v, ArgTargetDirectory v ∈ l) as [v Hv]
        by (apply options_target; rewrite Heq; eauto).
      by destruct (Hall v).
  - split.
    + intros Hnone v Hv.
      assert (is_Some (opt_output (options_of l))) as [x Hx]
        by (apply options_output; eauto).
      congruence.
    + intros Hall. destruct (opt_output (options_of l)) eqn:Heq; [|done].
      assert (∃ v, ArgOutput v ∈ l) as [v Hv]
        by (apply options_output; rewrite Heq; eauto).
      by destruct (Hall v).
Qed.

Lemma parse_args_invalid o v rest :
  filter (λ c, ¬ Is_true (supported c)) (opt_language o) = v :: rest →
  parse_args o = inl (InvalidChoice v).
Proof. intros H. unfold parse_args. by rewrite H. Qed.

Lemma rejected_first_filter l v :
  (∀ o, ArgRejected o ∉ l) →
  rejected_first l = Some (InvalidChoice v) →
  ∃ rest, filter (λ c, ¬ Is_true (supported c)) (opt_language (options_of l))
          = v :: rest.
Proof.
  induction l as [|a l IH]; intros Hrej H; [done|].
  assert (∀ o, ArgRejected o ∉ l) as Hrej'.
  { intros o Ho. apply (Hrej o), elem_of_cons. by right. }
  destruct a as [v'| | | | |o|]; simpl in H; cbn [options_of opt_language];
    try (by apply IH).
  - rewrite filter_cons. destruct (supported v') eqn:Hs.
    + rewrite decide_False by (intros Hn; by apply Hn). by apply IH.
    + injection H as <-. rewrite decide_True by exact id. eauto.
Qed.

(** On a command line made of declared options only, the program is
    [main] on these options. *)
Lemma command_line_main l w :
  (∀ o, ArgRejected o ∉ l) →
  (∀ t, ArgUnrecognized t ∉ l) →
  command_line l w = main (options_of l) w.
Proof.
  intros Hrej Hunr. unfold command_line, main.
  destruct (rejected_first l) as [e|] eqn:Hfirst.
  - destruct (rejected_first_Some _ _ Hfirst) as [(v & -> & Hv & Hn)|(o & _ & Ho)];
      [|by destruct (Hrej o)].
    destruct (rejected_first_filter l v Hrej Hfirst) as [rest Hf].
    by rewrite (parse_args_invalid _ _ _ Hf).
  - destruct (parse_args (options_of l)) as [e|args]; [done|].
    destruct (unrecognized l) as [|t ts] eqn:Hu; [done|].
    destruct (Hunr t). by apply (unrecognized_cons l t ts).
Qed.

(** C8, as amended.  Unless [-h] is given, the program ends with a usage
    error exactly when no selection is made, or a language code is not in
    the catalog, or one of the required options [--target-directory] and
    [--output] is missing, or [parse_args] cannot read the command line
    (an option used wrongly, an argument it does not recognise); every
    usage error, that for an unsupported code included, comes before any
    action on the file system or the network. *)
Theorem usage_error_iff (sys_argv : list Arg) w :
  ((∃ e w', command_line sys_argv w = (inl (Usage e), w'))
   ↔ ((∀ v, ArgLanguage v ∉ sys_argv) ∧ ArgCommonModels ∉ sys_argv)
     ∨ (∃ v, ArgLanguage v ∈ sys_argv ∧ ¬ Is_true (supported v))
     ∨ (∀ v, ArgTargetDirectory v ∉ sys_argv)
     ∨ (∀ v, ArgOutput v ∉ sys_argv)
     ∨ (∃ o, ArgRejected o ∈ sys_argv)
     ∨ (∃ t, ArgUnrecognized t ∈ sys_argv))
  ∧ (∀ e w', command_line sys_argv w = (inl (Usage e), w') → w' = w)
  ∧ ((∃ v, ArgLanguage v ∈ sys_argv ∧ ¬ Is_true (supported v)) →
     ∃ e, command_line sys_argv w = (inl (Usage e), w)).
Proof.
  destruct (options_conditions sys_argv) as (Hnone & Hbad & Htarget & Houtput).
  destruct (main_usage_error (options_of sys_argv) w) as (Hiff & Hsame & _).
  assert (∀ e w', command_line sys_argv w = (inl (Usage e), w') →
            w' = w
            ∧ (((∀ v, ArgLanguage v ∉ sys_argv) ∧ ArgCommonModels ∉ sys_argv)
               ∨ (∃ v, ArgLanguage v ∈ sys_argv ∧ ¬ Is_true (supported v))
               ∨ (∀ v, ArgTargetDirectory v ∉ sys_argv)
               ∨ (∀ v, ArgOutput v ∉ sys_argv)
               ∨ (∃ o, ArgRejected o ∈ sys_argv)
               ∨ (∃ t, ArgUnrecognized t ∈ sys_argv))) as Hforward.
  { intros e w' Hrun. unfold command_line in Hrun.
    destruct (rejected_first sys_argv) as [e0|] eqn:Hfirst.
    { injection Hrun as <- <-. split; [done|].
      destruct (rejected_first_Some _ _ Hfirst) as [(v & _ & Hv & Hn)|(o & _ & Ho)];
        [right; left; by exists v|do 4 right; left; by exists o]. }
    assert (main (options_of sys_argv) w = (inl (Usage e), w') →
            w' = w
            ∧ (((∀ v, ArgLanguage v ∉ sys_argv) ∧ ArgCommonModels ∉ sys_argv)
               ∨ (∃ v, ArgLanguage v ∈ sys_argv ∧ ¬ Is_true (supported v))
               ∨ (∀ v, ArgTargetDirectory v ∉ sys_argv)
               ∨ (∀ v, ArgOutput v ∉ sys_argv)
               ∨ (∃ o, ArgRejected o ∈ sys_argv)
               ∨ (∃ t, ArgUnrecognized t ∈ sys_argv))) as Hmain.
    { intros Hm. split; [by apply (Hsame e)|].
      destruct (proj1 Hiff (ex_intro _ e (ex_intro _ w' Hm))) as [H|[H|[H|H]]].
      - left. by apply Hnone.
      - right. left. by apply Hbad.
      - do 2 right. left. by apply Htarget.
      - do 3 right. left. by apply Houtput. }
    unfold main in Hmain.
    destruct (parse_args (options_of sys_argv)) as [e1|args] eqn:Hparse;
      [by apply Hmain|].
    destruct (unrecognized sys_argv) as [|t ts] eqn:Hu; [by apply Hmain|].
    injection Hrun as <- <-. split; [done|]. do 5 right. exists t.
    by apply (unrecognized_cons sys_argv t ts). }
  assert ((((∀ v, ArgLanguage v ∉ sys_argv) ∧ ArgCommonModels ∉ sys_argv)
           ∨ (∃ v, ArgLanguage v ∈ sys_argv ∧ ¬ Is_true (supported v))
           ∨ (∀ v, ArgTargetDirectory v ∉ sys_argv)
           ∨ (∀ v, ArgOutput v ∉ sys_argv)
           ∨ (∃ o, ArgRejected o ∈ sys_argv)
           ∨ (∃ t, ArgUnrecognized t ∈ sys_argv)) →
          ∃ e w', command_line sys_argv w = (inl (Usage e), w')) as Hback.
  { intros Hcond. unfold command_line.
    destruct (rejected_first sys_argv) as [e0|] eqn:Hfirst; [by eexists _, _|].
    destruct (rejected_first_None _ Hfirst) as [Hrej Hsup].
    assert (∃ e w', main (options_of sys_argv) w = (inl (Usage e), w')
            ∨ unrecognized sys_argv ≠ []) as (e & w' & Hm).
    { destruct Hcond as [H|[(v & Hv & Hn)|[H|[H|[(o & Ho)|(t & Ht)]]]]].
      - destruct (proj2 Hiff) as (e & w' & Hm); [left; by apply Hnone|].
        exists e, w'. by left.
      - exfalso. by apply Hn, Hsup.
      - destruct (proj2 Hiff) as (e & w' & Hm); [do 2 right; left; by apply Htarget|].
        exists e, w'. by left.
      - destruct (proj2 Hiff) as (e & w' & Hm); [do 3 right; by apply Houtput|].
        exists e, w'. by left.
      - by destruct (Hrej o).
      - exists AtLeastOne, w. right. intros Hu. by destruct (unrecognized_nil _ Hu t). }
    unfold main in Hm.
    destruct (parse_args (options_of sys_argv)) as [e1|args] eqn:Hparse;
      [by eexists _, _|].
    destruct (unrecognized sys_argv) as [|t ts] eqn:Hu; [|by eexists _, _].
    destruct Hm as [Hm|Hm]; [by exists e, w'|done]. }
  split; [split|split].
  - intros (e & w' & Hrun). by destruct (Hforward e w' Hrun).
  - exact Hback.
  - intros e w' Hrun. by destruct (Hforward e w' Hrun).
  - intros Hbadv. destruct Hback as (e & w' & Hrun); [by right; left|].
    exists e. destruct (Hforward e w' Hrun) as [-> _]. exact Hrun.
Qed.

(** ** load_existing_models against the specification *)

Lemma lstrip_head s c t : lstrip s = c :: t → isspace c = false.
Proof.
  induction s as [|a s IH]; [done|]. simpl.
  destruct (isspace a) eqn:Ha; [exact IH|]. by intros [= <- _].
Qed.

Lemma lstrip_first_nonspace s : head (lstrip s) = first_nonspace s.
Proof.
  unfold first_nonspace. induction s as [|a s IH]; [done|]. simpl.
  rewrite filter_cons. destruct (isspace a) eqn:Ha.
  - rewrite decide_False by (intros H; by apply H). exact IH.
  - by rewrite decide_True by (by intros []).
Qed.

Lemma lstrip_snoc s c : isspace c = false → lstrip (s ++ [c]) = lstrip s ++ [c].
Proof.
  intros Hc. induction s as [|a s IH]; simpl; [by rewrite Hc|].
  by destruct (isspace a).
Qed.

Lemma rstrip_cons s c : isspace c = false → rstrip (c :: s) = c :: rstrip s.
Proof.
  intros Hc. unfold rstrip. by rewrite reverse_cons, lstrip_snoc, reverse_snoc.
Qed.

Lemma strip_head s : head (strip s) = first_nonspace s.
Proof.
  rewrite <- lstrip_first_nonspace. unfold strip.
  destruct (lstrip s) as [|c t] eqn:Hs; [done|].
  by rewrite (rstrip_cons t c (lstrip_head _ _ _ Hs)).
Qed.

Lemma startswith_head c s : startswith c s = bool_decide (head s = Some c).
Proof.
  destruct s as [|a s]; simpl; [done|].
  destruct (N.eqb_spec a c) as [->|Hne].
  - by rewrite bool_decide_eq_true_2.
  - rewrite bool_decide_eq_false_2; [done|]. congruence.
Qed.

Lemma split_first_field s : ∃ rest, split TAB s = first_field s :: rest.
Proof.
  induction s as [|a s [rest IH]]; simpl; [by eexists|].
  destruct (a =? TAB); [by eexists|]. rewrite IH. by eexists.
Qed.


Lemma add_line_counts existing line :
  add_line existing line
  = if decide (counts line) then {[ first_field (strip line) ]} ∪ existing
    else existing.
Proof.
  unfold add_line, counts. rewrite startswith_head, strip_head.
  destruct (split_first_field (strip line)) as [rest ->].
  destruct (decide (strip line = [])) as [He|He].
  - rewrite bool_decide_eq_true_2 by done. simpl.
    rewrite decide_False; [done|]. by intros [? _].
  - rewrite bool_decide_eq_false_2 by done. simpl.
    destruct (decide (first_nonspace line = Some HASH)) as [Hh|Hh].
    + rewrite bool_decide_eq_true_2 by done. simpl.
      rewrite decide_False; [done|]. by intros [_ ?].
    + rewrite bool_decide_eq_false_2 by done. simpl.
      by rewrite decide_True.
Qed.

Lemma foldl_add_line lines : ∀ existing,
  foldl add_line existing lines = existing_set_spec lines ∪ existing.
Proof.
  unfold existing_set_spec.
  induction lines as [|line lines IH]; intros existing; simpl.
  { by rewrite union_empty_l_L. }
  rewrite IH, add_line_counts, filter_cons.
  destruct (decide (counts line)); [|done].
  rewrite fmap_cons. simpl. set_solver.
Qed.


(** ** What the writer emits is JSON *)

Lemma json_ind_nested (P : json → Prop) :
  (∀ s, P (JString s)) →
  (∀ items, Forall P items → P (JArray items)) →
  (∀ members, Forall (λ kv, P (snd kv)) members → P (JObject members)) →
  ∀ v, P v.
Proof.
  intros Hs Ha Ho. fix IH 1. intros [s|items|members].
  - apply Hs.
  - apply Ha. induction items as [|x items IHl]; constructor; [apply IH|apply IHl].
  - apply Ho. induction members as [|[k x] members IHl]; constructor;
      [apply IH|apply IHl].
Qed.









(** ** The manifest writer *)



Lemma reach_Reached f ks :
  reach f ks = Reached → Forall (λ d, f !! d = Some Dir) ks.
Proof.
  induction ks as [|d ks IH]; [constructor|]. simpl.
  destruct (f !! d) as [[c| |]|] eqn:Hd; try done. intros H. constructor; auto.
Qed.





(** ** Concrete runs *)

Ltac by_compute := apply (bool_decide_unpack _); vm_compute; exact I.

Example GERMAN_lookup : LANGUAGE_MODELS !! py "de" = Some GERMAN.
Proof. by vm_compute. Qed.


(** Counterexample to C2 as stated: German requested twice, the transfer
    fails and leaves a truncated file, which the second occurrence
    registers. *)
Lemma failed_fetch_registered_on_repeat :
  let w := world ∅ (offline (Some (py "PK"))) in
  parse_args (argv_for false [py "de"; py "de"] None)
  = inr (args_for false [py "de"; py "de"] None)
  ∧ fetch_fails w (Model.url GERMAN)
  ∧ fs w !! jar_key MODELS w GERMAN = None
  ∧ fst (orchestrate (args_for false [py "de"; py "de"] None) ∅ MODELS w)
    = inr [entry_of w MODELS (py "de") GERMAN].
Proof.
  intros w. split; [by vm_compute|]. split; [intros n; by eexists|].
  split; by vm_compute.
Qed.

(** Witness of C2: German and French requested, only the German archive
    cannot be fetched. *)
Lemma failed_fetch_skips_the_code_witness :
  let w := world ∅ german_down in
  ∃ es w',
    orchestrate (args_for false [py "de"; py "fr"] None) ∅ MODELS w = (inr es, w')
    ∧ ∀ e, e ∈ es → Entry.lang_code e ≠ py "de".
Proof.
  intros w.
  destruct (failed_fetch_skips_the_code
              (argv_for false [py "de"; py "fr"] None)
              (args_for false [py "de"; py "fr"] None)
              ∅ MODELS w [] (py "de") [py "fr"] GERMAN)
    as (es1 & w1 & es & w' & _ & _ & Heq & Hno).
  - by vm_compute.
  - reflexivity.
  - apply not_elem_of_nil.
  - by vm_compute.
  - apply not_elem_of_empty.
  - by vm_compute.
  - intros n. eexists. by vm_compute.
  - exists es, w'. split; [exact Heq|]. apply Hno. left. by_compute.
Defined.

(** Witness of C3: the data table already lists "common" and "en". *)
Lemma existing_identifier_is_skipped_witness :
  let w := world ∅ online in
  ∃ es w',
    orchestrate (args_for true [py "en"; py "fr"] None)
      (list_to_set [py "common"; py "en"]) MODELS w = (inr es, w')
    ∧ ∀ e, e ∈ es → Entry.lang_code e ≠ py "en" ∧ Entry.value e ≠ py "en".
Proof.
  intros w.
  destruct (existing_identifier_is_skipped
              (argv_for true [py "en"; py "fr"] None)
              (args_for true [py "en"; py "fr"] None)
              (list_to_set [py "common"; py "en"]) MODELS w (py "en"))
    as (es & w' & evs & Heq & _ & Hno & _).
  - by vm_compute.
  - by_compute.
  - exists es, w'. split; assumption.
Defined.

(** Counterexample to C4 as stated: English requested twice with its
    archive on disk gives two entries. *)
Lemma archive_on_disk_registered_twice :
  let w := world english_on_disk online in
  parse_args (argv_for false [py "en"; py "en"] None)
  = inr (args_for false [py "en"; py "en"] None)
  ∧ py "en" ∉ (∅ : gset str)
  ∧ is_Some (fs w !! jar_key MODELS w ENGLISH)
  ∧ fst (orchestrate (args_for false [py "en"; py "en"] None) ∅ MODELS w)
    = inr [entry_of w MODELS (py "en") ENGLISH; entry_of w MODELS (py "en") ENGLISH].
Proof.
  intros w. split; [by vm_compute|]. split; [apply not_elem_of_empty|].
  split; [by_compute|by vm_compute].
Qed.

(** Witness of C4: English, on disk, and French requested. *)
Lemma archive_on_disk_registered_without_fetch_witness :
  let w := world english_on_disk online in
  ∃ es w',
    orchestrate (args_for false [py "en"; py "fr"] None) ∅ MODELS w = (inr es, w')
    ∧ filter (for_code (py "en")) es = [entry_of w MODELS (py "en") ENGLISH].
Proof.
  intros w.
  destruct (archive_on_disk_registered_without_fetch
              (argv_for false [py "en"; py "fr"] None)
              (args_for false [py "en"; py "fr"] None)
              ∅ MODELS w (py "en") ENGLISH)
    as (es & w' & evs & Heq & _ & _ & Hf & _).
  - by vm_compute.
  - by vm_compute.
  - apply not_elem_of_empty.
  - by_compute.
  - exists es, w'. split; assumption.
Defined.


(** Counterexample to C6 as stated: after the usage error the target
    directory does not exist and nothing has been done. *)
Lemma usage_error_creates_no_directory :
  let r := main (argv_for false [] None) (world ∅ online) in
  fst r = inl (Usage AtLeastOne)
  ∧ fs (snd r) !! fs_key (snd r) MODELS = None
  ∧ trace (snd r) = [].
Proof. intros r. split; [|split]; by vm_compute. Qed.

(** Witness of C6. *)
Lemma no_selection_is_usage_error_witness :
  let w := world ∅ online in
  main (argv_for false [] None) w = (inl (Usage AtLeastOne), w).
Proof.
  intros w.
  destruct (no_selection_is_usage_error (argv_for false [] None) w)
    as (e & Heq & He); [reflexivity..|].
  rewrite Heq. by rewrite He by (simpl; eauto).
Defined.


(** Counterexample to C8 as stated: a supported code is given, yet the
    run ends with a usage error because the required options are
    missing. *)
Lemma missing_option_is_usage_error :
  fst (main (argv_bare [py "en"]) (world ∅ online))
  = inl (Usage (MissingRequired [py "--target-directory"; py "--output"]))
  ∧ ¬ ((opt_language (argv_bare [py "en"]) = []
        ∧ opt_common_models (argv_bare [py "en"]) = false)
       ∨ Exists (λ c, ¬ Is_true (supported c)) (opt_language (argv_bare [py "en"]))).
Proof.
  split; [by vm_compute|]. intros [[H _]|H]; [done|].
  apply Exists_exists in H as (c & Hc & Hn).
  apply list_elem_of_singleton in Hc. subst c. apply Hn. by vm_compute.
Qed.


(** Witness of C10: English requested twice on a fresh disk: the first
    occurrence fetches the archive, the second finds it. *)
Lemma repeated_code_registered_per_occurrence_witness :
  let w := world ∅ online in
  ∃ es w',
    orchestrate (args_for false [py "en"; py "en"] None) ∅ MODELS w = (inr es, w')
    ∧ filter (for_code (py "en")) es
      = [entry_of w MODELS (py "en") ENGLISH; entry_of w MODELS (py "en") ENGLISH].
Proof.
  intros w.
  destruct (repeated_code_registered_per_occurrence
              (argv_for false [py "en"; py "en"] None)
              (args_for false [py "en"; py "en"] None)
              ∅ MODELS w (py "en") ENGLISH)
    as (es & w' & Heq & Hf).
  - by vm_compute.
  - by vm_compute.
  - apply not_elem_of_empty.
  - right. intros n. by eexists.
  - exists es, w'. split; assumption.
Defined.

(** * Further properties of the program *)

(** ** The shape of the entries *)

Lemma join_snoc sep ps j : ∃ pre, join sep (ps ++ [j]) = pre ++ j.
Proof.
  induction ps as [|p ps [pre IH]]; [by exists []|].
  destruct ps as [|p' ps].
  - exists (p ++ sep). simpl. by rewrite <- app_assoc.
  - exists (p ++ sep ++ pre).
    change (join sep ((p :: p' :: ps) ++ [j]))
      with (p ++ sep ++ join sep ((p' :: ps) ++ [j])).
    rewrite IH. by rewrite <- !app_assoc.
Qed.

Lemma path_str_snoc r ps j :
  ∃ dir, path_str {| root := r; parts := ps ++ [j] |} = dir ++ j.
Proof.
  destruct (join_snoc [SLASH] ps j) as [pre Hpre].
  exists (r ++ pre). unfold path_str. cbn [root parts]. rewrite <- app_assoc, <- Hpre.
  destruct r as [|a r]; [|done].
  destruct (ps ++ [j]) as [|x l] eqn:Hps; [by destruct ps|done].
Qed.

(** X1.  Every entry handed to the manifest writer belongs to a requested
    identifier outside the existing set; its [value] equals its
    [lang_code], its [name] is the catalog's, and its [models_path] is the
    absolute path of the archive in the target directory, which ends with
    the catalog's file name. *)
Theorem registered_entry_shape argv args E T w es w' e :
  parse_args argv = inr args →
  orchestrate args E T w = (inr es, w') →
  e ∈ es →
  Entry.lang_code e ∈ identifiers args
  ∧ Entry.lang_code e ∉ E
  ∧ ∃ m, (Entry.lang_code e, m) ∈ CATALOG
         ∧ Entry.value e = Entry.lang_code e
         ∧ Entry.name e = Model.name m
         ∧ Entry.models_path e = path_str (jar_key T w m)
         ∧ ∃ dir, Entry.models_path e = dir ++ Model.jar_name m.
Proof.
  intros Hparse Hrun He.
  destruct (parse_args_inr _ _ Hparse) as (Hsup & Hreq & _).
  rewrite <- Hreq in Hsup.
  destruct (orchestrate_post E T args w Hsup)
    as (w0 & es0 & w0' & _ & _ & Heq & _ & Hp & _).
  rewrite Hrun in Heq. injection Heq as <- <-.
  destruct (post_new_entry _ _ _ _ _ _ _ Hp He) as (Hin & HE & m & Hm & Hshape).
  split; [done|]. split; [done|]. exists m. split; [done|].
  destruct (jar_key_parts T w _ m Hm) as (r & ps & Hk).
  destruct (path_str_snoc r ps (Model.jar_name m)) as [dir Hdir].
  remember (Entry.lang_code e) as c eqn:Hc. rewrite Hshape.
  split; [done|]. split; [done|]. split; [done|].
  exists dir. rewrite <- Hdir, <- Hk. done.
Qed.

(** ** The four ways one language code is processed *)

Lemma process_language_cases E T es c m w :
  LANGUAGE_MODELS !! c = Some m →
  let k := jar_key T w m in
  let w1 := after_fetch (Model.url m) (jar_path T m) (log (FsExists k) w) in
  (c ∈ E ∧ process_language E T es c w = (inr es, w))
  ∨ (c ∉ E ∧ is_Some (fs w !! k)
     ∧ process_language E T es c w
       = (inr (es ++ [entry_of w T c m]), log (FsExists k) w))
  ∨ (c ∉ E ∧ fs w !! k = None ∧ fetch_ok w (Model.url m) = true
     ∧ process_language E T es c w = (inr (es ++ [entry_of w T c m]), w1))
  ∨ (c ∉ E ∧ fs w !! k = None ∧ fetch_ok w (Model.url m) = false
     ∧ process_language E T es c w = (inr es, w1)).
Proof.
  intros Hm k w1.
  destruct (decide (c ∈ E)) as [HE|HE].
  { left. split; [done|]. by eapply process_language_skip. }
  right. destruct (fs w !! k) as [node|] eqn:Hk.
  { left. split; [done|]. split; [eauto|].
    apply process_language_present; auto. }
  right. pose proof (process_language_absent E T es c m w HE Hm Hk) as Heq.
  destruct (fetch_ok w (Model.url m)); [left|right]; auto.
Qed.

Lemma process_common_cases E T es w :
  let k := jar_key T w COMMON_MODELS in
  let e := entry_of w T (py "common") COMMON_MODELS in
  (py "common" ∈ E ∧ process_common E T es w = (inr es, w))
  ∨ (py "common" ∉ E ∧ is_Some (fs w !! k)
     ∧ process_common E T es w = (inr (es ++ [e]), log (FsExists k) w))
  ∨ (py "common" ∉ E ∧ fs w !! k = None
     ∧ process_common E T es w
       = (inr (es ++ [e]),
          after_fetch (Model.url COMMON_MODELS) (jar_path T COMMON_MODELS)
            (log (FsExists k) w))).
Proof.
  intros k e. destruct (decide (py "common" ∈ E)) as [HE|HE].
  { left. split; [done|]. by apply process_common_skip. }
  right. unfold process_common. rewrite bool_decide_eq_false_2 by done.
  unfold bind, path_exists. fold (jar_path T COMMON_MODELS).
  fold (jar_key T w COMMON_MODELS).
  rewrite (node_at_jar_key _ _ _ _ _ common_in_catalog). fold k.
  destruct (fs w !! k) as [n|] eqn:Hk.
  - left. split; [done|]. split; [eauto|].
    rewrite bool_decide_eq_true_2 by eauto. done.
  - right. split; [done|]. split; [done|].
    rewrite bool_decide_eq_false_2 by (by intros [??]).
    unfold download_model. rewrite urlretrieve_eq. cbv beta iota zeta.
    unfold path_absolute, ret. subst e. unfold entry_of.
    by rewrite after_fetch_cwd.
Qed.

Lemma after_fetch_fetches url dest w :
  fetches (after_fetch url dest w) = S (fetches w).
Proof.
  unfold after_fetch, urlretrieve.
  by destruct (net w (fetches w) url) as [c|[c|]].
Qed.

Lemma transfers_app evs1 evs2 :
  transfers (evs1 ++ evs2) = (transfers evs1 + transfers evs2)%nat.
Proof. unfold transfers. by rewrite filter_app, length_app. Qed.

Lemma to_process_cons_in E c ids : c ∈ E → to_process E (c :: ids) = to_process E ids.
Proof. intros H. unfold to_process. rewrite filter_cons, decide_False; auto. Qed.

Lemma to_process_cons_out E c ids :
  c ∉ E → to_process E (c :: ids) = c :: to_process E ids.
Proof. intros H. unfold to_process. by rewrite filter_cons, decide_True. Qed.

(** ** What the loop over the languages adds up to *)

Lemma transfers_exists k evs : transfers (FsExists k :: evs) = transfers evs.
Proof. unfold transfers. by rewrite filter_cons, decide_False by (by intros []). Qed.

Lemma transfers_fetch url k evs : transfers (NetFetch url k :: evs) = S (transfers evs).
Proof. unfold transfers. by rewrite filter_cons, decide_True. Qed.

Lemma loop_summary E T codes : ∀ es w,
  Forall (λ c, Is_true (supported c)) codes →
  ∃ es' w' new evs,
    process_languages E T es codes w = (inr es', w')
    ∧ es' = es ++ new
    ∧ trace w' = trace w ++ evs
    ∧ cwd w' = cwd w
    ∧ net w' = net w
    ∧ fetches w' = (fetches w + transfers evs)%nat
    ∧ (transfers evs ≤ length (to_process E codes))%nat
    ∧ (length new ≤ length (to_process E codes))%nat
    ∧ (∀ k, is_Some (fs w !! k) → is_Some (fs w' !! k))
    ∧ Forall (λ e, ∃ m, LANGUAGE_MODELS !! Entry.lang_code e = Some m
                        ∧ is_Some (fs w' !! jar_key T w m)) new
    ∧ (transfers evs = 0%nat → fs w' = fs w).
Proof.
  induction codes as [|c codes IH]; intros es w Hsup.
  { exists es, w, [], []. rewrite !app_nil_r. simpl.
    repeat split; auto; try lia. }
  apply Forall_cons in Hsup as [Hc Hsup].
  destruct (supported_lookup _ Hc) as [m Hm].
  set (k := jar_key T w m).
  set (wf := after_fetch (Model.url m) (jar_path T m) (log (FsExists k) w)).
  assert (cwd wf = cwd w) as Hcwdf by (subst wf; by rewrite after_fetch_cwd).
  assert (net wf = net w) as Hnetf by (subst wf; by rewrite after_fetch_net).
  assert (trace wf = trace w ++ [FsExists k; NetFetch (Model.url m) k]) as Htrf.
  { subst wf. rewrite after_fetch_trace. simpl. by rewrite <- app_assoc. }
  assert (fetches wf = S (fetches w)) as Hfef
    by (subst wf; by rewrite after_fetch_fetches).
  assert (∀ k', is_Some (fs w !! k') → is_Some (fs wf !! k')) as Hmonof.
  { intros k' Hk'. subst wf. by apply after_fetch_mono. }
  destruct (process_language_cases E T es c m w Hm)
    as [(HE & Heq)|[(HE & Hk & Heq)|[(HE & Hk & Hok & Heq)|(HE & Hk & Hok & Heq)]]];
    fold k in Heq; fold wf in Heq.
  - (* in the existing set *)
    destruct (IH es w Hsup)
      as (es' & w' & new & evs & Heq' & -> & Htr & Hcwd & Hnet & Hfe & Hle & Hln & Hmono & Hdisk & Hsame).
    exists (es ++ new), w', new, evs. rewrite (to_process_cons_in _ _ _ HE).
    split; [simpl; unfold bind; by rewrite Heq|]. repeat split; auto.
  - (* on disk *)
    destruct (IH (es ++ [entry_of w T c m]) (log (FsExists k) w) Hsup)
      as (es' & w' & new & evs & Heq' & -> & Htr & Hcwd & Hnet & Hfe & Hle & Hln & Hmono & Hdisk & Hsame).
    exists ((es ++ [entry_of w T c m]) ++ new), w',
      (entry_of w T c m :: new), (FsExists k :: evs).
    rewrite (to_process_cons_out _ _ _ HE).
    split; [simpl; unfold bind; by rewrite Heq|].
    split; [by rewrite <- app_assoc|].
    split; [rewrite Htr; simpl; by rewrite <- app_assoc|].
    split; [done|]. split; [done|].
    split; [rewrite transfers_exists; exact Hfe|].
    split; [rewrite ?transfers_exists, ?transfers_fetch; cbn [length]; lia|].
    split; [cbn [length]; lia|]. split; [done|].
    split; [|rewrite transfers_exists; exact Hsame].
    constructor; [|done]. exists m. split; [done|]. by apply Hmono.
  - (* fetched *)
    destruct (IH (es ++ [entry_of w T c m]) wf Hsup)
      as (es' & w' & new & evs & Heq' & -> & Htr & Hcwd & Hnet & Hfe & Hle & Hln & Hmono & Hdisk & Hsame).
    exists ((es ++ [entry_of w T c m]) ++ new), w',
      (entry_of w T c m :: new), (FsExists k :: NetFetch (Model.url m) k :: evs).
    rewrite (to_process_cons_out _ _ _ HE).
    split; [simpl; unfold bind; by rewrite Heq|].
    split; [by rewrite <- app_assoc|].
    split; [rewrite Htr, Htrf; by rewrite <- app_assoc|].
    split; [congruence|]. split; [congruence|].
    split; [rewrite Hfe, Hfef, ?transfers_exists, ?transfers_fetch; lia|].
    split; [rewrite ?transfers_exists, ?transfers_fetch; cbn [length]; lia|].
    split; [cbn [length]; lia|]. split; [auto|]. split.
    + constructor.
      * exists m. split; [done|]. apply Hmono. subst wf.
        apply (after_fetch_ok (Model.url m) (jar_path T m) (log (FsExists k) w)).
        exact Hok.
      * eapply Forall_impl; [exact Hdisk|]. intros e (m' & Hm' & He).
        exists m'. split; [done|]. by rewrite <- (jar_key_cwd T w wf m' Hcwdf).
    + rewrite ?transfers_exists, ?transfers_fetch. lia.
  - (* failed *)
    destruct (IH es wf Hsup)
      as (es' & w' & new & evs & Heq' & -> & Htr & Hcwd & Hnet & Hfe & Hle & Hln & Hmono & Hdisk & Hsame).
    exists (es ++ new), w', new, (FsExists k :: NetFetch (Model.url m) k :: evs).
    rewrite (to_process_cons_out _ _ _ HE).
    split; [simpl; unfold bind; by rewrite Heq|].
    split; [done|].
    split; [rewrite Htr, Htrf; by rewrite <- app_assoc|].
    split; [congruence|]. split; [congruence|].
    split; [rewrite Hfe, Hfef, ?transfers_exists, ?transfers_fetch; lia|].
    split; [rewrite ?transfers_exists, ?transfers_fetch; cbn [length]; lia|].
    split; [cbn [length]; lia|]. split; [auto|]. split.
    + eapply Forall_impl; [exact Hdisk|]. intros e (m' & Hm' & He).
      exists m'. split; [done|]. by rewrite <- (jar_key_cwd T w wf m' Hcwdf).
    + rewrite ?transfers_exists, ?transfers_fetch. lia.
Qed.

Lemma to_process_app E l1 l2 :
  to_process E (l1 ++ l2) = to_process E l1 ++ to_process E l2.
Proof. unfold to_process. by rewrite filter_app. Qed.

Lemma to_process_common E args :
  to_process E (common_ids args)
  = if common_models args && bool_decide (py "common" ∉ E) then [py "common"] else [].
Proof.
  unfold common_ids. destruct (common_models args); [|done]. simpl.
  destruct (decide (py "common" ∈ E)) as [HE|HE].
  - rewrite to_process_cons_in by done. by rewrite bool_decide_eq_false_2 by auto.
  - rewrite to_process_cons_out by done. by rewrite bool_decide_eq_true_2.
Qed.

(** The same for the whole orchestrator: the common models, then the
    languages. *)
Lemma orchestrate_summary E T args w :
  Forall (λ c, Is_true (supported c)) (requested args) →
  ∃ es w' evs,
    orchestrate args E T w = (inr es, w')
    ∧ trace w' = trace w ++ evs
    ∧ cwd w' = cwd w
    ∧ net w' = net w
    ∧ fetches w' = (fetches w + transfers evs)%nat
    ∧ (transfers evs ≤ length (to_process E (identifiers args)))%nat
    ∧ (length es ≤ length (to_process E (identifiers args)))%nat
    ∧ (∀ k, is_Some (fs w !! k) → is_Some (fs w' !! k))
    ∧ (∀ e, e ∈ es → Entry.lang_code e ≠ py "common" →
         ∃ m, LANGUAGE_MODELS !! Entry.lang_code e = Some m
              ∧ is_Some (fs w' !! jar_key T w m))
    ∧ (transfers evs = 0%nat → fs w' = fs w).
Proof.
  intros Hsup. unfold identifiers. rewrite to_process_app, length_app, to_process_common.
  set (k := jar_key T w COMMON_MODELS).
  set (wf := after_fetch (Model.url COMMON_MODELS) (jar_path T COMMON_MODELS)
               (log (FsExists k) w)).
  assert (∃ es0 w0 evs0,
            (if common_models args then process_common E T [] else ret []) w
            = (inr es0, w0)
            ∧ trace w0 = trace w ++ evs0 ∧ cwd w0 = cwd w ∧ net w0 = net w
            ∧ fetches w0 = (fetches w + transfers evs0)%nat
            ∧ (transfers evs0
               ≤ length (if common_models args && bool_decide (py "common" ∉ E)
                         then [py "common"] else []))%nat
            ∧ (length es0
               ≤ length (if common_models args && bool_decide (py "common" ∉ E)
                         then [py "common"] else []))%nat
            ∧ (∀ k, is_Some (fs w !! k) → is_Some (fs w0 !! k))
            ∧ (∀ e, e ∈ es0 → Entry.lang_code e = py "common")
            ∧ (transfers evs0 = 0%nat → fs w0 = fs w))
    as (es0 & w0 & evs0 & Heq0 & Htr0 & Hcwd0 & Hnet0 & Hfe0 & Hle0 & Hln0
        & Hmono0 & Hcom0 & Hsame0).
  { assert (∀ e : Entry.t, e ∈ [] → Entry.lang_code e = py "common") as Hnil.
    { intros e He. by apply elem_of_nil in He. }
    assert (∀ e, e ∈ [entry_of w T (py "common") COMMON_MODELS] →
                 Entry.lang_code e = py "common") as Hone.
    { intros e He. apply list_elem_of_singleton in He. by subst e. }
    destruct (common_models args); cbn [andb].
    2: { exists [], w, []. rewrite app_nil_r. by split_and!. }
    destruct (process_common_cases E T [] w)
      as [(HE & Heq)|[(HE & Hk & Heq)|(HE & Hk & Heq)]]; fold k in Heq; fold wf in Heq.
    - exists [], w, []. rewrite app_nil_r, bool_decide_eq_false_2 by auto.
      by split_and!.
    - exists [entry_of w T (py "common") COMMON_MODELS], (log (FsExists k) w),
        [FsExists k].
      rewrite bool_decide_eq_true_2 by done. rewrite transfers_exists.
      change (transfers []) with 0%nat.
      split_and!; auto; cbn [length fetches log]; lia.
    - exists [entry_of w T (py "common") COMMON_MODELS], wf,
        [FsExists k; NetFetch (Model.url COMMON_MODELS) k].
      rewrite bool_decide_eq_true_2 by done.
      rewrite transfers_exists, transfers_fetch.
      change (transfers []) with 0%nat.
      split; [done|]. subst wf.
      rewrite after_fetch_trace, after_fetch_cwd, after_fetch_net, after_fetch_fetches.
      split_and!; auto; try (cbn [length fetches log]; lia).
      + simpl. by rewrite <- app_assoc.
      + intros k' Hk'. by apply after_fetch_mono. }
  destruct (loop_summary E T (requested args) es0 w0 Hsup)
    as (es & w' & new & evs & Heq & -> & Htr & Hcwd & Hnet & Hfe & Hle & Hln
        & Hmono & Hdisk & Hsame).
  exists (es0 ++ new), w', (evs0 ++ evs).
  split; [rewrite orchestrate_requested; unfold bind; by rewrite Heq0|].
  split; [by rewrite Htr, Htr0, app_assoc|].
  split; [congruence|]. split; [congruence|].
  rewrite transfers_app, length_app.
  split; [lia|]. split; [lia|]. split; [lia|]. split; [auto|]. split.
  - intros e He Hne. apply elem_of_app in He as [He|He].
    + by specialize (Hcom0 e He).
    + rewrite Forall_forall in Hdisk. destruct (Hdisk e He) as (m & Hm & Hk).
      exists m. split; [done|]. by rewrite <- (jar_key_cwd T w w0 m Hcwd0).
  - intros H0. rewrite Hsame by lia. apply Hsame0. lia.
Qed.

(** X2.  No retry and no duplicate work: the orchestrator makes at most
    one transfer and appends at most one entry for each requested
    identifier (occurrence) outside the existing set; the transfers it
    makes are exactly the [NetFetch] actions it adds to the trace. *)
Theorem at_most_one_transfer_per_identifier argv args E T w es w' :
  parse_args argv = inr args →
  orchestrate args E T w = (inr es, w') →
  ∃ evs,
    trace w' = trace w ++ evs
    ∧ fetches w' = (fetches w + transfers evs)%nat
    ∧ (transfers evs ≤ length (to_process E (identifiers args)))%nat
    ∧ (length es ≤ length (to_process E (identifiers args)))%nat.
Proof.
  intros Hparse Hrun.
  destruct (parse_args_inr _ _ Hparse) as (Hsup & Hreq & _).
  rewrite <- Hreq in Hsup.
  destruct (orchestrate_summary E T args w Hsup)
    as (es0 & w0 & evs & Heq & Htr & _ & _ & Hfe & Hle & Hln & _).
  rewrite Hrun in Heq. injection Heq as <- <-. by exists evs.
Qed.

(** X3.  A language entry is only ever appended for an archive that is on
    disk when the orchestrator ends (found there or just fetched). *)
Theorem registered_language_archive_on_disk argv args E T w es w' e :
  parse_args argv = inr args →
  orchestrate args E T w = (inr es, w') →
  e ∈ es →
  Entry.lang_code e ≠ py "common" →
  ∃ m, LANGUAGE_MODELS !! Entry.lang_code e = Some m
       ∧ is_Some (fs w' !! jar_key T w m).
Proof.
  intros Hparse Hrun He Hne.
  destruct (parse_args_inr _ _ Hparse) as (Hsup & Hreq & _).
  rewrite <- Hreq in Hsup.
  destruct (orchestrate_summary E T args w Hsup)
    as (es0 & w0 & evs & Heq & _ & _ & _ & _ & _ & _ & _ & Hdisk & _).
  rewrite Hrun in Heq. injection Heq as <- <-. by apply Hdisk.
Qed.


(** ** When everything needed is at hand *)

Lemma loop_available E T codes : ∀ es w,
  Forall (λ c, Is_true (supported c)) codes →
  (∀ c m, c ∈ codes → c ∉ E → LANGUAGE_MODELS !! c = Some m →
     is_Some (fs w !! jar_key T w m) ∨ fetch_succeeds w (Model.url m)) →
  ∃ es' w' evs,
    process_languages E T es codes w = (inr es', w')
    ∧ Entry.lang_code <$> es' = (Entry.lang_code <$> es) ++ to_process E codes
    ∧ trace w' = trace w ++ evs
    ∧ ((∀ c m, c ∈ codes → c ∉ E → LANGUAGE_MODELS !! c = Some m →
          is_Some (fs w !! jar_key T w m)) →
       transfers evs = 0%nat ∧ fs w' = fs w ∧ fetches w' = fetches w).
Proof.
  induction codes as [|c codes IH]; intros es w Hsup Hav.
  { exists es, w, []. rewrite !app_nil_r. by split_and!. }
  apply Forall_cons in Hsup as [Hc Hsup].
  destruct (supported_lookup _ Hc) as [m Hm].
  assert (c ∈ c :: codes) as Hin by (apply elem_of_cons; by left).
  set (k := jar_key T w m).
  set (wf := after_fetch (Model.url m) (jar_path T m) (log (FsExists k) w)).
  destruct (process_language_cases E T es c m w Hm)
    as [(HE & Heq)|[(HE & Hk & Heq)|[(HE & Hk & Hok & Heq)|(HE & Hk & Hok & Heq)]]];
    fold k in Heq; fold wf in Heq.
  - destruct (IH es w Hsup) as (es' & w' & evs & Heq' & Hcodes & Htr & Hdisk).
    { intros c' m' Hc'. apply Hav. apply elem_of_cons. by right. }
    exists es', w', evs. rewrite (to_process_cons_in _ _ _ HE).
    split; [simpl; unfold bind; by rewrite Heq|]. split; [done|]. split; [done|].
    intros Hall. apply Hdisk. intros c' m' Hc'. apply Hall. apply elem_of_cons. by right.
  - destruct (IH (es ++ [entry_of w T c m]) (log (FsExists k) w) Hsup)
      as (es' & w' & evs & Heq' & Hcodes & Htr & Hdisk).
    { intros c' m' Hc'. apply (Hav c' m'). apply elem_of_cons. by right. }
    exists es', w', (FsExists k :: evs). rewrite (to_process_cons_out _ _ _ HE).
    split; [simpl; unfold bind; by rewrite Heq|].
    split; [rewrite Hcodes, fmap_app; by rewrite <- app_assoc|].
    split; [rewrite Htr; simpl; by rewrite <- app_assoc|].
    intros Hall. rewrite transfers_exists. apply Hdisk.
    intros c' m' Hc'. apply (Hall c' m'). apply elem_of_cons. by right.
  - assert (cwd wf = cwd w) as Hcwdf by (subst wf; by rewrite after_fetch_cwd).
    assert (net wf = net w) as Hnetf by (subst wf; by rewrite after_fetch_net).
    destruct (IH (es ++ [entry_of w T c m]) wf Hsup)
      as (es' & w' & evs & Heq' & Hcodes & Htr & Hdisk).
    { intros c' m' Hc' HE' Hm'. rewrite (jar_key_cwd T w wf m' Hcwdf).
      destruct (Hav c' m') as [H|H]; auto; [apply elem_of_cons; by right| |].
      - left. subst wf. by apply after_fetch_mono.
      - right. by eapply fetch_succeeds_net. }
    exists es', w', (FsExists k :: NetFetch (Model.url m) k :: evs).
    rewrite (to_process_cons_out _ _ _ HE).
    split; [simpl; unfold bind; by rewrite Heq|].
    split; [rewrite Hcodes, fmap_app; by rewrite <- app_assoc|].
    split.
    { rewrite Htr. subst wf. rewrite after_fetch_trace. simpl.
      by rewrite <- !app_assoc. }
    intros Hall. destruct (Hall c m Hin HE Hm) as [? Hsome].
    unfold k in *. congruence.
  - exfalso. destruct (Hav c m Hin HE Hm) as [[? H]|H].
    + unfold k in *. congruence.
    + rewrite (fetch_succeeds_ok _ _ H) in Hok. done.
Qed.

Lemma common_entries_codes args E T w :
  Entry.lang_code <$> common_entries args E T w = to_process E (common_ids args).
Proof.
  rewrite to_process_common. unfold common_entries.
  by destruct (common_models args && bool_decide (py "common" ∉ E)).
Qed.

Lemma orchestrate_available args E T w :
  Forall (λ c, Is_true (supported c)) (requested args) →
  (∀ c m, c ∈ requested args → c ∉ E → LANGUAGE_MODELS !! c = Some m →
     is_Some (fs w !! jar_key T w m) ∨ fetch_succeeds w (Model.url m)) →
  ∃ es w',
    orchestrate args E T w = (inr es, w')
    ∧ Entry.lang_code <$> es = to_process E (identifiers args).
Proof.
  intros Hsup Hav.
  destruct (common_part E T args w) as (w0 & Heq0 & Hp0 & _).
  pose proof (post_cwd _ _ _ _ _ _ _ Hp0) as Hcwd0.
  pose proof (post_net _ _ _ _ _ _ _ Hp0) as Hnet0.
  destruct (loop_available E T (requested args) (common_entries args E T w) w0 Hsup)
    as (es & w' & evs & Heq & Hcodes & _).
  { intros c m Hc HE Hm. rewrite (jar_key_cwd T w w0 m Hcwd0).
    destruct (Hav c m Hc HE Hm) as [H|H].
    - left. by eapply post_mono.
    - right. by eapply fetch_succeeds_net. }
  exists es, w'. split.
  - rewrite orchestrate_requested. unfold bind. by rewrite Heq0.
  - rewrite Hcodes, common_entries_codes. unfold identifiers.
    by rewrite to_process_app.
Qed.

Lemma orchestrate_on_disk args E T w :
  Forall (λ c, Is_true (supported c)) (requested args) →
  (∀ c m, c ∈ identifiers args → c ∉ E → (c, m) ∈ CATALOG →
     is_Some (fs w !! jar_key T w m)) →
  ∃ es w' evs,
    orchestrate args E T w = (inr es, w')
    ∧ trace w' = trace w ++ evs
    ∧ transfers evs = 0%nat
    ∧ fetches w' = fetches w
    ∧ fs w' = fs w
    ∧ Entry.lang_code <$> es = to_process E (identifiers args).
Proof.
  intros Hsup Hall.
  assert (∃ w0 evs0,
            (if common_models args then process_common E T [] else ret []) w
            = (inr (common_entries args E T w), w0)
            ∧ trace w0 = trace w ++ evs0 ∧ transfers evs0 = 0%nat
            ∧ fetches w0 = fetches w ∧ fs w0 = fs w ∧ cwd w0 = cwd w)
    as (w0 & evs0 & Heq0 & Htr0 & Hno0 & Hfe0 & Hfs0 & Hcwd0).
  { unfold common_entries. destruct (common_models args) eqn:Hflag; cbn [andb].
    2: { exists w, []. rewrite app_nil_r. by split_and!. }
    destruct (process_common_cases E T [] w)
      as [(HE & Heq)|[(HE & Hk & Heq)|(HE & Hk & Heq)]].
    - exists w, []. rewrite app_nil_r, bool_decide_eq_false_2 by auto.
      by split_and!.
    - exists (log (FsExists (jar_key T w COMMON_MODELS)) w),
        [FsExists (jar_key T w COMMON_MODELS)].
      rewrite bool_decide_eq_true_2 by done. rewrite transfers_exists.
      by split_and!.
    - exfalso. destruct (Hall (py "common") COMMON_MODELS) as [? Hsome]; auto.
      + unfold identifiers, common_ids. rewrite Hflag.
        apply elem_of_app. left. apply list_elem_of_singleton. done.
      + apply common_in_catalog.
      + congruence. }
  destruct (loop_available E T (requested args) (common_entries args E T w) w0 Hsup)
    as (es & w' & evs & Heq & Hcodes & Htr & Hdisk).
  { intros c m Hc HE Hm. left. rewrite (jar_key_cwd T w w0 m Hcwd0), Hfs0.
    apply (Hall c m); auto using language_in_catalog.
    unfold identifiers. apply elem_of_app. by right. }
  destruct Hdisk as (Hno & Hfs & Hfe).
  { intros c m Hc HE Hm. rewrite (jar_key_cwd T w w0 m Hcwd0), Hfs0.
    apply (Hall c m); auto using language_in_catalog.
    unfold identifiers. apply elem_of_app. by right. }
  exists es, w', (evs0 ++ evs). split_and!.
  - rewrite orchestrate_requested. unfold bind. by rewrite Heq0.
  - by rewrite Htr, Htr0, app_assoc.
  - rewrite transfers_app. lia.
  - congruence.
  - congruence.
  - rewrite Hcodes, common_entries_codes. unfold identifiers.
    by rewrite to_process_app.
Qed.

(** X5.  When every requested language code outside the existing set has
    its archive on disk or can be fetched, the entries are, in order,
    exactly the requested identifiers outside the existing set (the common
    models first), one entry per occurrence. *)
Theorem available_identifiers_all_registered argv args E T w :
  parse_args argv = inr args →
  (∀ c m, c ∈ opt_language argv → c ∉ E → LANGUAGE_MODELS !! c = Some m →
     is_Some (fs w !! jar_key T w m) ∨ fetch_succeeds w (Model.url m)) →
  ∃ es w',
    orchestrate args E T w = (inr es, w')
    ∧ Entry.lang_code <$> es = to_process E (identifiers args).
Proof.
  intros Hparse Hav.
  destruct (parse_args_inr _ _ Hparse) as (Hsup & Hreq & _).
  rewrite <- Hreq in *. by apply orchestrate_available.
Qed.

(** X6.  A run for which every requested identifier outside the existing
    set already has its archive on disk never touches the network and
    leaves the file system as it was, and registers every one of them. *)
Theorem all_on_disk_no_network argv args E T w :
  parse_args argv = inr args →
  (∀ c m, c ∈ identifiers args → c ∉ E → (c, m) ∈ CATALOG →
     is_Some (fs w !! jar_key T w m)) →
  ∃ es w' evs,
    orchestrate args E T w = (inr es, w')
    ∧ trace w' = trace w ++ evs
    ∧ transfers evs = 0%nat
    ∧ fetches w' = fetches w
    ∧ fs w' = fs w
    ∧ Entry.lang_code <$> es = to_process E (identifiers args).
Proof.
  intros Hparse Hall.
  destruct (parse_args_inr _ _ Hparse) as (Hsup & Hreq & _).
  rewrite <- Hreq in *. by apply orchestrate_on_disk.
Qed.

(** ** Directory creation *)

Lemma blocked_nil f : ¬ blocked f [].
Proof. intros (k & n & Hin & _). by apply elem_of_nil in Hin. Qed.

Lemma blocked_here f k ks n : f !! k = Some n → n ≠ Dir → blocked f (k :: ks).
Proof. intros Hk Hn. exists k, n. split; [apply elem_of_cons; by left|done]. Qed.

Lemma blocked_later f k ks : blocked f ks → blocked f (k :: ks).
Proof.
  intros (k' & n & Hin & H). exists k', n.
  split; [apply elem_of_cons; by right|done].
Qed.

Lemma blocked_cons_inv f k ks :
  blocked f (k :: ks) → f !! k = None ∨ f !! k = Some Dir → blocked f ks.
Proof.
  intros (k' & n & Hin & Hf & Hn) Hk.
  apply elem_of_cons in Hin as [->|Hin]; [|by exists k', n].
  destruct Hk as [Hk|Hk]; rewrite Hk in Hf; [done|]. injection Hf as <-. done.
Qed.

Lemma blocked_insert f k ks :
  f !! k = None → blocked (<[k := Dir]> f) ks ↔ blocked f ks.
Proof.
  intros Hk. split; intros (k' & n & Hin & Hf & Hn); exists k', n;
    (split; [done|]); (split; [|done]).
  - destruct (decide (k = k')) as [->|Hne].
    + rewrite lookup_insert_eq in Hf. injection Hf as <-. done.
    + by rewrite lookup_insert_ne in Hf.
  - rewrite lookup_insert_ne; [done|]. intros ->. congruence.
Qed.

Lemma mkdir_each_ok T ks : ∀ f,
  ¬ blocked f ks →
  ∃ f', mkdir_each T ks f = inr f'
        ∧ (∀ k, k ∈ ks → f' !! k = Some Dir)
        ∧ (∀ k, is_Some (f !! k) → f' !! k = f !! k)
        ∧ (∀ k, k ∉ ks → f' !! k = f !! k).
Proof.
  induction ks as [|k ks IH]; intros f Hfree.
  { exists f. split_and!; auto. intros k Hk. by apply elem_of_nil in Hk. }
  simpl. destruct (f !! k) as [[c| |]|] eqn:Hk.
  - exfalso. apply Hfree. by apply (blocked_here f k ks (File c)).
  - destruct (IH f) as (f' & Heq & Hdirs & Hkeep & Hother).
    { intros Hb. by apply Hfree, blocked_later. }
    exists f'. split; [done|]. split_and!; auto.
    + intros k' Hin. apply elem_of_cons in Hin as [->|Hin]; [|auto].
      rewrite Hkeep; [done|]. rewrite Hk. eauto.
    + intros k' Hnin. apply not_elem_of_cons in Hnin as [_ Hnin]. auto.
  - exfalso. apply Hfree. by apply (blocked_here f k ks Binary).
  - destruct (IH (<[k := Dir]> f)) as (f' & Heq & Hdirs & Hkeep & Hother).
    { intros Hb. apply Hfree, blocked_later. by apply (blocked_insert f k ks Hk). }
    exists f'. split; [done|]. split_and!.
    + intros k' Hin. apply elem_of_cons in Hin as [->|Hin]; [|auto].
      rewrite Hkeep; rewrite lookup_insert_eq; eauto.
    + intros k' Hsome. destruct (decide (k = k')) as [->|Hne].
      * rewrite Hk in Hsome. by destruct Hsome.
      * rewrite Hkeep; rewrite lookup_insert_ne; auto.
    + intros k' Hnin. apply not_elem_of_cons in Hnin as [Hne Hnin].
      rewrite Hother by done. by rewrite lookup_insert_ne.
Qed.

(** Which exception [mkdir] raises: [NotADirectoryError] when the
    obstacle is above the last key, [FileExistsError] when it is the last
    key itself. *)
Lemma mkdir_each_blocked T ks : ∀ f,
  blocked f ks →
  ∃ e, mkdir_each T ks f = inl e
       ∧ (blocked f (removelast ks) → e = NotADirectoryError T)
       ∧ (¬ blocked f (removelast ks) → e = FileExistsError T).
Proof.
  induction ks as [|k ks IH]; intros f Hb; [by destruct (blocked_nil f)|].
  assert (∀ n, f !! k = Some n → n ≠ Dir →
            ∃ e, (match ks with
                  | [] => FileExistsError T
                  | _ => NotADirectoryError T
                  end) = e
                 ∧ (blocked f (removelast (k :: ks)) → e = NotADirectoryError T)
                 ∧ (¬ blocked f (removelast (k :: ks)) → e = FileExistsError T))
    as Hhere.
  { intros n Hk Hn. eexists. split; [reflexivity|]. destruct ks as [|k' ks'].
    - split; [|done]. intros H. by destruct (blocked_nil f).
    - split; [done|]. intros H. exfalso. apply H.
      change (removelast (k :: k' :: ks')) with (k :: removelast (k' :: ks')).
      by apply (blocked_here f k _ n). }
  assert (∀ f', f !! k = None ∨ f !! k = Some Dir →
            (∀ l, blocked f' l ↔ blocked f l) →
            (∃ e, mkdir_each T ks f' = inl e
                  ∧ (blocked f' (removelast ks) → e = NotADirectoryError T)
                  ∧ (¬ blocked f' (removelast ks) → e = FileExistsError T)) →
            ∃ e, mkdir_each T ks f' = inl e
                 ∧ (blocked f (removelast (k :: ks)) → e = NotADirectoryError T)
                 ∧ (¬ blocked f (removelast (k :: ks)) → e = FileExistsError T))
    as Hnext.
  { intros f' Hk Hsame (e & Heq & Hup & Hlast). exists e. split; [done|].
    pose proof (blocked_cons_inv f k ks Hb Hk) as Hb'.
    destruct ks as [|k' ks']; [by destruct (blocked_nil f)|].
    change (removelast (k :: k' :: ks')) with (k :: removelast (k' :: ks')).
    split.
    - intros H. apply Hup, Hsame. by apply (blocked_cons_inv f k).
    - intros H. apply Hlast. intros H'. apply H, blocked_later. by apply Hsame. }
  simpl. destruct (f !! k) as [[c| |]|] eqn:Hk.
  - destruct (Hhere (File c) eq_refl) as (e & <- & H1 & H2); [done|]. eauto.
  - apply Hnext; [by right|done|]. apply IH.
    apply (blocked_cons_inv f k ks Hb). by right.
  - destruct (Hhere Binary eq_refl) as (e & <- & H1 & H2); [done|]. eauto.
  - apply Hnext; [by left|intros l; by apply blocked_insert|]. apply IH.
    apply blocked_insert; [done|]. apply (blocked_cons_inv f k ks Hb). by left.
Qed.

Lemma ancestors_removelast r todo : ∀ seen,
  removelast (ancestors r seen todo) = ancestors r seen (removelast todo).
Proof.
  induction todo as [|c todo IH]; intros seen; [done|].
  destruct todo as [|c' todo]; [done|].
  change (ancestors r seen (c :: c' :: todo))
    with ({| root := r; parts := seen ++ [c] |}
          :: ancestors r (seen ++ [c]) (c' :: todo)).
  change (removelast (c :: c' :: todo)) with (c :: removelast (c' :: todo)).
  change (ancestors r seen (c :: removelast (c' :: todo)))
    with ({| root := r; parts := seen ++ [c] |}
          :: ancestors r (seen ++ [c]) (removelast (c' :: todo))).
  rewrite <- IH. reflexivity.
Qed.

(** The directories above the target are the keys of [mkdir] but the
    last. *)
Lemma mkdir_keys_parents w T :
  removelast (mkdir_keys w T) = parents (absolute (cwd w) T).
Proof. unfold mkdir_keys, parents. apply ancestors_removelast. Qed.

(** ** The stages of a run *)

Lemma load_frame path w r w' :
  load_existing_models path w = (r, w') →
  fs w' = fs w ∧ cwd w' = cwd w ∧ net w' = net w ∧ fetches w' = fetches w
  ∧ ∃ evs, trace w' = trace w ++ evs
           ∧ ∀ ev, ev ∈ evs →
               ∃ p, path = Some p
                    ∧ (ev = FsExists (fs_key w (parse_path p))
                       ∨ ev = FsOpenRead (fs_key w (parse_path p))).
Proof.
  intros Hload. destruct path as [p|].
  2: { injection Hload as <- <-. split_and!; auto. exists [].
       rewrite app_nil_r. split; [done|]. intros ev Hev. by apply elem_of_nil in Hev. }
  destruct (decide (p = [])) as [->|Hp].
  { injection Hload as <- <-. split_and!; auto. exists [].
    rewrite app_nil_r. split; [done|]. intros ev Hev. by apply elem_of_nil in Hev. }
  set (k := fs_key w (parse_path p)).
  assert (∀ ev, ev ∈ [FsExists k; FsOpenRead k] →
            ∃ p0, Some p = Some p0
                  ∧ (ev = FsExists (fs_key w (parse_path p0))
                     ∨ ev = FsOpenRead (fs_key w (parse_path p0)))) as Hboth.
  { intros ev Hev. exists p. split; [done|].
    apply elem_of_cons in Hev as [->|Hev]; [by left|].
    apply list_elem_of_singleton in Hev. subst ev. by right. }
  destruct (node_at (fs w) k) as [n|] eqn:Hk.
  - rewrite (load_found p w Hp n Hk) in Hload. cbv zeta in Hload. fold k in Hload.
    assert (w' = log (FsOpenRead k) (log (FsExists k) w)) as ->.
    { destruct n, (tail p); by injection Hload. }
    split_and!; auto. exists [FsExists k; FsOpenRead k].
    split; [simpl; by rewrite <- app_assoc|done].
  - rewrite (load_missing p w Hp Hk) in Hload. injection Hload as <- <-.
    split_and!; auto. exists [FsExists k]. split; [done|].
    intros ev Hev. apply Hboth. apply list_elem_of_singleton in Hev. subst ev.
    apply elem_of_cons. by left.
Qed.

(** X7.  The loader only reads: whatever it returns, the file system is
    left as it was, no transfer is made, and the only actions are an
    existence check and, when something is there, one opening of the data
    table for reading. *)
Theorem load_existing_models_read_only path w r w' :
  load_existing_models path w = (r, w') →
  fs w' = fs w ∧ cwd w' = cwd w ∧ net w' = net w ∧ fetches w' = fetches w
  ∧ ∃ evs, trace w' = trace w ++ evs
           ∧ ∀ ev, ev ∈ evs →
               ∃ p, path = Some p
                    ∧ (ev = FsExists (fs_key w (parse_path p))
                       ∨ ev = FsOpenRead (fs_key w (parse_path p))).
Proof. apply load_frame. Qed.

(** How the loader fails: on a directory, on a regular file that the
    path names as a directory, or on a file that is not text. *)
Lemma load_abort path w a w' :
  load_existing_models path w = (inl a, w') →
  ∃ p n, path = Some p ∧ p ≠ []
    ∧ node_at (fs w) (fs_key w (parse_path p)) = Some n
    ∧ ((n = Dir ∧ a = Uncaught (IsADirectoryError (fs_key w (parse_path p))))
       ∨ (n ≠ Dir ∧ tail p ≠ Plain
          ∧ a = Uncaught (NotADirectoryError (fs_key w (parse_path p))))
       ∨ (n = Binary ∧ tail p = Plain
          ∧ a = Uncaught (UnicodeDecodeError (fs_key w (parse_path p))))).
Proof.
  destruct path as [p|]; [|by intros [=]].
  destruct (decide (p = [])) as [->|Hp]; [by intros [=]|].
  destruct (node_at (fs w) (fs_key w (parse_path p))) as [n|] eqn:Hk.
  2: { rewrite (load_missing p w Hp Hk). by intros [=]. }
  rewrite (load_found p w Hp n Hk). cbv zeta. intros Hload.
  exists p, n. split_and!; [done..|].
  destruct n, (tail p) eqn:Ht; try discriminate Hload;
    injection Hload as <- <-;
    first [ by left
          | right; left; by split_and!
          | right; right; by split_and! ].
Qed.

(** When the loader returns. *)
Lemma load_inr path w E w' :
  load_existing_models path w = (inr E, w') →
  (E = ∅
   ∧ (path = None ∨ path = Some []
      ∨ ∃ p, path = Some p ∧ node_at (fs w) (fs_key w (parse_path p)) = None))
  ∨ ∃ p content, path = Some p ∧ p ≠ [] ∧ tail p = Plain
      ∧ node_at (fs w) (fs_key w (parse_path p)) = Some (File content)
      ∧ E = existing_set_spec (file_lines content).
Proof.
  destruct path as [p|]; [|intros [= <- _]; left; auto].
  destruct (decide (p = [])) as [->|Hp]; [intros [= <- _]; left; auto|].
  destruct (node_at (fs w) (fs_key w (parse_path p))) as [n|] eqn:Hk.
  2: { rewrite (load_missing p w Hp Hk). intros [= <- _]. left.
       split; [done|]. right. right. by exists p. }
  rewrite (load_found p w Hp n Hk). cbv zeta.
  destruct n as [c| |], (tail p) eqn:Ht; try by intros [=].
  intros [= <- _]. right. exists p, c. split_and!; auto.
  unfold file_lines. by rewrite foldl_add_line, union_empty_r_L.
Qed.

Lemma mkdir_parents_cases T w r w' :
  mkdir_parents T w = (r, w') →
  cwd w' = cwd w ∧ net w' = net w ∧ fetches w' = fetches w
  ∧ trace w' = trace w ++ [FsMkdir (absolute (cwd w) T)]
  ∧ ((blocked (fs w) (mkdir_keys w T)
      ∧ fs w' = fs w
      ∧ ∃ e, r = inl (Uncaught e)
             ∧ (blocked (fs w) (parents (absolute (cwd w) T)) →
                e = NotADirectoryError (absolute (cwd w) T))
             ∧ (¬ blocked (fs w) (parents (absolute (cwd w) T)) →
                e = FileExistsError (absolute (cwd w) T)))
     ∨ (r = inr () ∧ ¬ blocked (fs w) (mkdir_keys w T)
        ∧ (∀ k, k ∈ mkdir_keys w T → fs w' !! k = Some Dir)
        ∧ (∀ k, is_Some (fs w !! k) → fs w' !! k = fs w !! k)
        ∧ (∀ k, k ∉ mkdir_keys w T → fs w' !! k = fs w !! k))).
Proof.
  unfold mkdir_parents. rewrite <- (mkdir_keys_parents w T).
  fold (mkdir_keys w T).
  destruct (blocked_dec (fs w) (mkdir_keys w T)) as [Hb|Hb].
  - destruct (mkdir_each_blocked (absolute (cwd w) T) _ _ Hb)
      as (e & -> & Hup & Hlast).
    intros [= <- <-]. split_and!; auto. left. split_and!; auto. by exists e.
  - destruct (mkdir_each_ok (absolute (cwd w) T) _ _ Hb)
      as (f' & -> & Hdirs & Hkeep & Hother).
    intros [= <- <-]. split_and!; auto. right. by split_and!.
Qed.

Lemma run_stages args w :
  Forall (λ c, Is_true (supported c)) (requested args) →
  truthy (language args) || common_models args = true →
  let T := parse_path (target_directory args) in
  ∃ r1 w1,
    load_existing_models (data_table args) w = (r1, w1)
    ∧ match r1 with
      | inl a => run args w = (inl a, w1)
      | inr E =>
          ∃ r2 w2,
            mkdir_parents T w1 = (r2, w2)
            ∧ match r2 with
              | inl a => run args w = (inl a, w2)
              | inr _ =>
                  ∃ es w3,
                    orchestrate args E T w2 = (inr es, w3)
                    ∧ collect_entries args w = (inr es, w3)
                    ∧ run args w = write_manifest args es w3
              end
      end.
Proof.
  intros Hsup Hsel T. unfold run.
  assert (negb (truthy (language args)) && negb (common_models args) = false) as ->.
  { destruct (truthy (language args)), (common_models args); done. }
  unfold collect_entries, bind. fold T.
  destruct (load_existing_models (data_table args) w) as [[a|E] w1].
  { exists (inl a), w1. split; reflexivity. }
  exists (inr E), w1. split; [reflexivity|].
  destruct (mkdir_parents T w1) as [[a|[]] w2].
  { exists (inl a), w2. split; reflexivity. }
  exists (inr ()), w2. split; [reflexivity|].
  destruct (orchestrate_post E T args w2 Hsup) as (w0 & es & w3 & _ & _ & Heq & _).
  exists es, w3. rewrite Heq. split_and!; reflexivity.
Qed.

Lemma mkdir_keys_cwd w w' T : cwd w' = cwd w → mkdir_keys w' T = mkdir_keys w T.
Proof. intros H. unfold mkdir_keys. by rewrite H. Qed.


(** The three ways a run with accepted arguments can go: the data table
    cannot be read, the target directory cannot be created, or the
    entries are collected and handed to the writer. *)
Lemma run_chain args w :
  Forall (λ c, Is_true (supported c)) (requested args) →
  truthy (language args) || common_models args = true →
  let T := parse_path (target_directory args) in
  (∃ p n a w1, data_table args = Some p ∧ p ≠ []
     ∧ node_at (fs w) (fs_key w (parse_path p)) = Some n
     ∧ ((n = Dir ∧ a = Uncaught (IsADirectoryError (fs_key w (parse_path p))))
        ∨ (n ≠ Dir ∧ tail p ≠ Plain
           ∧ a = Uncaught (NotADirectoryError (fs_key w (parse_path p))))
        ∨ (n = Binary ∧ tail p = Plain
           ∧ a = Uncaught (UnicodeDecodeError (fs_key w (parse_path p)))))
     ∧ run args w = (inl a, w1)
     ∧ fs w1 = fs w ∧ fetches w1 = fetches w
     ∧ load_existing_models (data_table args) w = (inl a, w1))
  ∨ (∃ E w1 e w2,
       load_existing_models (data_table args) w = (inr E, w1)
       ∧ blocked (fs w) (mkdir_keys w T)
       ∧ (blocked (fs w) (parents (absolute (cwd w) T)) →
          e = NotADirectoryError (absolute (cwd w) T))
       ∧ (¬ blocked (fs w) (parents (absolute (cwd w) T)) →
          e = FileExistsError (absolute (cwd w) T))
       ∧ run args w = (inl (Uncaught e), w2)
       ∧ fs w2 = fs w ∧ fetches w2 = fetches w)
  ∨ (∃ E w1 w2 es w3,
       load_existing_models (data_table args) w = (inr E, w1)
       ∧ ¬ blocked (fs w) (mkdir_keys w T)
       ∧ (∀ k, k ∈ mkdir_keys w T → fs w2 !! k = Some Dir)
       ∧ (∀ k, is_Some (fs w !! k) → fs w2 !! k = fs w !! k)
       ∧ (∀ k, k ∉ mkdir_keys w T → fs w2 !! k = fs w !! k)
       ∧ cwd w2 = cwd w ∧ net w2 = net w ∧ fetches w2 = fetches w
       ∧ orchestrate args E T w2 = (inr es, w3)
       ∧ step_post E T (identifiers args) w2 [] w3 es
       ∧ collect_entries args w = (inr es, w3)
       ∧ run args w = write_manifest args es w3).
Proof.
  intros Hsup Hsel T.
  destruct (run_stages args w Hsup Hsel) as (r1 & w1 & Hload & Hrest).
  destruct (load_frame _ _ _ _ Hload) as (Hfs1 & Hcwd1 & Hnet1 & Hfe1 & _).
  destruct r1 as [a|E].
  { left. destruct (load_abort _ _ _ _ Hload) as (p & n & Hp & Hne & Hn & Hcase).
    exists p, n, a, w1. by split_and!. }
  right. destruct Hrest as (r2 & w2 & Hmk & Hrest). fold T in Hmk.
  destruct (mkdir_parents_cases _ _ _ _ Hmk)
    as (Hcwd2 & Hnet2 & Hfe2 & _ & [(Hb & Hfs2 & e & -> & Hup & Hlast)
                                   |(-> & Hfree & Hdirs & Hkeep & Hother)]).
  { left. exists E, w1, e, w2.
    rewrite (mkdir_keys_cwd w w1 T Hcwd1) in Hb. rewrite Hcwd1 in Hup, Hlast.
    rewrite Hfs1 in Hb, Hup, Hlast. split_and!; auto; congruence. }
  right. destruct Hrest as (es & w3 & Horch & Hcollect & Hrun).
  destruct (orchestrate_post E T args w2 Hsup)
    as (w0 & es' & w3' & _ & _ & Heq & _ & Hp & _).
  fold T in Horch. rewrite Horch in Heq. injection Heq as <- <-.
  rewrite (mkdir_keys_cwd w w1 T Hcwd1), Hfs1 in *.
  exists E, w1, w2, es, w3. split_and!; auto; congruence.
Qed.

Lemma main_accepted argv args w :
  parse_args argv = inr args →
  Forall (λ c, Is_true (supported c)) (requested args) ∧ main argv w = run args w.
Proof.
  intros Hparse. destruct (parse_args_inr _ _ Hparse) as (Hsup & Hreq & _).
  rewrite <- Hreq in Hsup. split; [done|]. unfold main. by rewrite Hparse.
Qed.

Lemma run_unselected args w :
  truthy (language args) || common_models args = false →
  run args w = (inl (Usage AtLeastOne), w).
Proof.
  intros H. apply orb_false_iff in H as [Ht Hc]. unfold run. by rewrite Ht, Hc.
Qed.

(** What [open(file, "w")] does. *)
Lemma write_text_cases file text w r w' :
  write_text file text w = (r, w') →
  let k := fs_key w (parse_path file) in
  (r = inr () ∧ file ≠ [] ∧ tail file = Plain
   ∧ node_at (fs w) k ≠ Some Dir
   ∧ (node_at (fs w) k = None → Forall (λ d, fs w !! d = Some Dir) (parents k))
   ∧ fs w' = <[k := File text]> (fs w))
  ∨ (∃ e, r = inl (Uncaught e) ∧ fs w' = fs w
          ∧ (e = IsADirectoryError k ∨ e = NotADirectoryError k
             ∨ e = FileNotFoundError k)).
Proof.
  intros Hw k. unfold write_text in Hw. cbv zeta in Hw. fold k in Hw.
  assert (∀ e : Path → Exn,
            e k = IsADirectoryError k ∨ e k = NotADirectoryError k
            ∨ e k = FileNotFoundError k →
            (inl (Uncaught (e k)), log (FsOpenWrite k) w) = (r, w') →
            ∃ e0, r = inl (Uncaught e0) ∧ fs w' = fs w
                  ∧ (e0 = IsADirectoryError k ∨ e0 = NotADirectoryError k
                     ∨ e0 = FileNotFoundError k)) as Hfail.
  { intros e He [= <- <-]. exists (e k). by split_and!. }
  destruct (decide (file = [])) as [->|Hne].
  { right. apply (Hfail FileNotFoundError); auto. }
  rewrite bool_decide_eq_false_2 in Hw by done.
  destruct (node_at (fs w) k) as [n|] eqn:Hk.
  - assert (n = Dir ∨ n ≠ Dir) as [->|Hn] by (destruct n; auto).
    { right. apply (Hfail IsADirectoryError); auto. }
    destruct (tail file) eqn:Ht.
    + left. assert ((inr (), set_fs (<[k := File text]> (fs w))
                               (log (FsOpenWrite k) w)) = (r, w')) as [= <- <-]
        by (by destruct n).
      split_and!; [reflexivity|exact Hne|reflexivity|congruence
                  |intros H; discriminate H|reflexivity].
    + right. apply (Hfail IsADirectoryError); [auto|by destruct n].
    + right. apply (Hfail NotADirectoryError); [auto|by destruct n].
  - destruct (reach (fs w) (parents k)) eqn:Hr.
    + destruct (tail file) eqn:Ht.
      * left. injection Hw as <- <-.
        split_and!; [reflexivity|exact Hne|reflexivity|intros H; discriminate H
                    |intros _; by apply reach_Reached|reflexivity].
      * right. apply (Hfail IsADirectoryError); auto.
      * right. apply (Hfail FileNotFoundError); auto.
    + right. apply (Hfail FileNotFoundError); auto.
    + right. apply (Hfail NotADirectoryError); auto.
Qed.


Lemma ancestors_last r todo : ∀ seen,
  todo ≠ [] → {| root := r; parts := seen ++ todo |} ∈ ancestors r seen todo.
Proof.
  induction todo as [|c todo IH]; intros seen Hne; [done|].
  simpl. destruct todo as [|c' todo].
  - apply elem_of_cons. by left.
  - apply elem_of_cons. right.
    replace (seen ++ c :: c' :: todo) with ((seen ++ [c]) ++ c' :: todo)
      by (by rewrite <- app_assoc).
    by apply IH.
Qed.

Lemma write_manifest_cases args es w r w' :
  write_manifest args es w = (r, w') →
  let out := fs_key w (parse_path (output args)) in
  (r = inr () ∧ node_at (fs w) out ≠ Some Dir
   ∧ fs w' = <[out := File (json_dumps 2 (data_manager_output es))]> (fs w))
  ∨ (∃ e, r = inl (Uncaught e) ∧ fs w' = fs w).
Proof.
  intros Hw out. unfold write_manifest in Hw.
  destruct (write_text_cases _ _ _ _ _ Hw)
    as [(-> & _ & _ & Hk & _ & Hfs)|(e & -> & Hfs & _)]; [left|right]; eauto.
Qed.

(** X9.  After a run that ends normally the target directory and all its
    ancestors exist as directories. *)
Theorem target_directory_created argv args w w' :
  parse_args argv = inr args →
  main argv w = (inr (), w') →
  let T := parse_path (target_directory args) in
  (∀ k, k ∈ mkdir_keys w T → fs w' !! k = Some Dir)
  ∧ (parts (absolute (cwd w) T) ≠ [] → fs w' !! absolute (cwd w) T = Some Dir).
Proof.
  intros Hparse Hmain T.
  destruct (main_accepted argv args w Hparse) as [Hsup Hrun].
  rewrite Hrun in Hmain.
  destruct (truthy (language args) || common_models args) eqn:Hsel.
  2: { rewrite (run_unselected _ _ Hsel) in Hmain. by injection Hmain. }
  assert (∀ k, k ∈ mkdir_keys w T → fs w' !! k = Some Dir) as Hdirs.
  { destruct (run_chain args w Hsup Hsel)
      as [(p & n & a & w1 & _ & _ & _ & _ & Heq & _)
         |[(E & w1 & e' & w2 & _ & _ & _ & _ & Heq & _)
          |(E & w1 & w2 & es & w3 & _ & _ & Hdirs & _ & _ & Hcwd2 & _ & _ & _ & Hp
            & _ & Heq)]];
      rewrite Heq in Hmain; [by injection Hmain..|].
    assert (cwd w3 = cwd w) as Hcwd3 by (by rewrite (post_cwd _ _ _ _ _ _ _ Hp)).
    destruct (write_manifest_cases _ _ _ _ _ Hmain)
      as [(_ & Hout & Hfs)|(e & [=] & _)].
    intros k Hk. fold T in Hdirs.
    assert (fs w3 !! k = Some Dir) as Hk3.
    { destruct (post_fs _ _ _ _ _ _ _ Hp k) as [->|[Hn _]]; [by apply Hdirs|].
      rewrite (Hdirs k Hk) in Hn. done. }
    rewrite Hfs, lookup_insert_ne; [done|]. intros <-.
    apply Hout. by apply node_at_Dir. }
  split; [done|]. intros Hne. apply Hdirs. unfold mkdir_keys.
  destruct (absolute (cwd w) T) as [r ps]. simpl in *.
  by apply (ancestors_last r ps []).
Qed.



(** X12.  A data table path that names a directory ends the run with an
    uncaught [IsADirectoryError] right after the existence check and the
    attempt to open it: no directory is created and nothing is
    fetched. *)
Theorem data_table_directory_aborts argv args w p :
  parse_args argv = inr args →
  truthy (language args) || common_models args = true →
  data_table args = Some p →
  p ≠ [] →
  fs w !! fs_key w (parse_path p) = Some Dir →
  let k := fs_key w (parse_path p) in
  ∃ w', main argv w = (inl (Uncaught (IsADirectoryError k)), w')
        ∧ fs w' = fs w
        ∧ trace w' = trace w ++ [FsExists k; FsOpenRead k].
Proof.
  intros Hparse Hsel Htable Hp Hdir k.
  destruct (main_accepted argv args w Hparse) as [Hsup Hrun].
  rewrite Hrun.
  destruct (run_stages args w Hsup Hsel) as (r1 & w1 & Hload & Hrest).
  rewrite Htable, (load_directory p w Hp (node_at_Dir _ _ Hdir)) in Hload.
  injection Hload as <- <-. exists (log (FsOpenRead k) (log (FsExists k) w)).
  split; [done|]. split; [done|]. simpl. by rewrite <- app_assoc.
Qed.

(** X13.  When the data table can be loaded but something that is no
    directory sits where the target directory or one of its ancestors
    should be, the run ends before anything is created or fetched, with
    an uncaught [NotADirectoryError] for the target directory when the
    obstacle is one of its ancestors and an uncaught [FileExistsError]
    when it is the target itself. *)
Theorem blocked_target_aborts argv args w E w1 :
  parse_args argv = inr args →
  truthy (language args) || common_models args = true →
  load_existing_models (data_table args) w = (inr E, w1) →
  let T := parse_path (target_directory args) in
  let a := absolute (cwd w) T in
  blocked (fs w) (mkdir_keys w T) →
  ∃ e w',
    main argv w = (inl (Uncaught e), w')
    ∧ (blocked (fs w) (parents a) → e = NotADirectoryError a)
    ∧ (¬ blocked (fs w) (parents a) → e = FileExistsError a)
    ∧ fs w' = fs w
    ∧ fetches w' = fetches w.
Proof.
  intros Hparse Hsel Hload T a Hblocked.
  destruct (main_accepted argv args w Hparse) as [Hsup Hrun].
  rewrite Hrun.
  destruct (run_chain args w Hsup Hsel)
    as [(p & n & a' & w1' & _ & _ & _ & _ & _ & _ & _ & Hload')
       |[(E' & w1' & e & w2 & _ & _ & Hup & Hlast & Heq & Hfs & Hfe)
        |(E' & w1' & w2 & es & w3 & _ & Hfree & _)]].
  - congruence.
  - by exists e, w2.
  - done.
Qed.

(** ** The identifiers read from the data table *)

Lemma first_field_no_TAB s : TAB ∉ first_field s.
Proof.
  induction s as [|a s IH]; simpl; [apply not_elem_of_nil|].
  destruct (N.eqb_spec a TAB) as [->|Hne]; [apply not_elem_of_nil|].
  apply not_elem_of_cons. split; [congruence|done].
Qed.

Lemma strip_nonempty s :
  strip s ≠ [] → ∃ c t, strip s = c :: t ∧ isspace c = false.
Proof.
  unfold strip. destruct (lstrip s) as [|c t] eqn:Hs; [done|]. intros _.
  pose proof (lstrip_head _ _ _ Hs) as Hc.
  exists c, (rstrip t). split; [by apply rstrip_cons|done].
Qed.

Lemma existing_set_spec_elem lines id :
  id ∈ existing_set_spec lines ↔
  ∃ line, line ∈ lines ∧ counts line ∧ id = first_field (strip line).
Proof.
  unfold existing_set_spec. rewrite elem_of_list_to_set, list_elem_of_fmap.
  split.
  - intros (line & -> & Hin). apply list_elem_of_filter in Hin as [Hc Hin]. eauto.
  - intros (line & Hin & Hc & ->). exists line. split; [done|].
    by apply list_elem_of_filter.
Qed.

(** X14.  Every identifier the loader returns is non-empty, contains no
    tab, and starts with a character that is neither whitespace nor
    '#'. *)
Theorem loaded_identifier_shape path w E w' id :
  load_existing_models path w = (inr E, w') →
  id ∈ E →
  TAB ∉ id
  ∧ ∃ c rest, id = c :: rest ∧ isspace c = false ∧ c ≠ HASH.
Proof.
  intros Hload Hid.
  destruct (load_inr _ _ _ _ Hload)
    as [[-> _]|(p & content & _ & _ & _ & _ & ->)].
  { by apply not_elem_of_empty in Hid. }
  apply existing_set_spec_elem in Hid as (line & _ & [Hne Hhash] & ->).
  split; [apply first_field_no_TAB|].
  destruct (strip_nonempty _ Hne) as (c & t & Hs & Hc).
  rewrite <- strip_head, Hs in Hhash. rewrite Hs. simpl.
  destruct (N.eqb_spec c TAB) as [->|_]; [done|].
  exists c, (first_field t). split_and!; auto. intros ->. done.
Qed.

Lemma collect_inv args w es w3 :
  collect_entries args w = (inr es, w3) →
  ∃ E w1 w2,
    load_existing_models (data_table args) w = (inr E, w1)
    ∧ mkdir_parents (parse_path (target_directory args)) w1 = (inr (), w2)
    ∧ orchestrate args E (parse_path (target_directory args)) w2 = (inr es, w3).
Proof.
  unfold collect_entries, bind.
  destruct (load_existing_models (data_table args) w) as [[a|E] w1] eqn:Hl;
    [by intros [=]|].
  destruct (mkdir_parents (parse_path (target_directory args)) w1) as [[a|[]] w2]
    eqn:Hm; [by intros [=]|].
  intros Horch. exists E, w1, w2. split_and!; [reflexivity|exact Hm|exact Horch].
Qed.

(** X15.  Loader and orchestrator together: an identifier that is the
    first field of a counted line of the data table file gets no entry in
    what is handed to the manifest writer, and none of the actions of the
    run is a transfer of its archive. *)
Theorem listed_identifier_not_registered argv args w p content line es w3 :
  parse_args argv = inr args →
  data_table args = Some p →
  p ≠ [] →
  fs w !! fs_key w (parse_path p) = Some (File content) →
  line ∈ file_lines content →
  counts line →
  collect_entries args w = (inr es, w3) →
  let id := first_field (strip line) in
  (∀ e, e ∈ es → Entry.lang_code e ≠ id)
  ∧ ∃ evs, trace w3 = trace w ++ evs
           ∧ ∀ m dest, (id, m) ∈ CATALOG → NetFetch (Model.url m) dest ∉ evs.
Proof.
  intros Hparse Htable Hp Hfile Hline Hcounts Hcollect id.
  destruct (parse_args_inr _ _ Hparse) as (Hsup & Hreq & _).
  rewrite <- Hreq in Hsup.
  destruct (collect_inv _ _ _ _ Hcollect) as (E & w1 & w2 & Hload & Hmk & Horch).
  rewrite Htable in Hload.
  assert (tail p = Plain
          ∧ node_at (fs w) (fs_key w (parse_path p)) = Some (File content))
    as [Htail Hnode].
  { destruct (load_inr _ _ _ _ Hload)
      as [(_ & [H|[H|(p' & H & Hnone)]])
         |(p' & content' & H & _ & Ht & Hn & _)].
    - discriminate H.
    - injection H as H. by destruct Hp.
    - injection H as H. subst p'.
      destruct (node_at_cases (fs w) (fs_key w (parse_path p)))
        as [Hsame|[_ Hroot]]; congruence.
    - injection H as H. subst p'.
      destruct (node_at_cases (fs w) (fs_key w (parse_path p)))
        as [Hsame|[_ Hroot]]; [|congruence].
      split; [done|]. congruence. }
  rewrite (load_file p w Hp content Hnode Htail) in Hload.
  injection Hload as <- <-.
  fold (file_lines content) in Horch. rewrite foldl_add_line, union_empty_r_L in Horch.
  assert (id ∈ existing_set_spec (file_lines content)) as Hid.
  { apply existing_set_spec_elem. by exists line. }
  destruct (mkdir_parents_cases _ _ _ _ Hmk) as (_ & _ & _ & Htr2 & _).
  destruct (orchestrate_post (existing_set_spec (file_lines content))
              (parse_path (target_directory args)) args w2 Hsup)
    as (w0 & es' & w3' & _ & _ & Heq & _ & Hpost & _).
  rewrite Horch in Heq. injection Heq as <- <-.
  split.
  - intros e He Hc.
    destruct (post_new_entry _ _ _ _ _ _ _ Hpost He) as (_ & HE & _).
    by rewrite Hc in HE.
  - destruct (post_fetch _ _ _ _ _ _ _ Hpost) as (evs & Htr & Hev).
    exists ([FsExists (fs_key w (parse_path p)); FsOpenRead (fs_key w (parse_path p));
             FsMkdir (absolute (cwd w) (parse_path (target_directory args)))] ++ evs).
    split.
    { rewrite Htr, Htr2. simpl. by rewrite <- !app_assoc. }
    intros m dest Hm Hin.
    apply elem_of_app in Hin as [Hin|Hin].
    { repeat (apply elem_of_cons in Hin as [?|Hin]; [done|]).
      by apply elem_of_nil in Hin. }
    destruct (Hev _ _ Hin) as (c & m' & _ & HE & Hm' & Hurl & _).
    apply HE. by rewrite (catalog_url_inj c m' id m Hm' Hm).
Qed.

(** ** The characters of the manifest *)

Lemma Forall_join {P : N → Prop} sep (l : list str) :
  Forall P sep → Forall (Forall P) l → Forall P (join sep l).
Proof.
  intros Hsep Hl. induction l as [|x l IH]; [done|].
  apply Forall_cons in Hl as [Hx Hl]. destruct l as [|y l]; [done|].
  change (join sep (x :: y :: l)) with (x ++ sep ++ join sep (y :: l)).
  rewrite !Forall_app. auto.
Qed.

Lemma py_ascii_1 c : 32 <= c ∧ c <= 126 → Forall plain_ascii [c].
Proof. intros H. constructor; [by right|constructor]. Qed.

Lemma hex_digit_ascii d : d < 16 → plain_ascii (hex_digit d).
Proof.
  intros Hd. unfold hex_digit, plain_ascii, LF. destruct (N.ltb_spec d 10); lia.
Qed.

Lemma u_escape_ascii n : Forall plain_ascii (u_escape n).
Proof.
  unfold u_escape, hex4. simpl.
  repeat (constructor; [first [apply hex_digit_ascii; by apply N.mod_lt
                             | unfold plain_ascii, BACKSLASH, LF; lia]|]).
  constructor.
Qed.

Lemma escape_char_ascii c : Forall plain_ascii (escape_char c).
Proof.
  assert (∀ e, 32 <= e ∧ e <= 126 → Forall plain_ascii [BACKSLASH; e]) as Hesc.
  { intros e He. repeat constructor; unfold plain_ascii, BACKSLASH; lia. }
  unfold escape_char.
  destruct (N.eqb_spec c BACKSLASH); [apply Hesc; unfold BACKSLASH; lia|].
  destruct (N.eqb_spec c QUOTE); [apply Hesc; unfold QUOTE; lia|].
  destruct (N.leb_spec 32 c), (N.leb_spec c 126); cbn [andb];
    try (repeat constructor; unfold plain_ascii; lia).
  all: destruct (N.eqb_spec c 8); [apply Hesc; lia|].
  all: destruct (N.eqb_spec c 12); [apply Hesc; lia|].
  all: destruct (N.eqb_spec c 10); [apply Hesc; lia|].
  all: destruct (N.eqb_spec c 13); [apply Hesc; lia|].
  all: destruct (N.eqb_spec c 9); [apply Hesc; lia|].
  all: destruct (N.ltb_spec c 65536); [apply u_escape_ascii|].
  all: cbv zeta; apply Forall_app; split; apply u_escape_ascii.
Qed.

Lemma encode_basestring_ascii_ascii s : Forall plain_ascii (encode_basestring_ascii s).
Proof.
  unfold encode_basestring_ascii. rewrite !Forall_app. split_and!.
  - apply py_ascii_1. unfold QUOTE. lia.
  - induction s as [|c s IH]; [constructor|].
    rewrite fmap_cons. simpl. apply Forall_app. split; [apply escape_char_ascii|done].
  - apply py_ascii_1. unfold QUOTE. lia.
Qed.

Lemma newline_indent_ascii indent level : Forall plain_ascii (newline_indent indent level).
Proof.
  unfold newline_indent. constructor; [by left|].
  apply Forall_replicate. unfold plain_ascii. lia.
Qed.

Lemma dumps_at_ascii indent v : ∀ level,
  Forall plain_ascii (dumps_at indent level v).
Proof.
  induction v as [s|items IH|members IH] using json_ind_nested; intros level.
  - apply encode_basestring_ascii_ascii.
  - destruct items as [|i items].
    { change (dumps_at indent level (JArray [])) with ([91] ++ [93]).
      apply Forall_app. split; apply py_ascii_1; lia. }
    change (dumps_at indent level (JArray (i :: items)))
      with ([91] ++ newline_indent indent (S level)
              ++ join ([44] ++ newline_indent indent (S level))
                   (map (dumps_at indent (S level)) (i :: items))
              ++ newline_indent indent level ++ [93]).
    rewrite !Forall_app. split_and!; auto using newline_indent_ascii.
    + apply py_ascii_1. lia.
    + apply Forall_join.
      * apply Forall_app. split; [apply py_ascii_1; lia|apply newline_indent_ascii].
      * apply Forall_fmap. eapply Forall_impl; [exact IH|]. intros x Hx. apply Hx.
    + apply py_ascii_1. lia.
  - destruct members as [|kv members].
    { change (dumps_at indent level (JObject [])) with ([123] ++ [125]).
      apply Forall_app. split; apply py_ascii_1; lia. }
    change (dumps_at indent level (JObject (kv :: members)))
      with ([123] ++ newline_indent indent (S level)
              ++ join ([44] ++ newline_indent indent (S level))
                   (map (λ kv, encode_basestring_ascii (fst kv) ++ py ": "
                                ++ dumps_at indent (S level) (snd kv))
                      (kv :: members))
              ++ newline_indent indent level ++ [125]).
    rewrite !Forall_app. split_and!; auto using newline_indent_ascii.
    + apply py_ascii_1. lia.
    + apply Forall_join.
      * apply Forall_app. split; [apply py_ascii_1; lia|apply newline_indent_ascii].
      * apply Forall_fmap. eapply Forall_impl; [exact IH|]. intros [k x] Hx.
        unfold compose. cbn [fst snd] in *. rewrite !Forall_app. split_and!.
        -- apply encode_basestring_ascii_ascii.
        -- change (py ": ") with ([58] ++ [32]). apply Forall_app.
           split; apply py_ascii_1; lia.
        -- apply Hx.
    + apply py_ascii_1. lia.
Qed.

(** X16.  The manifest text consists of newlines and printable ASCII
    characters only, whatever characters the entries hold (paths
    included): [json.dump] is called with its default [ensure_ascii]. *)
Theorem manifest_is_ascii es :
  Forall plain_ascii (json_dumps 2 (data_manager_output es)).
Proof. apply dumps_at_ascii. Qed.

(** X17.  Distinct identifiers of the catalog have distinct URLs and are
    stored in distinct files, whatever the target directory and the
    working directory. *)
Theorem distinct_identifiers_distinct_archives T w c1 m1 c2 m2 :
  (c1, m1) ∈ CATALOG →
  (c2, m2) ∈ CATALOG →
  c1 ≠ c2 →
  Model.url m1 ≠ Model.url m2
  ∧ Model.jar_name m1 ≠ Model.jar_name m2
  ∧ jar_key T w m1 ≠ jar_key T w m2.
Proof.
  intros H1 H2 Hne. split_and!; intros Heq; apply Hne.
  - by apply (catalog_url_inj c1 m1 c2 m2).
  - apply (jar_key_inj T w c1 m1 c2 m2); auto.
    unfold jar_key, fs_key. rewrite (jar_path_plain T c1 m1 H1), (jar_path_plain T c2 m2 H2).
    by rewrite Heq.
  - by apply (jar_key_inj T w c1 m1 c2 m2).
Qed.

(** ** Running again *)

Lemma entries_determined T w (es1 es2 : list Entry.t) :
  (∀ e, e ∈ es1 → ∃ m, (Entry.lang_code e, m) ∈ CATALOG
                       ∧ e = entry_of w T (Entry.lang_code e) m) →
  (∀ e, e ∈ es2 → ∃ m, (Entry.lang_code e, m) ∈ CATALOG
                       ∧ e = entry_of w T (Entry.lang_code e) m) →
  Entry.lang_code <$> es1 = Entry.lang_code <$> es2 →
  es1 = es2.
Proof.
  revert es2. induction es1 as [|e1 es1 IH]; intros [|e2 es2] H1 H2 Hc;
    try done.
  rewrite !fmap_cons in Hc. injection Hc as Hc Hcs.
  destruct (H1 e1) as (m1 & Hm1 & He1); [apply elem_of_cons; by left|].
  destruct (H2 e2) as (m2 & Hm2 & He2); [apply elem_of_cons; by left|].
  rewrite Hc in Hm1, He1. rewrite (catalog_id_inj _ _ _ Hm1 Hm2) in He1.
  f_equal; [congruence|]. apply IH; auto.
  - intros e He. apply H1. apply elem_of_cons. by right.
  - intros e He. apply H2. apply elem_of_cons. by right.
Qed.

Lemma orchestrate_entries_shape E T args w es w' :
  Forall (λ c, Is_true (supported c)) (requested args) →
  orchestrate args E T w = (inr es, w') →
  cwd w' = cwd w
  ∧ ∀ e, e ∈ es → ∃ m, (Entry.lang_code e, m) ∈ CATALOG
                       ∧ e = entry_of w T (Entry.lang_code e) m.
Proof.
  intros Hsup Hrun.
  destruct (orchestrate_post E T args w Hsup)
    as (w0 & es0 & w0' & _ & _ & Heq & _ & Hp & _).
  rewrite Hrun in Heq. injection Heq as <- <-.
  split; [by apply (post_cwd _ _ _ _ _ _ _ Hp)|].
  intros e He. by destruct (post_new_entry _ _ _ _ _ _ _ Hp He) as (_ & _ & H).
Qed.

(** X18.  Running again is idempotent: after a run in which every
    requested identifier outside the existing set had its archive on disk
    or could fetch it, a second run with the same arguments makes no
    transfer, leaves the file system as it is and yields the same
    entries. *)
Theorem rerun_is_idempotent argv args E T w es w' :
  parse_args argv = inr args →
  (∀ c m, c ∈ identifiers args → c ∉ E → (c, m) ∈ CATALOG →
     is_Some (fs w !! jar_key T w m) ∨ fetch_succeeds w (Model.url m)) →
  orchestrate args E T w = (inr es, w') →
  ∃ w'' evs,
    orchestrate args E T w' = (inr es, w'')
    ∧ trace w'' = trace w' ++ evs
    ∧ transfers evs = 0%nat
    ∧ fs w'' = fs w'.
Proof.
  intros Hparse Hav Hrun.
  destruct (parse_args_inr _ _ Hparse) as (Hsup & Hreq & _).
  rewrite <- Hreq in Hsup.
  destruct (orchestrate_entries_shape E T args w es w' Hsup Hrun) as [Hcwd Hshape].
  (* the first run registers every identifier outside the existing set *)
  destruct (orchestrate_available args E T w Hsup) as (es1 & w1 & Heq1 & Hcodes).
  { intros c m Hc HE Hm. apply (Hav c m); auto using language_in_catalog.
    unfold identifiers. apply elem_of_app. by right. }
  rewrite Hrun in Heq1. injection Heq1 as <- <-.
  (* so every such archive is on disk afterwards *)
  assert (∀ c m, c ∈ identifiers args → c ∉ E → (c, m) ∈ CATALOG →
                 is_Some (fs w' !! jar_key T w' m)) as Hdisk.
  { intros c m Hc HE Hm. rewrite (jar_key_cwd T w w' m Hcwd).
    destruct (orchestrate_post E T args w Hsup)
      as (w0 & es0 & w0' & Hp0 & _ & Heq & Hp & _ & Hw0).
    rewrite Hrun in Heq. injection Heq as <- <-.
    pose proof (post_cwd _ _ _ _ _ _ _ Hp0) as Hcwd0.
    destruct (decide (c = py "common")) as [->|Hne].
    - rewrite (catalog_id_inj _ _ _ Hm common_in_catalog).
      assert (common_models args = true) as Hflag.
      { unfold identifiers, common_ids in Hc. destruct (common_models args); [done|].
        exfalso. by apply (common_not_requested args Hsup). }
      rewrite <- (jar_key_cwd T w w0 _ Hcwd0). eapply post_mono; [exact Hp|].
      rewrite (jar_key_cwd T w w0 _ Hcwd0).
      destruct (fs w !! jar_key T w COMMON_MODELS) as [n|] eqn:Hk.
      + eapply post_mono; [exact Hp0|]. rewrite Hk. eauto.
      + rewrite (Hw0 Hflag HE eq_refl).
        apply (after_fetch_ok (Model.url COMMON_MODELS) (jar_path T COMMON_MODELS)
                 (log (FsExists (jar_key T w COMMON_MODELS)) w)).
        destruct (Hav (py "common") COMMON_MODELS Hc HE common_in_catalog)
          as [[? H]|H]; [congruence|].
        by apply fetch_succeeds_ok.
    - assert (c ∈ to_process E (identifiers args)) as Hin.
      { unfold to_process. by apply list_elem_of_filter. }
      rewrite <- Hcodes in Hin. apply list_elem_of_fmap in Hin as (e & -> & He).
      destruct (orchestrate_summary E T args w Hsup)
        as (es2 & w2 & evs & Heq & _ & _ & _ & _ & _ & _ & _ & Hon & _).
      rewrite Hrun in Heq. injection Heq as <- <-.
      destruct (Hon e He Hne) as (m' & Hm' & Hk).
      by rewrite (catalog_id_inj _ _ _ Hm (language_in_catalog _ _ Hm')). }
  destruct (orchestrate_on_disk args E T w' Hsup Hdisk)
    as (es2 & w'' & evs & Heq2 & Htr & Hno & _ & Hfs & Hcodes2).
  destruct (orchestrate_entries_shape E T args w' es2 w'' Hsup Heq2) as [_ Hshape2].
  assert (es2 = es) as ->.
  { apply (entries_determined T w); auto; [|congruence].
    intros e He. destruct (Hshape2 e He) as (m & Hm & Heq).
    exists m. split; [done|]. by rewrite <- (entry_of_cwd T w w' _ m Hcwd). }
  by exists w'', evs.
Qed.

(** ** Paths and their strings *)

Lemma split_no_sep sep s : Forall (λ f, sep ∉ f) (split sep s).
Proof.
  induction s as [|c s IH]; simpl.
  { constructor; [apply not_elem_of_nil|constructor]. }
  destruct (N.eqb_spec c sep) as [->|Hne].
  - constructor; [apply not_elem_of_nil|done].
  - destruct (split sep s) as [|f fs].
    + constructor; [|constructor].
      apply not_elem_of_cons. split; [congruence|apply not_elem_of_nil].
    + apply Forall_cons in IH as [Hf Hfs]. constructor; [|done].
      apply not_elem_of_cons. split; [congruence|done].
Qed.

Lemma split_whole sep s : sep ∉ s → split sep s = [s].
Proof.
  induction s as [|c s IH]; intros Hs; [done|].
  apply not_elem_of_cons in Hs as [Hc Hs]. simpl.
  destruct (N.eqb_spec c sep) as [->|_]; [done|]. by rewrite IH.
Qed.

Lemma split_app_sep sep p s : sep ∉ p → split sep (p ++ sep :: s) = p :: split sep s.
Proof.
  induction p as [|c p IH]; intros Hp; simpl.
  { by rewrite N.eqb_refl. }
  apply not_elem_of_cons in Hp as [Hc Hp].
  destruct (N.eqb_spec c sep) as [->|_]; [done|]. by rewrite IH.
Qed.

Lemma split_join ps :
  ps ≠ [] → Forall (λ f, SLASH ∉ f) ps → split SLASH (join [SLASH] ps) = ps.
Proof.
  induction ps as [|p ps IH]; intros Hne Hps; [done|].
  apply Forall_cons in Hps as [Hp Hps]. destruct ps as [|q ps].
  - simpl. by apply split_whole.
  - change (join [SLASH] (p :: q :: ps)) with (p ++ SLASH :: join [SLASH] (q :: ps)).
    rewrite split_app_sep by done. by rewrite IH.
Qed.

Lemma filter_clean ps :
  Forall clean ps → filter (λ c, Is_true (part_kept c)) ps = ps.
Proof.
  induction 1 as [|p ps (Hne & Hdot & _) _ IH]; [done|].
  rewrite filter_cons, decide_True, IH; [done|].
  unfold part_kept. by rewrite !bool_decide_eq_false_2.
Qed.

Ltac bits x := destruct x as [|x]; [|do 6 (try destruct x as [x|x|])].

Lemma parse_path_normal t : normal (parse_path t).
Proof.
  split.
  - unfold parse_path. cbn [root].
    destruct t as [|a t]; [auto|].
    bits a; try (cbn; auto; fail).
    destruct t as [|b t]; [auto|].
    bits b; try (cbn; auto; fail).
    destruct t as [|c t]; [auto|].
    bits c; cbn; auto.
  - unfold parse_path. cbn [parts].
    pose proof (split_no_sep SLASH t) as Hs.
    induction (split SLASH t) as [|f fs IH]; [constructor|].
    apply Forall_cons in Hs as [Hf Hfs]. rewrite filter_cons.
    destruct (decide (Is_true (part_kept f))) as [Hk|Hk]; [|auto].
    constructor; [|auto]. unfold part_kept in Hk.
    apply andb_prop_elim in Hk as [H1 H2].
    apply negb_prop_elim in H1, H2.
    split_and!.
    + intros Heq. apply H1. by apply bool_decide_pack.
    + intros Heq. apply H2. by apply bool_decide_pack.
    + exact Hf.
Qed.

Lemma root_after c s :
  c ≠ SLASH →
  root (parse_path (c :: s)) = []
  ∧ root (parse_path (SLASH :: c :: s)) = [SLASH]
  ∧ root (parse_path (SLASH :: SLASH :: c :: s)) = [SLASH; SLASH].
Proof.
  intros Hc. unfold parse_path, SLASH in *. cbn [root].
  bits c; try (split_and!; reflexivity); by destruct Hc.
Qed.

Lemma join_head q ps :
  clean q → ∃ c s, c ≠ SLASH ∧ join [SLASH] (q :: ps) = c :: s.
Proof.
  intros (Hne & _ & Hs). destruct q as [|c q]; [done|].
  apply not_elem_of_cons in Hs as [Hc _].
  exists c. destruct ps as [|p ps]; eexists; (split; [done|]); reflexivity.
Qed.

Lemma clean_no_sep ps : Forall clean ps → Forall (λ f, SLASH ∉ f) ps.
Proof. intros H. eapply Forall_impl; [exact H|]. by intros q (_ & _ & ?). Qed.

Lemma parts_join ps :
  Forall clean ps → parts (parse_path (join [SLASH] ps)) = ps.
Proof.
  intros Hps. unfold parse_path. cbn [parts]. destruct ps as [|q ps]; [done|].
  rewrite split_join; [by apply filter_clean|done|by apply clean_no_sep].
Qed.

Lemma parts_slash s :
  parts (parse_path (SLASH :: s)) = parts (parse_path s).
Proof.
  unfold parse_path. cbn [parts]. change (split SLASH (SLASH :: s)) with ([] :: split SLASH s).
  by rewrite filter_cons, decide_False by (by intros ?).
Qed.

Lemma parse_path_str p : normal p → parse_path (path_str p) = p.
Proof.
  destruct p as [r ps]. intros [Hr Hps]. cbn [root parts] in *.
  assert (∀ q, root q = r → parts q = ps → q = Build_Path r ps) as Heq.
  { intros [??] ??. by simplify_eq/=. }
  apply Heq; unfold path_str; cbn [root parts].
  - destruct ps as [|q qs].
    { by destruct Hr as [->|[->| ->]]. }
    apply Forall_cons in Hps as [Hq _].
    destruct (join_head q qs Hq) as (c & s & Hc & ->).
    destruct (root_after c s Hc) as (H0 & H1 & H2).
    by destruct Hr as [->|[->| ->]].
  - destruct Hr as [->|[->| ->]].
    + destruct ps as [|q qs]; [done|]. by apply parts_join.
    + change ([SLASH] ++ ?x) with (SLASH :: x).
      rewrite parts_slash. by apply parts_join.
    + change ([SLASH; SLASH] ++ ?x) with (SLASH :: SLASH :: x).
      rewrite !parts_slash. by apply parts_join.
Qed.

Lemma normal_truediv p key : normal p → normal (truediv p key).
Proof.
  intros [Hr Hps]. pose proof (parse_path_normal key) as [Hr' Hps'].
  unfold truediv. destruct (is_absolute (parse_path key)); split; cbn [root parts]; auto.
  by apply Forall_app.
Qed.

Lemma normal_absolute c p : normal p → normal (absolute c p).
Proof.
  intros [Hr Hps]. pose proof (parse_path_normal c) as [Hr' Hps'].
  unfold absolute. destruct (is_absolute p); split; cbn [root parts]; auto.
  by apply Forall_app.
Qed.

(** X19: the text [str(jar_path)] handed to [download_model] denotes the
    path whose existence was tested just before, and the text
    [str(jar_path.absolute())] stored as models_path denotes the
    absolute archive path: parsing either text gives the path back,
    whatever the target directory text, the archive name and the
    working directory are. *)
Theorem archive_text_denotes_archive_path (t key c : str) :
  let jar := truediv (parse_path t) key in
  parse_path (path_str jar) = jar
  ∧ parse_path (path_str (absolute c jar)) = absolute c jar.
Proof.
  intros jar.
  assert (normal jar) as Hn by apply normal_truediv, parse_path_normal.
  split; apply parse_path_str; [done|by apply normal_absolute].
Qed.

(** ** Concrete runs for the further properties *)

(** Witness of X1: English requested on a fresh disk. *)
Lemma registered_entry_shape_witness :
  let w := world ∅ online in
  let e := entry_of w MODELS (py "en") ENGLISH in
  ∃ m, (Entry.lang_code e, m) ∈ CATALOG
       ∧ Entry.models_path e = path_str (jar_key MODELS w m).
Proof.
  intros w e.
  assert (fst (orchestrate (args_for false [py "en"] None) ∅ MODELS w) = inr [e])
    as Hes by (vm_compute; reflexivity).
  destruct (orchestrate (args_for false [py "en"] None) ∅ MODELS w)
    as [r w'] eqn:Heq.
  cbn [fst] in Hes. subst r.
  destruct (registered_entry_shape (argv_for false [py "en"] None)
              (args_for false [py "en"] None) ∅ MODELS w [e] w' e)
    as (_ & _ & m & Hm & _ & _ & Hpath & _).
  - vm_compute; reflexivity.
  - exact Heq.
  - apply list_elem_of_singleton. reflexivity.
  - exists m. split; assumption.
Defined.

(** Witness of X2: English requested twice on a fresh disk. *)
Lemma at_most_one_transfer_per_identifier_witness :
  let w := world ∅ online in
  let args := args_for false [py "en"; py "en"] None in
  ∃ es w' evs,
    orchestrate args ∅ MODELS w = (inr es, w')
    ∧ trace w' = trace w ++ evs
    ∧ (transfers evs ≤ length (to_process ∅ (identifiers args)))%nat.
Proof.
  intros w args.
  assert (∃ es, fst (orchestrate args ∅ MODELS w) = inr es) as [es Hes]
    by (eexists; vm_compute; reflexivity).
  destruct (orchestrate args ∅ MODELS w) as [r w'] eqn:Heq.
  cbn [fst] in Hes. subst r.
  destruct (at_most_one_transfer_per_identifier
              (argv_for false [py "en"; py "en"] None) args ∅ MODELS w es w')
    as (evs & Htrace & _ & Hle & _).
  - vm_compute; reflexivity.
  - exact Heq.
  - exists es, w', evs. split; [reflexivity|]. split; assumption.
Defined.

(** Witness of X3: English requested on a fresh disk. *)
Lemma registered_language_archive_on_disk_witness :
  let w := world ∅ online in
  let e := entry_of w MODELS (py "en") ENGLISH in
  ∃ w' m,
    orchestrate (args_for false [py "en"] None) ∅ MODELS w = (inr [e], w')
    ∧ LANGUAGE_MODELS !! Entry.lang_code e = Some m
    ∧ is_Some (fs w' !! jar_key MODELS w m).
Proof.
  intros w e.
  assert (fst (orchestrate (args_for false [py "en"] None) ∅ MODELS w) = inr [e])
    as Hes by (vm_compute; reflexivity).
  destruct (orchestrate (args_for false [py "en"] None) ∅ MODELS w)
    as [r w'] eqn:Heq.
  cbn [fst] in Hes. subst r.
  destruct (registered_language_archive_on_disk (argv_for false [py "en"] None)
              (args_for false [py "en"] None) ∅ MODELS w [e] w' e)
    as (m & Hm & Hfs).
  - vm_compute; reflexivity.
  - exact Heq.
  - apply list_elem_of_singleton. reflexivity.
  - intros H. vm_compute in H. discriminate H.
  - exists w', m. split; [reflexivity|]. split; assumption.
Defined.


(** Witness of X5: the common models, English and French requested with
    the network up. *)
Lemma available_identifiers_all_registered_witness :
  let w := world ∅ online in
  let args := args_for true [py "en"; py "fr"] None in
  ∃ es w',
    orchestrate args ∅ MODELS w = (inr es, w')
    ∧ Entry.lang_code <$> es = to_process ∅ (identifiers args).
Proof.
  intros w args.
  apply (available_identifiers_all_registered
           (argv_for true [py "en"; py "fr"] None) args ∅ MODELS w).
  - vm_compute; reflexivity.
  - intros c m _ _ _. right. intros n. eexists. reflexivity.
Defined.

(** Witness of X6: English requested, its archive on disk. *)
Lemma all_on_disk_no_network_witness :
  let w := world english_on_disk (offline None) in
  let args := args_for false [py "en"] None in
  ∃ es w' evs,
    orchestrate args ∅ MODELS w = (inr es, w')
    ∧ trace w' = trace w ++ evs
    ∧ transfers evs = 0%nat
    ∧ fetches w' = fetches w
    ∧ fs w' = fs w
    ∧ Entry.lang_code <$> es = to_process ∅ (identifiers args).
Proof.
  intros w args.
  apply (all_on_disk_no_network (argv_for false [py "en"] None) args ∅ MODELS w).
  - vm_compute; reflexivity.
  - intros c m Hc _ Hm.
    apply list_elem_of_singleton in Hc. subst c.
    assert (m = ENGLISH) as ->.
    { apply (catalog_id_inj (py "en")); [exact Hm|].
      apply language_in_catalog, ENGLISH_lookup. }
    by_compute.
Defined.

(** Witness of X7: the data table of the specification. *)
Lemma load_existing_models_read_only_witness :
  let w := world with_table online in
  ∃ r w', load_existing_models (Some LOC) w = (r, w') ∧ fs w' = fs w.
Proof.
  intros w.
  destruct (load_existing_models (Some LOC) w) as [r w'] eqn:Heq.
  destruct (load_existing_models_read_only (Some LOC) w r w' Heq) as (Hfs & _).
  exists r, w'. split; [reflexivity|exact Hfs].
Defined.


(** Witness of X9: the common models requested on a fresh disk. *)
Lemma target_directory_created_witness :
  let w := world ∅ online in
  ∃ w', main (argv_for true [] None) w = (inr (), w')
        ∧ fs w' !! absolute (cwd w) MODELS = Some Dir.
Proof.
  intros w.
  assert (fst (main (argv_for true [] None) w) = inr ()) as Hr
    by (vm_compute; reflexivity).
  destruct (main (argv_for true [] None) w) as [r w'] eqn:Heq.
  cbn [fst] in Hr. subst r.
  destruct (target_directory_created (argv_for true [] None)
              (args_for true [] None) w w') as (_ & Hdir).
  - vm_compute; reflexivity.
  - exact Heq.
  - exists w'. split; [reflexivity|]. apply Hdir.
    intros H. vm_compute in H. discriminate H.
Defined.



(** Witness of X12. *)
Lemma data_table_directory_aborts_witness :
  let w := world table_is_dir online in
  let k := fs_key w (parse_path LOC) in
  ∃ w', main (argv_for true [] (Some LOC)) w
        = (inl (Uncaught (IsADirectoryError k)), w')
        ∧ fs w' = fs w.
Proof.
  intros w k.
  destruct (data_table_directory_aborts (argv_for true [] (Some LOC))
              (args_for true [] (Some LOC)) w LOC)
    as (w' & Hmain & Hfs & _).
  - vm_compute; reflexivity.
  - reflexivity.
  - reflexivity.
  - intros H. discriminate H.
  - vm_compute; reflexivity.
  - exists w'. split; assumption.
Defined.

(** Witness of X13: a regular file named "models" sits in the working
    directory. *)
Lemma blocked_target_aborts_witness :
  let w := world models_is_file online in
  let a := absolute (cwd w) MODELS in
  ∃ w', main (argv_for true [] None) w = (inl (Uncaught (FileExistsError a)), w')
        ∧ fs w' = fs w.
Proof.
  intros w a.
  destruct (blocked_target_aborts (argv_for true [] None)
              (args_for true [] None) w ∅ w)
    as (e & w' & Hmain & _ & Hlast & Hfs & _).
  - vm_compute; reflexivity.
  - reflexivity.
  - reflexivity.
  - by_compute.
  - exists w'. rewrite Hmain, Hlast; [split; [reflexivity|exact Hfs]|].
    by_compute.
Defined.

(** Witness of X14: the identifier "en" of the indented line. *)
Lemma loaded_identifier_shape_witness :
  TAB ∉ py "en"
  ∧ ∃ c rest, py "en" = c :: rest ∧ isspace c = false ∧ c ≠ HASH.
Proof.
  pose (w := world with_table online).
  assert (fst (load_existing_models (Some LOC) w)
          = inr (list_to_set [py "common"; py "en"])) as HE
    by (vm_compute; reflexivity).
  destruct (load_existing_models (Some LOC) w) as [r w'] eqn:Heq.
  cbn [fst] in HE. subst r.
  apply (loaded_identifier_shape (Some LOC) w
           (list_to_set [py "common"; py "en"]) w' (py "en") Heq).
  by_compute.
Defined.

(** Witness of X15: English is listed in the data table and requested. *)
Lemma listed_identifier_not_registered_witness :
  let w := world with_table online in
  let args := args_for true [py "en"; py "fr"] (Some LOC) in
  ∃ es w3, collect_entries args w = (inr es, w3)
           ∧ ∀ e, e ∈ es → Entry.lang_code e ≠ first_field (strip english_line).
Proof.
  intros w args.
  assert (∃ es, fst (collect_entries args w) = inr es) as [es Hes]
    by (eexists; vm_compute; reflexivity).
  destruct (collect_entries args w) as [r w3] eqn:Heq.
  cbn [fst] in Hes. subst r.
  destruct (listed_identifier_not_registered
              (argv_for true [py "en"; py "fr"] (Some LOC)) args w
              LOC loc_text english_line es w3) as (Hno & _).
  - vm_compute; reflexivity.
  - reflexivity.
  - intros H. discriminate H.
  - vm_compute; reflexivity.
  - by_compute.
  - by_compute.
  - exact Heq.
  - exists es, w3. split; [reflexivity|exact Hno].
Defined.

(** Witness of X17: English and French. *)
Lemma distinct_identifiers_distinct_archives_witness :
  jar_key MODELS (world ∅ online) ENGLISH ≠ jar_key MODELS (world ∅ online) FRENCH.
Proof.
  destruct (distinct_identifiers_distinct_archives MODELS (world ∅ online)
              (py "en") ENGLISH (py "fr") FRENCH) as (_ & _ & H).
  - apply language_in_catalog, ENGLISH_lookup.
  - apply language_in_catalog, FRENCH_lookup.
  - intros Heq. discriminate Heq.
  - exact H.
Defined.

(** Witness of X18: the common models and English requested on a fresh
    disk, then once more. *)
Lemma rerun_is_idempotent_witness :
  let w := world ∅ online in
  let args := args_for true [py "en"] None in
  ∃ es w' w'',
    orchestrate args ∅ MODELS w = (inr es, w')
    ∧ orchestrate args ∅ MODELS w' = (inr es, w'')
    ∧ fs w'' = fs w'.
Proof.
  intros w args.
  assert (∃ es, fst (orchestrate args ∅ MODELS w) = inr es) as [es Hes]
    by (eexists; vm_compute; reflexivity).
  destruct (orchestrate args ∅ MODELS w) as [r w'] eqn:Heq.
  cbn [fst] in Hes. subst r.
  destruct (rerun_is_idempotent (argv_for true [py "en"] None) args ∅ MODELS w es w')
    as (w'' & evs & Hagain & _ & _ & Hfs).
  - vm_compute; reflexivity.
  - intros c m _ _ _. right. intros n. eexists. reflexivity.
  - exact Heq.
  - exists es, w', w''. split; [reflexivity|]. split; assumption.
Defined.
